(** * Flang LLVM bridge (cgmain.c): a shallow embedding of the instruction
    list, the common-subexpression cache, the peephole passes and the
    instruction printer, with the properties the specification states
    about them.

    The C code threads a doubly linked list of [INSTR_LIST] objects, a
    pool of [TMPS] objects carrying use counts, and the [csedList] through
    file-static variables.  Here that state is one record, [cg_state], and
    every C function that reads or writes it is a function in the state and
    error monad [M].  A C null-pointer dereference is a failure of [M]. *)

From Stdlib Require Import ZArith Ascii String List Lia Bool.
From stdpp Require Import base option list gmap pretty.

Open Scope Z_scope.
Set Warnings "-register-all".

(** ** Instruction names ([LL_InstrName], in the order of
    [llvm_instr_names]) *)

Inductive LL_InstrName : Type :=
  | I_NONE | I_RET | I_BR | I_SW | I_INVOKE | I_UNWIND | I_UNREACH
  | I_ADD | I_FADD | I_SUB | I_FSUB | I_MUL | I_FMUL | I_UDIV | I_SDIV
  | I_FDIV | I_UREM | I_SREM | I_FREM | I_SHL | I_LSHR | I_ASHR | I_AND
  | I_OR | I_XOR | I_EXTELE | I_INSELE | I_SHUFFVEC | I_EXTRACTVAL
  | I_INSERTVAL | I_MALLOC | I_FREE | I_ALLOCA | I_LOAD | I_STORE | I_GEP
  | I_TRUNC | I_ZEXT | I_SEXT | I_FPTRUNC | I_FPEXT | I_FPTOUI | I_FPTOSI
  | I_UITOFP | I_SITOFP | I_PTRTOINT | I_INTTOPTR | I_BITCAST | I_ICMP
  | I_FCMP | I_VICMP | I_VFCMP | I_PHI | I_SELECT | I_CALL | I_VA_ARG
  | I_DECL | I_LANDINGPAD | I_RESUME | I_CLEANUP | I_CATCH | I_BARRIER
  | I_ATOMICRMW | I_CMPXCHG | I_FENCE | I_PICALL | I_INDBR | I_FILTER.

(** The position of a name in the enumeration. *)
Definition instr_index (i : LL_InstrName) : nat :=
  match i with
  | I_NONE => 0 | I_RET => 1 | I_BR => 2 | I_SW => 3 | I_INVOKE => 4
  | I_UNWIND => 5 | I_UNREACH => 6 | I_ADD => 7 | I_FADD => 8 | I_SUB => 9
  | I_FSUB => 10 | I_MUL => 11 | I_FMUL => 12 | I_UDIV => 13 | I_SDIV => 14
  | I_FDIV => 15 | I_UREM => 16 | I_SREM => 17 | I_FREM => 18 | I_SHL => 19
  | I_LSHR => 20 | I_ASHR => 21 | I_AND => 22 | I_OR => 23 | I_XOR => 24
  | I_EXTELE => 25 | I_INSELE => 26 | I_SHUFFVEC => 27 | I_EXTRACTVAL => 28
  | I_INSERTVAL => 29 | I_MALLOC => 30 | I_FREE => 31 | I_ALLOCA => 32
  | I_LOAD => 33 | I_STORE => 34 | I_GEP => 35 | I_TRUNC => 36 | I_ZEXT => 37
  | I_SEXT => 38 | I_FPTRUNC => 39 | I_FPEXT => 40 | I_FPTOUI => 41
  | I_FPTOSI => 42 | I_UITOFP => 43 | I_SITOFP => 44 | I_PTRTOINT => 45
  | I_INTTOPTR => 46 | I_BITCAST => 47 | I_ICMP => 48 | I_FCMP => 49
  | I_VICMP => 50 | I_VFCMP => 51 | I_PHI => 52 | I_SELECT => 53
  | I_CALL => 54 | I_VA_ARG => 55 | I_DECL => 56 | I_LANDINGPAD => 57
  | I_RESUME => 58 | I_CLEANUP => 59 | I_CATCH => 60 | I_BARRIER => 61
  | I_ATOMICRMW => 62 | I_CMPXCHG => 63 | I_FENCE => 64 | I_PICALL => 65
  | I_INDBR => 66 | I_FILTER => 67
  end%nat.

Definition instr_eqb (a b : LL_InstrName) : bool :=
  Nat.eqb (instr_index a) (instr_index b).

(** [llvm_instr_names]: the keyword printed for each instruction name. *)
Definition llvm_instr_names (i : LL_InstrName) : string :=
  match i with
  | I_NONE => "none" | I_RET => "ret" | I_BR => "br" | I_SW => "switch"
  | I_INVOKE => "invoke" | I_UNWIND => "unwind" | I_UNREACH => "unreachable"
  | I_ADD => "add nsw" | I_FADD => "fadd" | I_SUB => "sub nsw"
  | I_FSUB => "fsub" | I_MUL => "mul nsw" | I_FMUL => "fmul"
  | I_UDIV => "udiv" | I_SDIV => "sdiv" | I_FDIV => "fdiv" | I_UREM => "urem"
  | I_SREM => "srem" | I_FREM => "frem" | I_SHL => "shl nsw"
  | I_LSHR => "lshr" | I_ASHR => "ashr" | I_AND => "and" | I_OR => "or"
  | I_XOR => "xor" | I_EXTELE => "extractelement"
  | I_INSELE => "insertelement" | I_SHUFFVEC => "shufflevector"
  | I_EXTRACTVAL => "extractvalue" | I_INSERTVAL => "insertvalue"
  | I_MALLOC => "malloc" | I_FREE => "free" | I_ALLOCA => "alloca"
  | I_LOAD => "load" | I_STORE => "store" | I_GEP => "getelementptr"
  | I_TRUNC => "trunc" | I_ZEXT => "zext" | I_SEXT => "sext"
  | I_FPTRUNC => "fptrunc" | I_FPEXT => "fpext" | I_FPTOUI => "fptoui"
  | I_FPTOSI => "fptosi" | I_UITOFP => "uitofp" | I_SITOFP => "sitofp"
  | I_PTRTOINT => "ptrtoint" | I_INTTOPTR => "inttoptr"
  | I_BITCAST => "bitcast" | I_ICMP => "icmp" | I_FCMP => "fcmp"
  | I_VICMP => "vicmp" | I_VFCMP => "vfcmp" | I_PHI => "phi"
  | I_SELECT => "select" | I_CALL => "call" | I_VA_ARG => "va_arg"
  | I_DECL => "=" | I_LANDINGPAD => "landingpad" | I_RESUME => "resume"
  | I_CLEANUP => "cleanup" | I_CATCH => "catch" | I_BARRIER => "fence"
  | I_ATOMICRMW => "atomicrmw" | I_CMPXCHG => "cmpxchg" | I_FENCE => "fence"
  | I_PICALL => "call" | I_INDBR => "indirectbr" | I_FILTER => "filter"
  end.

(** ** The data model *)

(** Kinds of operand ([OperandType]). *)
Inductive OperandType : Type :=
  | OT_NONE | OT_CONSTSPTR | OT_VAR | OT_TMP | OT_LABEL | OT_CC | OT_TARGET
  | OT_CALL | OT_CONSTVAL | OT_UNDEF | OT_MDNODE.

Definition ot_eqb (a b : OperandType) : bool :=
  match a, b with
  | OT_NONE, OT_NONE | OT_CONSTSPTR, OT_CONSTSPTR | OT_VAR, OT_VAR
  | OT_TMP, OT_TMP | OT_LABEL, OT_LABEL | OT_CC, OT_CC
  | OT_TARGET, OT_TARGET | OT_CALL, OT_CALL | OT_CONSTVAL, OT_CONSTVAL
  | OT_UNDEF, OT_UNDEF | OT_MDNODE, OT_MDNODE => true
  | _, _ => false
  end.

(** The scalar and composite kinds of a target type ([LL_BaseDataType]),
    as far as cgmain.c names them. *)
Inductive LL_BaseDataType : Type :=
  | LL_NOTYPE | LL_VOID | LL_I1 | LL_I8 | LL_I16 | LL_I24 | LL_I32 | LL_I40
  | LL_I48 | LL_I56 | LL_I64 | LL_I128 | LL_I256 | LL_FLOAT | LL_DOUBLE
  | LL_PPC_FP128 | LL_PTR | LL_ARRAY | LL_VECTOR | LL_STRUCT | LL_FUNCTION.

(** A target type is a tree: [sub_types] of a pointer is the pointee, of a
    vector the element type, of a function the return type followed by the
    parameter types. *)
Inductive LL_Type : Type :=
  | LLT (data_type : LL_BaseDataType) (str : string)
        (sub_types : list LL_Type) (sub_elements : Z).

Definition data_type (t : LL_Type) : LL_BaseDataType :=
  match t with LLT d _ _ _ => d end.
Definition str (t : LL_Type) : string :=
  match t with LLT _ s _ _ => s end.
Definition sub_types (t : LL_Type) : list LL_Type :=
  match t with LLT _ _ l _ => l end.
Definition sub_elements (t : LL_Type) : Z :=
  match t with LLT _ _ _ n => n end.

(** A temporary ([TMPS *]) is the address of its object; the object's
    [use_count] and [info.idef] live in the state. *)
Definition TMPS := nat.

(** [OPERAND]: the [next] pointer is the tail of the list the operand is
    in; the members of the [val] union that cgmain.c reads are kept
    apart. *)
Record OPERAND : Type := mkOPERAND {
  ot_type : OperandType;
  op_tmps : option TMPS;
  op_ll_type : option LL_Type;
  val_sptr : Z;
  val_cc : Z;
  val_conval : Z * Z;
  op_string : option string;
  op_flags : Z
}.

(** [INSTR_LIST]: [prev] and [next] are the position in the list
    [Instructions]; [iid] is the address of the object. *)
Record INSTR_LIST : Type := mkINSTR {
  iid : nat;
  i_rank : Z;
  i_name : LL_InstrName;
  i_ilix : Z;
  i_flags : Z;
  i_tmps : option TMPS;
  i_ll_type : option LL_Type;
  i_operands : list OPERAND;
  i_dbg_line_op : Z;
  i_traceComment : option string
}.

(** [CSED_ITEM]: an entry of the common-subexpression list. *)
Record CSED_ITEM : Type := mkCSED {
  csed_ilix : Z;
  csed_item_operand : option OPERAND   (* [csed->operand] *)
}.

(** The file-static state of cgmain.c that the modelled functions use. *)
Record cg_state : Type := mkState {
  Instructions : list INSTR_LIST   (* [llvm_info.last_instr] is its last element *);
  use_count : gmap TMPS Z   (* [tmps->use_count], 0 when absent *);
  idef : gmap TMPS nat   (* [tmps->info.idef], by [iid] *);
  next_tmps : TMPS   (* allocator of [make_tmps] *);
  next_iid : nat   (* allocator of [make_instr] *);
  csedList : list CSED_ITEM;
  ILI_COUNT : gmap Z Z   (* the ILI table's count field *);
  tempsMap : gmap Z TMPS;
  tempsMap_size : Z   (* [tempsMap.size] *);
  new_ebb : bool;
  killCSE : bool;
  last_stmt_is_branch : bool;
  curr_ret_dtype : Z   (* [llvm_info.curr_ret_dtype] *);
  llvm_return_ll_type : LL_Type   (* [llvm_info.return_ll_type] *);
  sret_sptr : Z   (* [ret_info.sret_sptr] *);
  declared_intrinsics : list (string * LL_Type)   (* [llvm_info.declared_intrinsics] *)
}.

Definition set_Instructions (x : list INSTR_LIST) (s : cg_state) : cg_state :=
  mkState x (use_count s) (idef s) (next_tmps s) (next_iid s) (csedList s)
    (ILI_COUNT s) (tempsMap s) (tempsMap_size s) (new_ebb s) (killCSE s)
    (last_stmt_is_branch s) (curr_ret_dtype s) (llvm_return_ll_type s)
    (sret_sptr s) (declared_intrinsics s).
Definition set_use_count (x : gmap TMPS Z) (s : cg_state) : cg_state :=
  mkState (Instructions s) x (idef s) (next_tmps s) (next_iid s) (csedList
    s) (ILI_COUNT s) (tempsMap s) (tempsMap_size s) (new_ebb s) (killCSE s)
    (last_stmt_is_branch s) (curr_ret_dtype s) (llvm_return_ll_type s)
    (sret_sptr s) (declared_intrinsics s).
Definition set_idef (x : gmap TMPS nat) (s : cg_state) : cg_state :=
  mkState (Instructions s) (use_count s) x (next_tmps s) (next_iid s)
    (csedList s) (ILI_COUNT s) (tempsMap s) (tempsMap_size s) (new_ebb s)
    (killCSE s) (last_stmt_is_branch s) (curr_ret_dtype s)
    (llvm_return_ll_type s) (sret_sptr s) (declared_intrinsics s).
Definition set_next_tmps (x : TMPS) (s : cg_state) : cg_state :=
  mkState (Instructions s) (use_count s) (idef s) x (next_iid s) (csedList
    s) (ILI_COUNT s) (tempsMap s) (tempsMap_size s) (new_ebb s) (killCSE s)
    (last_stmt_is_branch s) (curr_ret_dtype s) (llvm_return_ll_type s)
    (sret_sptr s) (declared_intrinsics s).
Definition set_next_iid (x : nat) (s : cg_state) : cg_state :=
  mkState (Instructions s) (use_count s) (idef s) (next_tmps s) x (csedList
    s) (ILI_COUNT s) (tempsMap s) (tempsMap_size s) (new_ebb s) (killCSE s)
    (last_stmt_is_branch s) (curr_ret_dtype s) (llvm_return_ll_type s)
    (sret_sptr s) (declared_intrinsics s).
Definition set_csedList (x : list CSED_ITEM) (s : cg_state) : cg_state :=
  mkState (Instructions s) (use_count s) (idef s) (next_tmps s) (next_iid s)
    x (ILI_COUNT s) (tempsMap s) (tempsMap_size s) (new_ebb s) (killCSE s)
    (last_stmt_is_branch s) (curr_ret_dtype s) (llvm_return_ll_type s)
    (sret_sptr s) (declared_intrinsics s).
Definition set_ILI_COUNT (x : gmap Z Z) (s : cg_state) : cg_state :=
  mkState (Instructions s) (use_count s) (idef s) (next_tmps s) (next_iid s)
    (csedList s) x (tempsMap s) (tempsMap_size s) (new_ebb s) (killCSE s)
    (last_stmt_is_branch s) (curr_ret_dtype s) (llvm_return_ll_type s)
    (sret_sptr s) (declared_intrinsics s).
Definition set_tempsMap (x : gmap Z TMPS) (s : cg_state) : cg_state :=
  mkState (Instructions s) (use_count s) (idef s) (next_tmps s) (next_iid s)
    (csedList s) (ILI_COUNT s) x (tempsMap_size s) (new_ebb s) (killCSE s)
    (last_stmt_is_branch s) (curr_ret_dtype s) (llvm_return_ll_type s)
    (sret_sptr s) (declared_intrinsics s).
Definition set_tempsMap_size (x : Z) (s : cg_state) : cg_state :=
  mkState (Instructions s) (use_count s) (idef s) (next_tmps s) (next_iid s)
    (csedList s) (ILI_COUNT s) (tempsMap s) x (new_ebb s) (killCSE s)
    (last_stmt_is_branch s) (curr_ret_dtype s) (llvm_return_ll_type s)
    (sret_sptr s) (declared_intrinsics s).
Definition set_new_ebb (x : bool) (s : cg_state) : cg_state :=
  mkState (Instructions s) (use_count s) (idef s) (next_tmps s) (next_iid s)
    (csedList s) (ILI_COUNT s) (tempsMap s) (tempsMap_size s) x (killCSE s)
    (last_stmt_is_branch s) (curr_ret_dtype s) (llvm_return_ll_type s)
    (sret_sptr s) (declared_intrinsics s).
Definition set_killCSE (x : bool) (s : cg_state) : cg_state :=
  mkState (Instructions s) (use_count s) (idef s) (next_tmps s) (next_iid s)
    (csedList s) (ILI_COUNT s) (tempsMap s) (tempsMap_size s) (new_ebb s) x
    (last_stmt_is_branch s) (curr_ret_dtype s) (llvm_return_ll_type s)
    (sret_sptr s) (declared_intrinsics s).
Definition set_last_stmt_is_branch (x : bool) (s : cg_state) : cg_state :=
  mkState (Instructions s) (use_count s) (idef s) (next_tmps s) (next_iid s)
    (csedList s) (ILI_COUNT s) (tempsMap s) (tempsMap_size s) (new_ebb s)
    (killCSE s) x (curr_ret_dtype s) (llvm_return_ll_type s) (sret_sptr s)
    (declared_intrinsics s).
Definition set_curr_ret_dtype (x : Z) (s : cg_state) : cg_state :=
  mkState (Instructions s) (use_count s) (idef s) (next_tmps s) (next_iid s)
    (csedList s) (ILI_COUNT s) (tempsMap s) (tempsMap_size s) (new_ebb s)
    (killCSE s) (last_stmt_is_branch s) x (llvm_return_ll_type s) (sret_sptr
    s) (declared_intrinsics s).
Definition set_llvm_return_ll_type (x : LL_Type) (s : cg_state) : cg_state :=
  mkState (Instructions s) (use_count s) (idef s) (next_tmps s) (next_iid s)
    (csedList s) (ILI_COUNT s) (tempsMap s) (tempsMap_size s) (new_ebb s)
    (killCSE s) (last_stmt_is_branch s) (curr_ret_dtype s) x (sret_sptr s)
    (declared_intrinsics s).
Definition set_sret_sptr (x : Z) (s : cg_state) : cg_state :=
  mkState (Instructions s) (use_count s) (idef s) (next_tmps s) (next_iid s)
    (csedList s) (ILI_COUNT s) (tempsMap s) (tempsMap_size s) (new_ebb s)
    (killCSE s) (last_stmt_is_branch s) (curr_ret_dtype s)
    (llvm_return_ll_type s) x (declared_intrinsics s).
Definition set_declared_intrinsics (x : list (string * LL_Type)) (s : cg_state) : cg_state :=
  mkState (Instructions s) (use_count s) (idef s) (next_tmps s) (next_iid s)
    (csedList s) (ILI_COUNT s) (tempsMap s) (tempsMap_size s) (new_ebb s)
    (killCSE s) (last_stmt_is_branch s) (curr_ret_dtype s)
    (llvm_return_ll_type s) (sret_sptr s) x.

(** ** The state and error monad *)

Definition M (A : Type) : Type := cg_state -> option (A * cg_state).

#[export] Instance M_ret : MRet M := fun A a s => Some (a, s).
#[export] Instance M_bind : MBind M := fun A B f m s =>
  match m s with
  | Some (a, s') => f a s'
  | None => None
  end.

Definition get : M cg_state := fun s => Some (s, s).
Definition modify (f : cg_state -> cg_state) : M unit := fun s => Some (tt, f s).
(** A null-pointer dereference or a fatal internal error. *)
Definition crash {A : Type} : M A := fun _ => None.
Definition of_option {A : Type} (o : option A) : M A :=
  match o with Some a => mret a | None => crash end.

(** [flags & mask] as a C truth value. *)
Definition tst (flags mask : Z) : bool := negb (Z.land flags mask =? 0).

(** ** Collaborators that are not part of cgmain.c

    The compiler options ([flg], read through [XBIT]), the bit layout of
    [LL_InstrListFlags] (llutil.h) and the debug-info subsystem are
    consulted through narrow interfaces; they are classes here, so every
    property below holds for any option setting and any bit layout that
    meets the stated side conditions. *)

Class Flags : Type := {
  flg_opt : Z;
  flg_ieee : bool;
  flg_debug : bool;
  flg_x : Z -> Z
}.

Definition XBIT `{Flags} (n m : Z) : bool := tst (flg_x n) m.

Class InstrFlags : Type := {
  DELETABLE : Z;
  STARTEBB : Z;
  CANCEL_CALL_DBG_VALUE : Z;
  VOLATILE_FLAG : Z;
  CALL_INTRINSIC_FLAG : Z;
  CALL_FUNC_PTR_FLAG : Z;
  NOUNWIND_CALL_FLAG : Z;
  FAST_MATH_FLAG : Z;
  FAST_CALL : Z;
  CALLCONV_SHIFT : Z;
  ATOMIC_MEM_ORD_FLAGS : Z;
  ATOMIC_MONOTONIC_FLAG : Z;
  ATOMIC_ACQUIRE_FLAG : Z;
  ATOMIC_RELEASE_FLAG : Z;
  ATOMIC_ACQ_REL_FLAG : Z;
  ATOMIC_SEQ_CST_FLAG : Z;
  ATOMIC_SINGLETHREAD_FLAG : Z;
  ATOMIC_RMW_OP_FLAGS : Z;
  ATOMIC_SUB_FLAG : Z;
  ATOMIC_ADD_FLAG : Z;
  ATOMIC_XCHG_FLAG : Z;
  ATOMIC_UMIN_FLAG : Z;
  ATOMIC_MIN_FLAG : Z;
  ATOMIC_UMAX_FLAG : Z;
  ATOMIC_MAX_FLAG : Z;
  ATOMIC_AND_FLAG : Z;
  ATOMIC_OR_FLAG : Z;
  ATOMIC_XOR_FLAG : Z
}.

Class DebugInfo : Type := {
  lldbg_get_line : Z
}.

(** ** Operands

    Modelled from the spec: the operand constructors of ll_util
    ([make_operand], [make_tmp_op], [make_undef_op], [make_constval32_op],
    [make_label_op], [make_target_op], [gen_copy_op]) are missing from the
    sources at hand.  The specification's data model has an operand as a
    tagged variant over temporary reference, named storage, constant,
    label and condition code that carries a target type and optional
    flags, and has a cached operand "copied, not shared": a constructor
    sets the tag and the members it is given and leaves the rest zero, and
    a copy has the members of the original and no successor. *)

Definition make_operand : OPERAND :=
  mkOPERAND OT_NONE None None 0 0 (0, 0) None 0.

Definition make_tmp_op (ll_type : option LL_Type) (tmps : option TMPS) : OPERAND :=
  mkOPERAND OT_TMP tmps ll_type 0 0 (0, 0) None 0.

Definition make_undef_op (ll_type : option LL_Type) : OPERAND :=
  mkOPERAND OT_UNDEF None ll_type 0 0 (0, 0) None 0.

Definition make_constval32_op (i32 : option LL_Type) (idx : Z) : OPERAND :=
  mkOPERAND OT_CONSTVAL None i32 0 0 (idx, 0) None 0.

Definition make_label_op (sptr : Z) : OPERAND :=
  mkOPERAND OT_LABEL None None sptr 0 (0, 0) None 0.

Definition make_target_op (sptr : Z) : OPERAND :=
  mkOPERAND OT_TARGET None None sptr 0 (0, 0) None 0.

Definition gen_copy_op (op : OPERAND) : OPERAND := op.

Definition set_op_flags (f : Z) (o : OPERAND) : OPERAND :=
  mkOPERAND (ot_type o) (op_tmps o) (op_ll_type o) (val_sptr o) (val_cc o)
    (val_conval o) (op_string o) f.
Definition set_op_ll_type (t : option LL_Type) (o : OPERAND) : OPERAND :=
  mkOPERAND (ot_type o) (op_tmps o) t (val_sptr o) (val_cc o)
    (val_conval o) (op_string o) (op_flags o).

Definition set_i_ilix (x : Z) (i : INSTR_LIST) : INSTR_LIST :=
  mkINSTR (iid i) (i_rank i) (i_name i) x (i_flags i) (i_tmps i)
    (i_ll_type i) (i_operands i) (i_dbg_line_op i) (i_traceComment i).
Definition set_i_flags (f : Z) (i : INSTR_LIST) : INSTR_LIST :=
  mkINSTR (iid i) (i_rank i) (i_name i) (i_ilix i) f (i_tmps i)
    (i_ll_type i) (i_operands i) (i_dbg_line_op i) (i_traceComment i).
Definition set_i_tmps (t : option TMPS) (i : INSTR_LIST) : INSTR_LIST :=
  mkINSTR (iid i) (i_rank i) (i_name i) (i_ilix i) (i_flags i) t
    (i_ll_type i) (i_operands i) (i_dbg_line_op i) (i_traceComment i).
Definition set_i_ll_type (t : option LL_Type) (i : INSTR_LIST) : INSTR_LIST :=
  mkINSTR (iid i) (i_rank i) (i_name i) (i_ilix i) (i_flags i) (i_tmps i)
    t (i_operands i) (i_dbg_line_op i) (i_traceComment i).
Definition set_i_operands (o : list OPERAND) (i : INSTR_LIST) : INSTR_LIST :=
  mkINSTR (iid i) (i_rank i) (i_name i) (i_ilix i) (i_flags i) (i_tmps i)
    (i_ll_type i) o (i_dbg_line_op i) (i_traceComment i).

(** [tmps->use_count] of a temporary. *)
Definition usect (s : cg_state) (t : TMPS) : Z := default 0 (use_count s !! t).

Definition add_use_count (t : TMPS) (d : Z) (s : cg_state) : cg_state :=
  set_use_count (<[t := usect s t + d]> (use_count s)) s.

(** ** Building the instruction list *)

Section Core.
Context `{Flags} `{InstrFlags} `{DebugInfo}.

Definition ENABLE_CSE_OPT (s : cg_state) : bool :=
  (1 <=? flg_opt) && negb (XBIT 183 0x20) && negb (killCSE s).
Definition ENABLE_BLK_OPT : bool := (2 <=? flg_opt) && XBIT 183 0x400.
Definition ENABLE_ENHANCED_CSE_OPT : bool :=
  (2 <=? flg_opt) && negb (XBIT 183 0x200000).

(** [make_tmps] (ll_util): a new [TMPS] object, zeroed. *)
Definition make_tmps : M TMPS := fun s =>
  Some (next_tmps s, set_next_tmps (S (next_tmps s)) s).

Definition make_instr (instr_name : LL_InstrName) : M INSTR_LIST := fun s =>
  let dbg :=
    if flg_debug || XBIT 120 0x1000 then
      match instr_name with
      | I_NONE | I_DECL | I_CLEANUP | I_CATCH => 0
      | _ => lldbg_get_line
      end
    else 0 in
  Some (mkINSTR (next_iid s) 0 instr_name 0 0 None None [] dbg None,
        set_next_iid (S (next_iid s)) s).

Definition gen_instr (instr_name : LL_InstrName) (tmps : option TMPS)
    (ll_type : option LL_Type) (operands : list OPERAND) : M INSTR_LIST :=
  iptr ← make_instr instr_name;
  match tmps with
  | Some t => modify (fun s => set_idef (<[t := iid iptr]> (idef s)) s)
  | None => mret tt
  end;;
  mret (set_i_operands operands (set_i_ll_type ll_type (set_i_tmps tmps iptr))).

(** The loop of [ad_instr] over the operands: every temporary operand
    counts one more use. *)
Fixpoint count_operand_uses (operands : list OPERAND) : M unit :=
  match operands with
  | [] => mret tt
  | operand :: next =>
      (if ot_eqb (ot_type operand) OT_TMP then
         match op_tmps operand with
         | Some t => modify (add_use_count t 1)
         | None => crash
         end
       else mret tt);;
      count_operand_uses next
  end.

Definition ad_instr (ilix : Z) (instr : INSTR_LIST) : M unit :=
  let instr := set_i_ilix ilix instr in
  count_operand_uses (i_operands instr);;
  s ← get;
  let instr :=
    if new_ebb s then set_i_flags (Z.lor (i_flags instr) STARTEBB) instr
    else instr in
  modify (fun s => set_new_ebb false
                     (set_Instructions (Instructions s ++ [instr]) s)).

Definition same_op (op1 op2 : OPERAND) : bool :=
  if negb (ot_eqb (ot_type op1) (ot_type op2)) then false
  else match ot_type op1 with
       | OT_TMP => bool_decide (op_tmps op1 = op_tmps op2)
       | OT_VAR => val_sptr op1 =? val_sptr op2
       | OT_CONSTVAL =>
           (fst (val_conval op1) =? fst (val_conval op2)) &&
           (snd (val_conval op1) =? snd (val_conval op2))
       | _ => false
       end.

(** The inner loop of [ad_csed_instr]: both operand lists end together and
    agree pairwise. *)
Fixpoint same_operands (operand new_op : list OPERAND) : bool :=
  match operand, new_op with
  | [], [] => true
  | o :: operand', n :: new_op' =>
      if same_op o n then same_operands operand' new_op' else false
  | _, _ => false
  end.

(** The outer loop of [ad_csed_instr], from [llvm_info.last_instr] along
    [prev]: [rev_instrs] is the list in that order. *)
Fixpoint find_csed_instr (rev_instrs : list INSTR_LIST)
    (instr_name : LL_InstrName) (operands : list OPERAND) : option INSTR_LIST :=
  match rev_instrs with
  | [] => None
  | instr :: prev =>
      if instr_eqb (i_name instr) instr_name
         && same_operands (i_operands instr) operands
      then Some instr
      else
        match i_name instr with
        | I_SW | I_INVOKE | I_CALL => None
        | I_BR | I_INDBR | I_NONE =>
            if negb ENABLE_ENHANCED_CSE_OPT then None
            else if tst (i_flags instr) STARTEBB then None
            else find_csed_instr prev instr_name operands
        | _ =>
            if tst (i_flags instr) STARTEBB then None
            else find_csed_instr prev instr_name operands
        end
  end.

Definition ad_csed_instr (instr_name : LL_InstrName) (ilix : Z)
    (ll_type : option LL_Type) (operands : list OPERAND) (flags : Z)
    (do_cse : bool) : M OPERAND :=
  s ← get;
  match (if do_cse && ENABLE_CSE_OPT s && negb (new_ebb s)
         then find_csed_instr (rev (Instructions s)) instr_name operands
         else None) with
  | Some instr => mret (make_tmp_op (i_ll_type instr) (i_tmps instr))
  | None =>
      t ← make_tmps;
      let operand := make_tmp_op ll_type (Some t) in
      instr ← gen_instr instr_name (op_tmps operand) ll_type operands;
      ad_instr ilix (set_i_flags flags instr);;
      mret operand
  end.

(** ** Dead-instruction elimination *)

(** The loop of [remove_instr] over the operands. *)
Fixpoint drop_operand_uses (operands : list OPERAND) : M unit :=
  match operands with
  | [] => mret tt
  | operand :: next =>
      (if ot_eqb (ot_type operand) OT_TMP then
         match op_tmps operand with
         | Some t => modify (add_use_count t (-1))
         | None => crash
         end
       else mret tt);;
      drop_operand_uses next
  end.

(** [remove_instr] unlinks the object [instr] (found by its address) and
    gives its operands' uses back; the [prev] it returns is the rest of
    the walk of the caller. *)
Definition remove_instr (instr : INSTR_LIST) (update_usect_only : bool) : M unit :=
  (if negb update_usect_only then
     modify (fun s => set_Instructions
               (filter (fun i => iid i <> iid instr) (Instructions s)) s)
   else mret tt);;
  drop_operand_uses (i_operands instr).

(** The [while] loop of [remove_dead_instrs]: [rev_instrs] is the list
    from [llvm_info.last_instr] along [prev]. *)
Fixpoint remove_dead_walk (rev_instrs : list INSTR_LIST) : M unit :=
  match rev_instrs with
  | [] => mret tt
  | instr :: prev =>
      s ← get;
      if instr_eqb (i_name instr) I_STORE && tst (i_flags instr) DELETABLE
      then remove_instr instr false;; remove_dead_walk prev
      else if (negb (instr_eqb (i_name instr) I_CALL)
               && negb (instr_eqb (i_name instr) I_INVOKE)
               && negb (instr_eqb (i_name instr) I_ATOMICRMW))
              && match i_tmps instr with
                 | Some t => usect s t <=? 0
                 | None => false
                 end
      then remove_instr instr false;; remove_dead_walk prev
      else remove_dead_walk prev
  end.

Definition remove_dead_instrs : M unit :=
  s ← get;
  remove_dead_walk (rev (Instructions s)).

End Core.

(** ** Well-formedness of an instruction list *)

(** A temporary operand names a [TMPS] object. *)
Definition operands_wf (operands : list OPERAND) : Prop :=
  Forall (fun op => ot_type op = OT_TMP -> is_Some (op_tmps op)) operands.

Definition instrs_wf (l : list INSTR_LIST) : Prop :=
  Forall (fun i => operands_wf (i_operands i)) l.

(** [i] has the temporary [t] among its operands. *)
Definition uses_tmp (i : INSTR_LIST) (t : TMPS) : Prop :=
  exists op, op ∈ i_operands i /\ ot_type op = OT_TMP /\ op_tmps op = Some t.

(** No instruction uses a temporary that it or a later instruction
    defines (the list is in single-assignment order). *)
Fixpoint defs_before_uses (l : list INSTR_LIST) : Prop :=
  match l with
  | [] => True
  | i :: rest =>
      (forall j t, j ∈ i :: rest -> i_tmps j = Some t -> ~ uses_tmp i t)
      /\ defs_before_uses rest
  end.

(** Instructions with externally observable effects, which
    [remove_dead_instrs] never removes for a dead result. *)
Definition is_call_like (i : INSTR_LIST) : bool :=
  instr_eqb (i_name i) I_CALL || instr_eqb (i_name i) I_INVOKE
  || instr_eqb (i_name i) I_ATOMICRMW.

Definition is_deletable_store `{InstrFlags} (i : INSTR_LIST) : bool :=
  instr_eqb (i_name i) I_STORE && tst (i_flags i) DELETABLE.

(** ** The intermediate language (read-only input)

    ILI opcodes that cgmain.c treats specially in the functions modelled
    below; [IL_OTHER] stands for every other opcode of the generated
    opcode table. *)

Inductive ILI_OP : Type :=
  | IL_NULL
  | IL_FADD | IL_FSUB | IL_FMUL | IL_FNEG
  | IL_DADD | IL_DSUB | IL_DMUL | IL_DNEG
  | IL_JSR | IL_JSRA | IL_QJSR | IL_GJSR | IL_GJSRA
  | IL_GARG | IL_GARGRET | IL_ARGAR | IL_ARGDP | IL_ARGIR | IL_ARGKR | IL_ARGSP
  | IL_DAAR | IL_DADP | IL_DAIR | IL_DAKR | IL_DASP
  | IL_CSE | IL_CSEKR | IL_CSEIR | IL_CSESP | IL_CSEDP | IL_CSEAR
  | IL_CSECS | IL_CSECD
  | IL_FREEKR | IL_DFRKR | IL_FREEIR | IL_DFRIR | IL_FREESP | IL_DFRSP
  | IL_FREEDP | IL_DFRDP | IL_DFR128 | IL_DFR256 | IL_FREEAR | IL_DFRAR
  | IL_FREECS | IL_DFRCS | IL_FREE
  | IL_UIMIN | IL_UKMIN | IL_IMIN | IL_KMIN | IL_FMIN | IL_DMIN
  | IL_UIMAX | IL_UKMAX | IL_IMAX | IL_KMAX | IL_FMAX | IL_DMAX
  | IL_VMIN | IL_VMAX
  | IL_SCMPLXMUL | IL_DCMPLXMUL
  | IL_ATOMICRMWI | IL_ATOMICRMWA | IL_ATOMICRMWKR | IL_ATOMICRMWSP
  | IL_ATOMICRMWDP
  | IL_ISELECT | IL_KSELECT | IL_ASELECT | IL_FSELECT | IL_DSELECT
  | IL_BCONCUR | IL_ECONCUR | IL_SMOVE | IL_LABEL | IL_DEALLOC | IL_NOP
  | IL_FENCE | IL_EXIT
  | IL_JMP | IL_JMPM | IL_JMPMK | IL_JMPA
  | IL_FCJMP | IL_FCJMPZ | IL_DCJMP | IL_DCJMPZ
  | IL_AADD | IL_ASUB | IL_ACON | IL_IAMV | IL_KAMV | IL_LDA
  | IL_LD | IL_ST | IL_STA | IL_VST | IL_VSTU | IL_STSCMPLX | IL_STDCMPLX
  | IL_AIMV | IL_AKMV | IL_ACEXT
  | IL_OTHER (code : Z).

(** [IL_TYPE]: the class of an opcode. *)
Inductive ILTY : Type :=
  | ILTY_NULL | ILTY_ARTH | ILTY_BRANCH | ILTY_CONS | ILTY_DEFINE | ILTY_LOAD
  | ILTY_MOVE | ILTY_OTHER | ILTY_PROC | ILTY_STORE.

(** atomic_common.h: memory orders, synchronization scopes and
    read-modify-write operations.  [MO_UNDEF] and [AOP_UNDEF] stand for
    the values that are none of the named ones. *)
Inductive MEMORY_ORDER : Type :=
  | MO_RELAXED | MO_CONSUME | MO_ACQUIRE | MO_RELEASE | MO_ACQ_REL
  | MO_SEQ_CST | MO_UNDEF.

Inductive SYNC_SCOPE : Type := SS_SINGLETHREAD | SS_PROCESS.

Inductive ATOMIC_RMW_OP : Type :=
  | AOP_XCHG | AOP_ADD | AOP_SUB | AOP_AND | AOP_OR | AOP_XOR | AOP_MIN
  | AOP_MAX | AOP_UNDEF.

Record ATOMIC_INFO : Type := mkATOMIC_INFO {
  ai_msz : Z;
  ai_op : ATOMIC_RMW_OP;
  ai_scope : SYNC_SCOPE
}.

(** The ILI table and the queries of ili.c / iliutil.c on it. *)
Class ILI : Type := {
  ILI_OPC : Z -> ILI_OP;
  ILI_OPND : Z -> Z -> Z;
  ILI_ALT : Z -> Z;
  IL_TYPE : ILI_OP -> ILTY;
  IL_ISLINK : ILI_OP -> Z -> bool;
  ilis_oprs : ILI_OP -> nat;
  is_mvili_opcode : ILI_OP -> bool;
  is_freeili_opcode : ILI_OP -> bool;
  is_cseili_opcode : ILI_OP -> bool;
  is_rgdfili_opcode : ILI_OP -> bool;
  IL_HAS_FENCE : ILI_OP -> bool;
  ad1ili : ILI_OP -> Z -> Z;
  memory_order : Z -> MEMORY_ORDER;
  atomic_info : Z -> ATOMIC_INFO;
  ili_get_vect_type : Z -> Z;
  ili_throw_label : Z -> Z;
  IL_RES_is_AR : ILI_OP -> bool;     (* ILIA_ISAR(IL_RES(opc)) *)
  NME_VOL : Z
}.

(** Kinds of source type ([TY_...]) that the modelled functions switch
    on; [TY_OTHER] is any other kind. *)
Inductive TY_KIND : Type :=
  | TY_INT | TY_UINT | TY_SINT | TY_USINT | TY_BINT | TY_FLOAT | TY_DBLE
  | TY_STRUCT | TY_UNION | TY_OTHER.

(** The symbol and data-type tables. [DTY] is the raw table access;
    [ty_kind] reads an entry as a [TY_...] value. *)
Class SymTab : Type := {
  DTY : Z -> Z;
  ty_kind : Z -> TY_KIND;
  DTYPEG : Z -> Z;
  DEFDG : Z -> bool;
  CCSYMG : Z -> bool;
  DT_ISUNSIGNED : Z -> bool;
  DT_ISINT : Z -> bool;
  zsize_of : Z -> Z;
  DT_NONE : Z;
  DT_INT : Z;
  DT_INT8 : Z;
  DT_FLOAT : Z;
  DT_DBLE : Z;
  DT_CMPLX : Z;
  DT_DCMPLX : Z;
  DT_CPTR : Z;
  DT_128 : Z;
  DT_256 : Z;
  DT_MAX : Z;
  has_multiple_entries_currsub : bool;   (* has_multiple_entries(gbl.currsub) *)
  gbl_arets : bool;
  currsub_fval_not_dummy : bool  (* FVALG(gbl.currsub) && SCG(FVALG(gbl.currsub)) != SC_DUMMY *)
}.

(** The Type Bridge (ll_structure.c, llutil.c). *)
Class TypeBridge : Type := {
  make_lltype_from_dtype : Z -> LL_Type;
  make_ptr_lltype : LL_Type -> LL_Type;
  make_int_lltype : Z -> LL_Type;
  make_void_lltype : LL_Type;
  make_type_from_msz : Z -> LL_Type;
  make_type_from_opc : ILI_OP -> LL_Type;
  ll_get_vector_type : LL_Type -> Z -> LL_Type;
  ll_create_function_type : list (option LL_Type) -> Z -> bool -> LL_Type;
  ldst_instr_flags_from_dtype : Z -> Z
}.

(** The build-time target architecture (exactly one of the
    [TARGET_LLVM_...] macros is defined). *)
Inductive TARGET : Type :=
  | TARGET_LLVM_X8664 | TARGET_LLVM_POWER | TARGET_LLVM_ARM | TARGET_GENERIC.

Class Target : Type := {
  target : TARGET;
  NEON_ENABLED : bool
}.

(** ** Atomic memory order *)

Section Atomics.
Context `{InstrFlags} `{ILI}.

(** An unimplemented memory order fails the (fatal) assertion. *)
Definition ll_instr_flags_from_memory_order (mo : MEMORY_ORDER) : option Z :=
  match mo with
  | MO_RELAXED => Some ATOMIC_MONOTONIC_FLAG
  | MO_CONSUME
    (* LLVM does not support "consume", so round up to acquire. *)
  | MO_ACQUIRE => Some ATOMIC_ACQUIRE_FLAG
  | MO_RELEASE => Some ATOMIC_RELEASE_FLAG
  | MO_ACQ_REL => Some ATOMIC_ACQ_REL_FLAG
  | MO_SEQ_CST => Some ATOMIC_SEQ_CST_FLAG
  | MO_UNDEF => None
  end.

Definition ll_instr_flags_for_memory_order_and_scope (ilix : Z) : option Z :=
  flags ← ll_instr_flags_from_memory_order (memory_order ilix);
  let info := atomic_info ilix in
  match ai_scope info with
  | SS_SINGLETHREAD => Some (Z.lor flags ATOMIC_SINGLETHREAD_FLAG)
  | _ => Some flags
  end.

Definition ll_instr_flags_from_aop (aop : ATOMIC_RMW_OP) : option Z :=
  match aop with
  | AOP_XCHG => Some ATOMIC_XCHG_FLAG
  | AOP_ADD => Some ATOMIC_ADD_FLAG
  | AOP_SUB => Some ATOMIC_SUB_FLAG
  | AOP_AND => Some ATOMIC_AND_FLAG
  | AOP_OR => Some ATOMIC_OR_FLAG
  | AOP_XOR => Some ATOMIC_XOR_FLAG
  | _ => None
  end.

(** The name tables of the printer.  The [default:] cases report an
    internal error and give the empty string; the second component is
    the error raised, if any. *)
Definition get_atomicrmw_opname (instr_flags : Z) : string * bool :=
  let f := Z.land instr_flags ATOMIC_RMW_OP_FLAGS in
  if f =? ATOMIC_SUB_FLAG then ("sub"%string, false)
  else if f =? ATOMIC_ADD_FLAG then ("add"%string, false)
  else if f =? ATOMIC_XCHG_FLAG then ("xchg"%string, false)
  else if f =? ATOMIC_UMIN_FLAG then ("umin"%string, false)
  else if f =? ATOMIC_MIN_FLAG then ("min"%string, false)
  else if f =? ATOMIC_UMAX_FLAG then ("umax"%string, false)
  else if f =? ATOMIC_MAX_FLAG then ("max"%string, false)
  else if f =? ATOMIC_AND_FLAG then ("and"%string, false)
  else if f =? ATOMIC_OR_FLAG then ("or"%string, false)
  else if f =? ATOMIC_XOR_FLAG then ("xor"%string, false)
  else (EmptyString, true).

Definition get_atomic_memory_order_name (instr_flags : Z) : string * bool :=
  let f := Z.land instr_flags ATOMIC_MEM_ORD_FLAGS in
  if f =? ATOMIC_MONOTONIC_FLAG then ("monotonic"%string, false)
  else if f =? ATOMIC_ACQUIRE_FLAG then ("acquire"%string, false)
  else if f =? ATOMIC_RELEASE_FLAG then ("release"%string, false)
  else if f =? ATOMIC_ACQ_REL_FLAG then ("acq_rel"%string, false)
  else if f =? ATOMIC_SEQ_CST_FLAG then ("seq_cst"%string, false)
  else (EmptyString, true).

End Atomics.

(** ** The instruction printer

    The output is the sequence of calls to the writer (ll_write.c and
    llutil.c): each constructor of [token] is one such call with its
    arguments.  [other_template] is the text of a per-opcode template
    that is not reproduced here (arithmetic, conversions, calls, loads and
    stores, ...); none of them touches the label bookkeeping. *)

Definition TAB : string := String "009"%char EmptyString.
Definition NL : string := String "010"%char EmptyString.

Inductive token : Type :=
  | print_token (s : string)
  | print_space (n : Z)
  | print_nl
  | print_tmp_name (t : option TMPS)
  | print_llvm_name (sptr : Z)            (* print_token(get_llvm_name(sptr)) *)
  | print_dead_label (counter : Z)        (* the buffer "L.dead%u:\n" *)
  | write_type (ty : LL_Type)
  | write_operand (p : OPERAND) (punc : string) (flags : Z)
  | write_operands (p : list OPERAND) (flags : Z)
  | store_return_value_for_entry (p : OPERAND) (i_name : LL_InstrName)
  | print_dbg_line (md : Z)
  | other_template (instrs : INSTR_LIST).

(** Classification macros of llutil.h and writer constants. *)
Class PrinterExt : Type := {
  BINOP : LL_InstrName -> bool;
  BITOP : LL_InstrName -> bool;
  CONVERT : LL_InstrName -> bool;
  INSTR_IS_BRANCH : INSTR_LIST -> bool;
  FLG_OMIT_OP_TYPE : Z;
  FROM_CMPXCHG_MEMORDER_FAIL : Z -> Z;
  other_dbg_line_written : INSTR_LIST -> bool;
  extend_abi_return : bool            (* llvm_info.abi_info->extend_abi_return *)
}.

(** The variables that [write_instructions] carries from one instruction
    to the next. *)
Record wr_state : Type := mkWr {
  forceLabel : bool;
  dead_counter : Z;                   (* the static [counter] *)
  return_ll_type : LL_Type            (* llvm_info.return_ll_type *)
}.

Section Printer.
Context `{InstrFlags} `{ILI} `{SymTab} `{TypeBridge} `{PrinterExt}.

(** [next] is [insn->next]. *)
Definition dont_force_a_dummy_label (insn : INSTR_LIST)
    (next : option INSTR_LIST) : bool :=
  if instr_eqb (i_name insn) I_NONE then true
  else if instr_eqb (i_name insn) I_BR
          && match next with
             | Some n => instr_eqb (i_name n) I_NONE
             | None => false
             end
  then true
  else false.

Definition write_memory_order (instrs : INSTR_LIST) : list token :=
  (if tst (i_flags instrs) ATOMIC_SINGLETHREAD_FLAG
   then [print_token " singlethread"] else [])
  ++ [print_space 1;
      print_token (fst (get_atomic_memory_order_name (i_flags instrs)))].

(** The value printed after [ret <type>] when a label ends the routine. *)
Definition zero_value_tokens (rt : LL_Type) : list token :=
  match data_type rt with
  | LL_VOID => []
  | LL_PTR => [print_token " null"]
  | LL_I1 | LL_I8 | LL_I16 | LL_I24 | LL_I32 | LL_I40 | LL_I48 | LL_I56
  | LL_I64 | LL_I128 | LL_I256 => [print_token " 0"]
  | LL_DOUBLE | LL_FLOAT => [print_token " 0.0"]
  | LL_PPC_FP128 => [print_token " 0xM00000000000000000000000000000000"]
  | _ => [print_token " zeroinitializer"]
  end.

(** The operand pairs of a switch, after the selector and the default. *)
Fixpoint write_switch_cases (p1 : list OPERAND) : list token :=
  match p1 with
  | [] => []
  | a :: [] => [write_operand a ", " 0]
  | a :: b :: rest =>
      write_operand a ", " 0
      :: write_operand b (NL ++ TAB ++ TAB)%string 0
      :: write_switch_cases rest
  end.

(** One turn of the loop of [write_instructions]: [prev] and [next] are
    the neighbours of [instrs] in the list.  The result is the text
    written and the variables carried on; [None] is a crash or a fatal
    assertion. *)
Definition write_instruction (prev next : option INSTR_LIST)
    (instrs : INSTR_LIST) (w : wr_state) : option (list token * wr_state) :=
  let iname := i_name instrs in
  let w := if dont_force_a_dummy_label instrs next
           then mkWr false (dead_counter w) (return_ll_type w) else w in
  let '(dead, w) :=
    if forceLabel w
    then ([print_dead_label (dead_counter w)],
          mkWr false (dead_counter w + 1) (return_ll_type w))
    else ([], w) in
  let finish (body : list token) (written : bool) (w : wr_state) :=
    Some (dead ++ body
            ++ (if negb (i_dbg_line_op instrs =? 0) && negb written
                then [print_dbg_line (i_dbg_line_op instrs)] else [])
            ++ match i_traceComment instrs with
               | Some c => [print_token (TAB ++ TAB ++ ";) ")%string; print_token c]
               | None => []
               end
            ++ [print_nl], w) in
  if tst (i_flags instrs) CANCEL_CALL_DBG_VALUE then Some (dead, w)
  else if BINOP iname || BITOP iname then
    finish [other_template instrs] (other_dbg_line_written instrs) w
  else if CONVERT iname then
    finish [other_template instrs] (other_dbg_line_written instrs) w
  else
    match iname with
    | I_NONE => (* should be a label *)
        let w := mkWr false (dead_counter w) (return_ll_type w) in
        match i_operands instrs with
        | [] => None
        | label :: _ =>
            let sptr := val_sptr label in
            if bool_decide (prev = None) && (sptr =? 0) then
              (* entry label we just ignore it *)
              finish [] false w
            else if sptr =? 0 then None
            else
              let branch :=
                (* every label must be immediately preceded by a branch *)
                if match prev with
                   | None => true
                   | Some p => negb (INSTR_IS_BRANCH p)
                   end
                then [print_token TAB; print_token (llvm_instr_names I_BR);
                      print_token " label %L"; print_llvm_name sptr; print_nl]
                else [] in
              match next with
              | Some _ => finish (branch ++ [write_operand label EmptyString 0]) false w
              | None =>
                  (* a label that is the last instruction needs a return *)
                  let rt :=
                    if has_multiple_entries_currsub then
                      if gbl_arets then make_lltype_from_dtype DT_INT
                      else make_lltype_from_dtype DT_NONE
                    else return_ll_type w in
                  let w := mkWr (forceLabel w) (dead_counter w) rt in
                  finish (branch ++ [write_operand label EmptyString 0]
                            ++ [print_nl; print_token TAB;
                                print_token (llvm_instr_names I_RET);
                                print_space 1;
                                write_type (if extend_abi_return
                                            then make_lltype_from_dtype DT_INT
                                            else rt)]
                            ++ zero_value_tokens rt) false w
              end
        end
    | I_SW =>
        let w := mkWr true (dead_counter w) (return_ll_type w) in
        match i_operands instrs with
        | p :: pnext :: p1 =>
            finish ([print_token TAB; print_token (llvm_instr_names iname);
                     print_space 1; write_operand p ", " 0;
                     write_operand pnext ("[" ++ NL ++ TAB ++ TAB)%string 0]
                      ++ write_switch_cases p1 ++ [print_token "]"]) false w
        | _ => None
        end
    | I_RET =>
        let w := mkWr true (dead_counter w) (return_ll_type w) in
        match i_operands instrs with
        | [] => None
        | p :: _ =>
            if has_multiple_entries_currsub && currsub_fval_not_dummy then
              finish [store_return_value_for_entry p iname] false w
            else
              let head :=
                [print_token TAB; print_token (llvm_instr_names iname);
                 print_space 1;
                 write_type (if extend_abi_return
                             then make_lltype_from_dtype DT_INT
                             else return_ll_type w)] in
              if ot_eqb (ot_type p) OT_NONE then finish head false w
              else
                match op_ll_type p with
                | None => None
                | Some ty =>
                    match data_type ty with
                    | LL_VOID => finish head false w
                    | _ => finish (head ++ [print_space 1;
                                            write_operand p EmptyString
                                              FLG_OMIT_OP_TYPE]) false w
                    end
                end
        end
    | I_BR =>
        if match prev with
           | None => true
           | Some p =>
               negb (instr_eqb (i_name p) I_RET)
               && negb (instr_eqb (i_name p) I_RESUME)
               && negb (instr_eqb (i_name p) I_BR)
           end
        then
          finish [print_token TAB; print_token (llvm_instr_names iname);
                  print_space 1; write_operands (i_operands instrs) 0]
            false (mkWr true (dead_counter w) (return_ll_type w))
        else finish [] false w
    | I_INDBR =>
        finish [print_token TAB; print_token (llvm_instr_names iname);
                print_space 1; write_operands (i_operands instrs) 0]
          false (mkWr true (dead_counter w) (return_ll_type w))
    | I_DECL => finish [] false w
    | I_CLEANUP =>
        finish [print_token TAB; print_token (llvm_instr_names I_CLEANUP)] false w
    | I_BARRIER =>
        finish [print_token TAB; print_token (llvm_instr_names iname);
                print_space 1; print_token "acq_rel"] false w
    | I_ATOMICRMW =>
        finish ([print_token TAB; print_tmp_name (i_tmps instrs);
                 print_token " = "; print_token (llvm_instr_names iname);
                 print_space 1;
                 print_token (fst (get_atomicrmw_opname (i_flags instrs)));
                 print_space 1; write_operands (i_operands instrs) 0]
                  ++ write_memory_order instrs) false w
    | I_CMPXCHG =>
        finish [print_token TAB; print_tmp_name (i_tmps instrs);
                print_token " = "; print_token (llvm_instr_names iname);
                print_space 1; write_operands (i_operands instrs) 0;
                print_token (fst (get_atomic_memory_order_name (i_flags instrs)));
                print_space 1;
                print_token (fst (get_atomic_memory_order_name
                                    (FROM_CMPXCHG_MEMORDER_FAIL (i_flags instrs))))]
          false w
    | I_FENCE =>
        finish ([print_token TAB; print_token (llvm_instr_names iname)]
                  ++ write_memory_order instrs) false w
    | I_UNREACH =>
        finish [print_token TAB; print_token (llvm_instr_names iname)] false w
    | _ => finish [other_template instrs] (other_dbg_line_written instrs) w
    end.

(** The loop of [write_instructions] over the list, [prev] being the
    instruction before the first of [l]. *)
Fixpoint write_instructions_from (prev : option INSTR_LIST)
    (l : list INSTR_LIST) (w : wr_state) : option (list token * wr_state) :=
  match l with
  | [] => Some ([], w)
  | instrs :: rest =>
      '(out, w) ← write_instruction prev (head rest) instrs w;
      '(out', w) ← write_instructions_from (Some instrs) rest w;
      Some (out ++ out', w)
  end.

Definition write_instructions (s : cg_state) (counter : Z)
    (return_ll_type : LL_Type) : option (list token * wr_state) :=
  write_instructions_from None (Instructions s)
    (mkWr true counter return_ll_type).

End Printer.

(** ** The common-subexpression list *)

Definition ili_count (s : cg_state) (ilix : Z) : Z :=
  default 0 (ILI_COUNT s !! ilix).

Definition set_ili_count (ilix n : Z) (s : cg_state) : cg_state :=
  set_ILI_COUNT (<[ilix := n]> (ILI_COUNT s)) s.

(** [&csed->operand] of an entry is named by the entry's [ilix]: entries
    are never removed and [add_to_cselist] adds no second entry for an
    [ilix], so the first entry with a given [ilix] stays the first. *)
Definition csed_ptr := Z.

Fixpoint csed_lookup (l : list CSED_ITEM) (ilix : Z) : option CSED_ITEM :=
  match l with
  | [] => None
  | csed :: next =>
      if ilix =? csed_ilix csed then Some csed else csed_lookup next ilix
  end.

Fixpoint csed_store (l : list CSED_ITEM) (ilix : Z) (op : option OPERAND)
    : list CSED_ITEM :=
  match l with
  | [] => []
  | csed :: next =>
      if ilix =? csed_ilix csed then mkCSED (csed_ilix csed) op :: next
      else csed :: csed_store next ilix op
  end.

Section CseList.
Context `{ILI}.

(** [if (ILI_ALT(ilix)) ilix = ILI_ALT(ilix);] *)
Definition prefer_alt (ilix : Z) : Z :=
  if ILI_ALT ilix =? 0 then ilix else ILI_ALT ilix.

(** The operands of [ilix] that are links to other ILI, in order
    ([for (i = 1; i <= noprs; ++i) if (IL_ISLINK(opc, i)) ...]). *)
Definition link_operands (ilix : Z) : list Z :=
  let opc := ILI_OPC ilix in
  omap (fun i : nat => if IL_ISLINK opc (Z.of_nat i)
                       then Some (ILI_OPND ilix (Z.of_nat i)) else None)
       (seq 1 (ilis_oprs opc)).

Fixpoint mapM_ {A : Type} (f : A -> M unit) (l : list A) : M unit :=
  match l with
  | [] => mret tt
  | a :: l' => f a;; mapM_ f l'
  end.

(** [add_to_cselist], with the call back into [build_csed_list] as a
    parameter; the result is 1 when the entry was there already. *)
Definition add_to_cselist_with (build_csed_list : Z -> M unit) (ilix : Z) : M Z :=
  let ilix := prefer_alt ilix in
  s ← get;
  match csed_lookup (csedList s) ilix with
  | Some _ => mret 1
  | None =>
      modify (fun s => set_csedList (mkCSED ilix None :: csedList s) s);;
      build_csed_list ilix;;
      mret 0
  end.

(** [build_csed_list] walks the ILI below a statement; [fuel] bounds the
    depth of the walk (the ILI form a finite DAG). *)
Fixpoint build_csed_list (fuel : nat) (ilix : Z) : M unit :=
  match fuel with
  | O => crash
  | S fuel' =>
      let opc := ILI_OPC ilix in
      present ← (if is_cseili_opcode opc
                 then add_to_cselist_with (build_csed_list fuel')
                        (prefer_alt (ILI_OPND ilix 1))
                 else mret 0);
      if negb (present =? 0) then mret tt
      else mapM_ (build_csed_list fuel') (link_operands ilix)
  end.

Definition add_to_cselist (fuel : nat) (ilix : Z) : M Z :=
  add_to_cselist_with (build_csed_list fuel) ilix.

Definition set_csed_operand (csed_operand : csed_ptr) (operand : OPERAND) : M unit :=
  let new_op :=
    match op_tmps operand with
    | Some _ => make_tmp_op (op_ll_type operand) (op_tmps operand)
    | None => operand
    end in
  modify (fun s => set_csedList (csed_store (csedList s) csed_operand (Some new_op)) s).

Definition clear_csed_list : M unit :=
  modify (fun s =>
    set_csedList (map (fun csed => mkCSED (csed_ilix csed) None) (csedList s))
      (foldr (fun csed s => set_ili_count (csed_ilix csed) 0 s) s (csedList s))).

(** The loop of [remove_from_csed_list] over the list: it leaves the
    function at the first entry when [ili] is a CSE opcode.  The result
    tells whether the function returned from inside the loop. *)
Fixpoint remove_from_csed_entries (ili : Z) (l : list CSED_ITEM)
    : list CSED_ITEM * bool * bool :=
  match l with
  | [] => ([], false, false)
  | csed :: next =>
      if is_cseili_opcode (ILI_OPC ili) then (l, true, false)
      else
        let '(next', returned, hit) := remove_from_csed_entries ili next in
        if ili =? csed_ilix csed
        then (mkCSED (csed_ilix csed) None :: next', returned, true)
        else (csed :: next', returned, hit)
  end.

Fixpoint remove_from_csed_list (fuel : nat) (ili : Z) : M unit :=
  match fuel with
  | O => crash
  | S fuel' =>
      s ← get;
      let '(l, returned, hit) := remove_from_csed_entries ili (csedList s) in
      modify (fun s => set_csedList l (if hit then set_ili_count ili 0 s else s));;
      if returned then mret tt
      else mapM_ (remove_from_csed_list fuel') (link_operands ili)
  end.

Definition get_csed_operand (ilix : Z) : M (option csed_ptr) :=
  let ilix := prefer_alt ilix in
  s ← get;
  match csed_lookup (csedList s) ilix with
  | Some _ => mret (Some ilix)
  | None => mret None
  end.

(** [*csed_operand] *)
Definition csed_deref (csed_operand : csed_ptr) : M (option OPERAND) :=
  s ← get;
  match csed_lookup (csedList s) csed_operand with
  | Some csed => mret (csed_item_operand csed)
  | None => crash
  end.

End CseList.

(** ** Interned types

    The Type Bridge interns target types, so the pointer comparisons of
    the C code on [LL_Type *] are structural comparisons. *)

Definition LL_BaseDataType_eqb (a b : LL_BaseDataType) : bool :=
  match a, b with
  | LL_NOTYPE, LL_NOTYPE | LL_VOID, LL_VOID | LL_I1, LL_I1 | LL_I8, LL_I8
  | LL_I16, LL_I16 | LL_I24, LL_I24 | LL_I32, LL_I32 | LL_I40, LL_I40
  | LL_I48, LL_I48 | LL_I56, LL_I56 | LL_I64, LL_I64 | LL_I128, LL_I128
  | LL_I256, LL_I256 | LL_FLOAT, LL_FLOAT | LL_DOUBLE, LL_DOUBLE
  | LL_PPC_FP128, LL_PPC_FP128 | LL_PTR, LL_PTR | LL_ARRAY, LL_ARRAY
  | LL_VECTOR, LL_VECTOR | LL_STRUCT, LL_STRUCT | LL_FUNCTION, LL_FUNCTION =>
      true
  | _, _ => false
  end.

Fixpoint LL_Type_eqb (a b : LL_Type) : bool :=
  match a, b with
  | LLT d1 s1 l1 n1, LLT d2 s2 l2 n2 =>
      LL_BaseDataType_eqb d1 d2 && String.eqb s1 s2 && (n1 =? n2)
      && (fix all2 (l1 l2 : list LL_Type) : bool :=
            match l1, l2 with
            | [], [] => true
            | x :: l1', y :: l2' => LL_Type_eqb x y && all2 l1' l2'
            | _, _ => false
            end) l1 l2
  end.

(** ** Calls: the ABI descriptor and the functions not reproduced *)

(** What [gen_call_expr] reads of an [LL_ABI_Info]. *)
Record LL_ABI_Info : Type := mkABI {
  LL_ABI_HAS_SRET : bool;
  missing_prototype : bool;
  is_varargs : bool;
  call_as_varargs : bool;
  nargs : Z;
  call_conv : Z;
  fast_math : bool;
  ll_abi_return_type : LL_Type;
  abi_arg0_lltype : LL_Type;           (* make_lltype_from_abi_arg(&abi->arg[0]) *)
  ll_abi_function_type : LL_Type
}.

(** Functions of cgmain.c and of its collaborators that lower one kind of
    operand or statement and are used as they are: each runs in [M] on
    the same state. *)
Class Helpers : Type := {
  gen_sptr : Z -> M OPERAND;
  make_var_op : Z -> M OPERAND;
  make_bitcast : OPERAND -> LL_Type -> M OPERAND;
  gen_base_addr_operand : Z -> option LL_Type -> M OPERAND;
  gen_arg_operand : LL_ABI_Info -> Z -> Z -> M OPERAND;
  ll_abi_from_call_site : Z -> Z -> M LL_ABI_Info;
  is_256_or_512_bit_math_intrinsic : Z -> bool;
  gen_call_as_llvm_instr : Z -> Z -> M (option OPERAND);
  update_return_type_for_ccfunc : Z -> ILI_OP -> M unit;
  dtype_from_return_type : ILI_OP -> Z;
  consLoadDebug : OPERAND -> OPERAND -> LL_Type -> M unit;
  getlab : M Z;
  update_llvm_sym_arrays : M unit;
  process_sptr : Z -> M unit;
  gen_switch : Z -> M unit;
  insert_llvm_memcpy : Z -> Z -> OPERAND -> OPERAND -> Z -> Z -> M unit;
  insert_llvm_memset : Z -> Z -> OPERAND -> Z -> M unit;
  convert_to_llvm_cc : Z -> Z -> Z;
  CC_LT : Z; CC_GT : Z; CMP_INT : Z; CMP_USG : Z; CMP_FLT : Z;
  OPF_ZEXT : Z; OPF_SEXT : Z;
  exprjump : ILI_OP -> bool;
  zerojump : ILI_OP -> bool;
  cgmain_init_call : Z -> bool;
  get_call_sptr : Z -> Z;
  CONVAL2G : Z -> Z;
  size_of : Z -> Z;
  dt_nme : Z -> Z;
  align_of : Z -> Z;
  lldbg_emit_line : Z -> M unit;
  insert_jump_entry_instr : Z -> M unit;
  get_return_type : Z -> Z
}.

(** ** Lowering helpers

    [gen_llvm_expr] is the lowering engine itself; the helpers below call
    back into it for their operands, so it is a parameter of this
    section (the engine is defined after it and passed in). *)

Section Lowering.
Context `{Flags} `{InstrFlags} `{DebugInfo} `{ILI} `{SymTab} `{TypeBridge}
        `{Target} `{Helpers}.
Variable gen_llvm_expr : Z -> option LL_Type -> M OPERAND.

Definition make_constval32 (idx : Z) : OPERAND :=
  make_constval32_op (Some (make_int_lltype 32)) idx.

(** *** Intrinsic calls *)

Definition make_function_type_from_args (return_type : LL_Type)
    (first_arg_op : list OPERAND) (is_varargs : bool) : LL_Type :=
  ll_create_function_type
    (Some return_type :: map op_ll_type first_arg_op)
    (Z.of_nat (length first_arg_op)) is_varargs.

Fixpoint hashmap_lookup (m : list (string * LL_Type)) (name : string)
    : option LL_Type :=
  match m with
  | [] => None
  | (k, v) :: m' => if String.eqb k name then Some v else hashmap_lookup m' name
  end.

(** [get_intrinsic]: the text of the declaration it registers is not part
    of the state; the map of declared intrinsics is. *)
Definition get_intrinsic (name : string) (func_type : LL_Type) : M OPERAND :=
  s ← get;
  match hashmap_lookup (declared_intrinsics s) name with
  | Some old_type =>
      if LL_Type_eqb old_type func_type then mret tt
      else crash (* "Intrinsic already declared with different signature" *)
  | None =>
      if String.prefix "asm " name then mret tt
      else modify (set_declared_intrinsics ((name, func_type) :: declared_intrinsics s))
  end;;
  mret (mkOPERAND OT_CALL None (Some (make_ptr_lltype func_type)) 0 0 (0, 0)
          (Some name) 0).

Definition get_intrinsic_call_ops (name : string) (return_type : LL_Type)
    (args : list OPERAND) : M (list OPERAND) :=
  let func_type := make_function_type_from_args return_type args false in
  op ← get_intrinsic name func_type;
  mret (op :: args).

(** [gen_call_to_builtin] with [Call_Instr == NULL]: the instruction is
    made here and added to the list. *)
Definition gen_call_to_builtin (ilix : Z) (fname : string)
    (params : list OPERAND) (return_ll_type : LL_Type)
    (i_name : LL_InstrName) : M OPERAND :=
  t ← make_tmps;
  let operand := make_tmp_op (Some return_ll_type) (Some t) in
  Curr_Instr ← make_instr i_name;
  let Curr_Instr :=
    set_i_flags (Z.lor (i_flags Curr_Instr) CALL_INTRINSIC_FLAG) Curr_Instr in
  let Curr_Instr := set_i_tmps (op_tmps operand) Curr_Instr in
  modify (fun s => set_idef (<[t := iid Curr_Instr]> (idef s)) s);;
  let Curr_Instr := set_i_ll_type (Some return_ll_type) Curr_Instr in
  ops ← get_intrinsic_call_ops fname return_ll_type params;
  ad_instr ilix (set_i_operands ops Curr_Instr);;
  mret operand.

Definition gen_call_llvm_intrinsic (fname : string) (params : list OPERAND)
    (return_ll_type : LL_Type) (i_name : LL_InstrName) : M OPERAND :=
  gen_call_to_builtin 0 ("@llvm." ++ fname)%string params return_ll_type i_name.

(** *** Aggregates and vectors *)

Definition gen_extract_value_ll (aggr : OPERAND) (aggr_ty elt_ty : LL_Type)
    (idx : Z) : M OPERAND :=
  t ← make_tmps;
  let res := make_tmp_op (Some elt_ty) (Some t) in
  Curr_Instr ← gen_instr I_EXTRACTVAL (op_tmps res) (Some aggr_ty)
                 [aggr; make_constval32 idx];
  ad_instr 0 Curr_Instr;;
  mret res.

Definition gen_extract_value (aggr : OPERAND) (aggr_dtype elt_dtype idx : Z)
    : M OPERAND :=
  gen_extract_value_ll aggr (make_lltype_from_dtype aggr_dtype)
    (make_lltype_from_dtype elt_dtype) idx.

Definition gen_insert_value (aggr elem : OPERAND) (index : Z) : M OPERAND :=
  ad_csed_instr I_INSERTVAL 0 (op_ll_type aggr)
    [aggr; elem; make_constval32 index] 0 false.

Definition gen_insert_vector (vop sop : OPERAND) (idx : Z) : M OPERAND :=
  t ← make_tmps;
  let operand := make_tmp_op (op_ll_type vop) (Some t) in
  Curr_Instr ← gen_instr I_INSELE (op_tmps operand) (op_ll_type operand)
                 [vop; sop; make_constval32 idx];
  ad_instr 0 Curr_Instr;;
  mret operand.

Definition gen_extract_vector (vop : OPERAND) (idx : Z) : M OPERAND :=
  match op_ll_type vop with
  | None => crash
  | Some ty =>
      match data_type ty with
      | LL_VECTOR =>
          t ← make_tmps;
          let operand := make_tmp_op (head (sub_types ty)) (Some t) in
          Curr_Instr ← gen_instr I_EXTELE (op_tmps operand) (op_ll_type operand)
                         [vop; make_constval32 idx];
          ad_instr 0 Curr_Instr;;
          mret operand
      | _ => crash (* "vector type expected for operand" *)
      end
  end.

Definition gen_load (addr : OPERAND) (type : LL_Type) (flags : Z) : M OPERAND :=
  ld ← ad_csed_instr I_LOAD 0 (Some type) [addr] flags false;
  consLoadDebug ld addr type;;
  mret ld.

Definition make_store (sop address_op : OPERAND) (flags : Z) : M unit :=
  Curr_Instr ← gen_instr I_STORE None None [sop; address_op];
  ad_instr 0 (set_i_flags (Z.lor (i_flags Curr_Instr) flags) Curr_Instr).

(** *** Complex multiply *)

Definition gen_eval_cmplx_value (ilix dtype : Z) : M OPERAND :=
  gen_llvm_expr ilix (Some (make_lltype_from_dtype dtype)).

(** The copy has the members of [opnd]; the successors it copies are
    overwritten by every user of the copy below. *)
Definition gen_copy_operand (opnd : OPERAND) : OPERAND := gen_copy_op opnd.

(** (a + bi) * (c + di) == (a*c) + (a*di) + (bi*c) + (bi*di) *)
Definition gen_cmplx_mul (ilix dtype : Z) : M OPERAND :=
  let elt_dt := if dtype =? DT_CMPLX then DT_FLOAT else DT_DBLE in
  let cmpnt_type := Some (make_lltype_from_dtype elt_dt) in
  c1 ← gen_eval_cmplx_value (ILI_OPND ilix 1) dtype;
  c2 ← gen_eval_cmplx_value (ILI_OPND ilix 2) dtype;
  let cse1 := gen_copy_operand c1 in
  let cse2 := gen_copy_operand c2 in
  a ← gen_extract_value c1 dtype elt_dt 0;
  bi ← gen_extract_value cse1 dtype elt_dt 1;
  c ← gen_extract_value c2 dtype elt_dt 0;
  di ← gen_extract_value cse2 dtype elt_dt 1;
  (* r1 = (a * c) *)
  r1 ← ad_csed_instr I_FMUL 0 cmpnt_type [a; c] 0 true;
  (* r2 = (a * di) *)
  let cse1 := gen_copy_operand c1 in
  a ← gen_extract_value cse1 dtype elt_dt 0;
  r2 ← ad_csed_instr I_FMUL 0 cmpnt_type [a; di] 0 true;
  (* r3 = (bi * c) *)
  r3 ← ad_csed_instr I_FMUL 0 cmpnt_type [bi; c] 0 true;
  (* r4 = (bi * di) *)
  let cse1 := gen_copy_operand c1 in
  bi ← gen_extract_value cse1 dtype elt_dt 1;
  r4 ← ad_csed_instr I_FMUL 0 cmpnt_type [bi; di] 0 true;
  (* Real: r1 - r4 *)
  real ← ad_csed_instr I_FSUB 0 cmpnt_type [r1; r4] 0 true;
  (* Imag: r2 + r3 *)
  imag ← ad_csed_instr I_FADD 0 cmpnt_type [r2; r3] 0 true;
  let res := make_undef_op (Some (make_lltype_from_dtype dtype)) in
  res ← gen_insert_value res real 0;
  gen_insert_value res imag 1.

End Lowering.

(** ** Min/max, atomics, calls and returns *)

Section LoweringCases.
Context `{Flags} `{InstrFlags} `{DebugInfo} `{ILI} `{SymTab} `{TypeBridge}
        `{Target} `{Helpers}.
Variable gen_llvm_expr : Z -> option LL_Type -> M OPERAND.

(** *** Vector min/max *)

Definition size_in (n : Z) (l : list Z) : bool := existsb (Z.eqb n) l.

(** The generic table: [@llvm.minnum/maxnum.v<N><f|i><bits>]. *)
Definition gen_call_vminmax_intrinsic (ilix : Z) (op1 op2 : OPERAND)
    : M (option OPERAND) :=
  match (match ILI_OPC ilix with
         | IL_VMIN => Some "minnum"%string
         | IL_VMAX => Some "maxnum"%string
         | _ => None (* "gen_call_vminmax_intrinsic(): bad opc" *)
         end) with
  | None => crash
  | Some mstr =>
      let vect_dtype := ILI_OPND ilix 3 in
      let vect_size := DTY (vect_dtype + 2) in
      let supported :=
        match ty_kind (DTY (DTY (vect_dtype + 1))) with
        | TY_FLOAT | TY_DBLE =>
            if size_in vect_size [2; 4; 8] then Some "f"%string else None
        | TY_INT | TY_UINT =>
            if size_in vect_size [2; 4; 8] then Some "i"%string else None
        | TY_SINT | TY_USINT =>
            if size_in vect_size [4; 8] then Some "i"%string else None
        | _ => None
        end in
      match supported with
      | None => mret None
      | Some type =>
          let type_size := zsize_of (DTY (vect_dtype + 1)) * 8 in
          let buf := ("@llvm." ++ mstr ++ ".v" ++ pretty vect_size ++ type
                        ++ pretty type_size)%string in
          op ← gen_call_to_builtin ilix buf [op1; op2]
                 (make_lltype_from_dtype vect_dtype) I_PICALL;
          mret (Some op)
      end
  end.

(** The POWER table: [@llvm.ppc.vsx.xv<min|max><sp|dp>]. *)
Definition gen_call_vminmax_power_intrinsic (ilix : Z) (op1 op2 : OPERAND)
    : M (option OPERAND) :=
  let mstr := match ILI_OPC ilix with IL_VMIN => "min" | _ => "max" end%string in
  let vect_dtype := ILI_OPND ilix 3 in
  let vect_size := DTY (vect_dtype + 2) in
  if negb (size_in vect_size [2; 4]) then mret None
  else
    let type := if vect_size =? 2 then "dp"%string else "sp"%string in
    match ty_kind (DTY (DTY (vect_dtype + 1))) with
    | TY_FLOAT | TY_DBLE =>
        let buf := ("@llvm.ppc.vsx.xv" ++ mstr ++ type)%string in
        op ← gen_call_to_builtin ilix buf [op1; op2]
               (make_lltype_from_dtype vect_dtype) I_PICALL;
        mret (Some op)
    | _ => mret None
    end.

(** The ARM table: [@llvm.arm.neon.<vmin|vmax><s|u>.v<N><f|i><bits>]. *)
Definition gen_call_vminmax_neon_intrinsic (ilix : Z) (op1 op2 : OPERAND)
    : M (option OPERAND) :=
  if negb NEON_ENABLED then mret None
  else
    let mstr := match ILI_OPC ilix with IL_VMIN => "vmin" | _ => "vmax" end%string in
    let vect_dtype := ILI_OPND ilix 3 in
    let vect_size := DTY (vect_dtype + 2) in
    let supported :=
      match ty_kind (DTY (DTY (vect_dtype + 1))) with
      | TY_FLOAT =>
          if size_in vect_size [2; 4] then Some ("s", "f")%string else None
      | TY_INT =>
          if size_in vect_size [2; 4] then Some ("s", "i")%string else None
      | TY_UINT =>
          if size_in vect_size [2; 4] then Some ("u", "i")%string else None
      | TY_SINT =>
          if size_in vect_size [4; 8] then Some ("s", "i")%string else None
      | TY_USINT =>
          if size_in vect_size [4; 8] then Some ("u", "i")%string else None
      | _ => None
      end in
    match supported with
    | None => mret None
    | Some (sign, type) =>
        let type_size := zsize_of (DTY (vect_dtype + 1)) * 8 in
        let buf := ("@llvm.arm.neon." ++ mstr ++ sign ++ ".v" ++ pretty vect_size
                      ++ type ++ pretty type_size)%string in
        op ← gen_call_to_builtin ilix buf [op1; op2]
               (make_lltype_from_dtype vect_dtype) I_PICALL;
        mret (Some op)
    end.

(** The compare-and-select form.  An opcode that is no min or max leaves
    the comparison undefined in C; it is a failure here. *)
Definition gen_minmax_expr (ilix : Z) (op1 op2 : OPERAND) : M OPERAND :=
  let opc := ILI_OPC ilix in
  t ← make_tmps;
  let vect_dtype := ili_get_vect_type ilix in
  let llt := if negb (vect_dtype =? 0) then make_lltype_from_dtype vect_dtype
             else make_type_from_opc opc in
  let operand :=
    make_tmp_op (if negb (vect_dtype =? 0) then head (sub_types llt) else Some llt)
      (Some t) in
  let bool_type := make_int_lltype 1 in
  let vcmp (cc_ctype : Z) :=
    match ty_kind (DTY (DTY (vect_dtype + 1))) with
    | TY_FLOAT | TY_DBLE => Some (I_FCMP, convert_to_llvm_cc cc_ctype CMP_FLT)
    | _ =>
        if DT_ISUNSIGNED (DTY (vect_dtype + 1))
        then Some (I_ICMP, convert_to_llvm_cc cc_ctype (Z.lor CMP_INT CMP_USG))
        else Some (I_ICMP, convert_to_llvm_cc cc_ctype CMP_INT)
    end in
  match (match opc with
         | IL_UIMIN | IL_UKMIN =>
             Some (I_ICMP, convert_to_llvm_cc CC_LT (Z.lor CMP_INT CMP_USG))
         | IL_IMIN | IL_KMIN => Some (I_ICMP, convert_to_llvm_cc CC_LT CMP_INT)
         | IL_FMIN | IL_DMIN => Some (I_FCMP, convert_to_llvm_cc CC_LT CMP_FLT)
         | IL_UIMAX | IL_UKMAX =>
             Some (I_ICMP, convert_to_llvm_cc CC_GT (Z.lor CMP_INT CMP_USG))
         | IL_IMAX | IL_KMAX => Some (I_ICMP, convert_to_llvm_cc CC_GT CMP_INT)
         | IL_FMAX | IL_DMAX => Some (I_FCMP, convert_to_llvm_cc CC_GT CMP_FLT)
         | IL_VMIN => vcmp CC_LT
         | IL_VMAX => vcmp CC_GT
         | _ => None
         end) with
  | None => crash
  | Some (cc_itype, cc_val) =>
      tc ← make_tmps;
      let cmp_op := make_tmp_op (Some bool_type) (Some tc) in
      Curr_Instr ← gen_instr cc_itype (op_tmps cmp_op) (Some bool_type) [];
      let cc := mkOPERAND OT_CC None (Some llt) 0 cc_val (0, 0) None 0 in
      ad_instr ilix (set_i_operands [cc; op1; op2] Curr_Instr);;
      Curr_Instr ← gen_instr I_SELECT (op_tmps operand) (op_ll_type operand)
                     [cmp_op; gen_copy_op op1; gen_copy_op op2];
      ad_instr ilix Curr_Instr;;
      mret operand
  end.

(** The intrinsic table of the build: the three are mutually exclusive
    ([#if defined(TARGET_LLVM_POWER) ... #elif defined(TARGET_LLVM_ARM)
    ... #else]). *)
Definition gen_call_vminmax_for_target (ilix : Z) (op1 op2 : OPERAND)
    : M (option OPERAND) :=
  match target with
  | TARGET_LLVM_POWER => gen_call_vminmax_power_intrinsic ilix op1 op2
  | TARGET_LLVM_ARM => gen_call_vminmax_neon_intrinsic ilix op1 op2
  | _ => gen_call_vminmax_intrinsic ilix op1 op2
  end.

(** The [IL_VMIN]/[IL_VMAX] case of [gen_llvm_expr]. *)
Definition gen_vminmax (ilix : Z) : M OPERAND :=
  let vect_dtype := ILI_OPND ilix 3 in
  let lhs_ili := ILI_OPND ilix 2 in
  let rhs_ili := ILI_OPND ilix 1 in
  let llTy := make_lltype_from_dtype vect_dtype in
  op1 ← gen_llvm_expr lhs_ili (Some llTy);
  op2 ← gen_llvm_expr rhs_ili (Some llTy);
  operand ← gen_call_vminmax_for_target ilix op1 op2;
  match operand with
  | Some operand => mret operand
  | None => gen_minmax_expr ilix op1 op2
  end.

(** *** Atomic read-modify-write and fences *)

Definition gen_llvm_atomicrmw_expr (ilix : Z) : M OPERAND :=
  let info := atomic_info ilix in
  let instr_type := make_type_from_msz (ai_msz info) in
  (* LLVM instruction atomicrmw has operands in opposite order of ILI
     instruction. *)
  op1 ← gen_llvm_expr (ILI_OPND ilix 2) (Some (make_ptr_lltype instr_type));
  op2 ← gen_llvm_expr (ILI_OPND ilix 1) (Some instr_type);
  flags ← of_option (ll_instr_flags_for_memory_order_and_scope ilix);
  let flags := if ILI_OPND ilix 3 =? NME_VOL then Z.lor flags VOLATILE_FLAG
               else flags in
  aop ← of_option (ll_instr_flags_from_aop (ai_op info));
  let flags := Z.lor flags aop in
  ad_csed_instr I_ATOMICRMW ilix (Some instr_type) [op1; op2] flags false.

Definition gen_llvm_fence_instruction (ilix : Z) : M unit :=
  flags ← of_option (ll_instr_flags_for_memory_order_and_scope ilix);
  fence ← gen_instr I_FENCE None None [];
  ad_instr 0 (set_i_flags (Z.lor (i_flags fence) flags) fence).

(** *** Calls *)

Definition get_next_arg (arg_ili : Z) : option Z :=
  match ILI_OPC arg_ili with
  | IL_ARGAR | IL_ARGDP | IL_ARGIR | IL_ARGKR | IL_ARGSP | IL_GARG
  | IL_GARGRET => Some (ILI_OPND arg_ili 2)
  | IL_DAAR | IL_DADP | IL_DAIR | IL_DAKR | IL_DASP => Some (ILI_OPND arg_ili 3)
  | _ => None (* "Unknown IL_ARG opcode" *)
  end.

(** The [for] loop of [gen_arg_operand_list]; [max_abi_arg] is [None] for
    [~0u].  [fuel] bounds the length of the argument chain. *)
Fixpoint gen_arg_operands (fuel : nat) (abi : LL_ABI_Info) (abi_arg : Z)
    (max_abi_arg : option Z) (arg_ili : Z) : M (list OPERAND) :=
  match fuel with
  | O => crash
  | S fuel' =>
      if match max_abi_arg with Some m => abi_arg <=? m | None => true end
         && negb match ILI_OPC arg_ili with IL_NULL => true | _ => false end
      then
        op ← gen_arg_operand abi abi_arg arg_ili;
        next ← of_option (get_next_arg arg_ili);
        rest ← gen_arg_operands fuel' abi (abi_arg + 1) max_abi_arg next;
        mret (op :: rest)
      else mret []
  end.

Definition gen_arg_operand_list (fuel : nat) (abi : LL_ABI_Info) (arg_ili : Z)
    : M (list OPERAND) :=
  '(first, arg_ili) ←
     (if LL_ABI_HAS_SRET abi then
        (* ABI requires a hidden argument to return a struct. *)
        op ← gen_arg_operand abi 0 arg_ili;
        next ← of_option (get_next_arg arg_ili);
        mret ([op], next)
      else match ILI_OPC arg_ili with
           | IL_GARGRET =>
               (* It is up to gen_call_expr() to save the function return
                  value in this case. We'll just ignore the GARGRET. *)
               next ← of_option (get_next_arg arg_ili);
               mret ([], next)
           | _ => mret ([], arg_ili)
           end);
  let max_abi_arg :=
    if negb (missing_prototype abi) && negb (is_varargs abi)
    then Some (nargs abi) else None in
  rest ← gen_arg_operands fuel abi 1 max_abi_arg arg_ili;
  mret (first ++ rest).

Definition is_struct_or_union (dtype : Z) : bool :=
  match ty_kind (DTY dtype) with
  | TY_STRUCT | TY_UNION => true
  | _ => false
  end.

(** [gen_call_expr] with [call_instr == NULL] (every caller in cgmain.c
    passes NULL): the call instruction is made here.  [fuel] bounds the
    argument chain.  [gen_call_instr] is the function up to the point
    where the call instruction is complete: it gives the instruction, the
    result operand so far and the ABI descriptor. *)
Definition gen_call_instr (fuel : nat) (ilix ret_dtype call_sptr : Z)
    : M (INSTR_LIST * option OPERAND * LL_ABI_Info) :=
  let throw_label := ili_throw_label ilix in
  call_instr ← (if 0 <? throw_label then make_instr I_INVOKE
                else make_instr I_CALL);
  (* Prefer IL_GJSR / IL_GJSRA when available. *)
  let ilix := prefer_alt ilix in
  let first_arg_ili := ILI_OPND ilix 2 in
  abi ← ll_abi_from_call_site ilix ret_dtype;
  first_arg_op ← gen_arg_operand_list fuel abi first_arg_ili;
  let call_instr :=
    set_i_flags (Z.lor (i_flags call_instr)
                   (Z.shiftl (call_conv abi) CALLCONV_SHIFT)) call_instr in
  let call_instr :=
    if fast_math abi
    then set_i_flags (Z.lor (i_flags call_instr) FAST_MATH_FLAG) call_instr
    else call_instr in
  let func_type : option LL_Type :=
    if missing_prototype abi then
      match target with
      | TARGET_LLVM_X8664 =>
          let dsize := DTYPEG call_sptr in
          let dsize := if dsize =? 0 then 0 else zsize_of dsize in
          if ((dsize =? 32) || (dsize =? 64))
             && is_256_or_512_bit_math_intrinsic call_sptr
             && negb (XBIT 183 0x4000)
          then Some (make_function_type_from_args (ll_abi_return_type abi)
                       first_arg_op false)
          else Some (make_function_type_from_args (ll_abi_return_type abi)
                       first_arg_op (call_as_varargs abi))
      | _ => Some (make_function_type_from_args (ll_abi_return_type abi)
                     first_arg_op (call_as_varargs abi))
      end
    else None in
  (* Now figure out the callee itself. *)
  '(callee_op, call_instr) ←
     match ILI_OPC ilix with
     | IL_JSR | IL_GJSR | IL_QJSR =>
         let callee_sptr := ILI_OPND ilix 1 in
         callee_op ← make_var_op callee_sptr;
         let func_type :=
           match func_type with
           | None => if negb (is_varargs abi)
                     then Some (make_function_type_from_args
                                  (ll_abi_return_type abi) first_arg_op
                                  (call_as_varargs abi))
                     else None
           | Some _ => func_type
           end in
         match func_type with
         | Some ft =>
             match op_ll_type callee_op with
             | None => crash
             | Some cty =>
                 if match head (sub_types cty) with
                    | Some t0 => negb (LL_Type_eqb ft t0)
                    | None => true
                    end
                 then callee_op ← make_bitcast callee_op (make_ptr_lltype ft);
                      mret (callee_op, call_instr)
                 else mret (callee_op, call_instr)
             end
         | None => mret (callee_op, call_instr)
         end
     | IL_JSRA | IL_GJSRA =>
         let addr_ili := ILI_OPND ilix 1 in
         let func_type := default (ll_abi_function_type abi) func_type in
         callee_op ← gen_llvm_expr addr_ili (Some (make_ptr_lltype func_type));
         mret (callee_op,
               set_i_flags (Z.lor (i_flags call_instr) CALL_FUNC_PTR_FLAG)
                 call_instr)
     | _ => crash (* "Unhandled call instruction" *)
     end;
  '(operands, call_instr) ←
     (if throw_label =? -1 then mret (callee_op :: first_arg_op, call_instr)
      else if throw_label =? 0 then
        if match op_string callee_op with
           | Some n => String.eqb "@__cxa_call_unexpected" n
           | None => false
           end
        then mret (callee_op :: first_arg_op, call_instr)
        else mret (callee_op :: first_arg_op,
                   set_i_flags (Z.lor (i_flags call_instr) NOUNWIND_CALL_FLAG)
                     call_instr)
      else
        lab ← getlab;
        mret (callee_op :: first_arg_op
                ++ [make_label_op lab;
                    mkOPERAND OT_LABEL None None throw_label 0 (0, 0) None 0],
              call_instr));
  let call_instr := set_i_operands operands call_instr in
  let return_type := ll_abi_return_type abi in
  '(call_instr, result_op) ←
     match data_type return_type with
     | LL_VOID =>
         let call_instr := set_i_ll_type (Some make_void_lltype) call_instr in
         if LL_ABI_HAS_SRET abi && is_struct_or_union ret_dtype then
           match first_arg_op with
           | [] => crash
           | first :: _ => mret (call_instr, Some (set_op_flags 0 (gen_copy_op first)))
           end
         else mret (call_instr, None)
     | _ =>
         t ← make_tmps;
         let call_instr :=
           set_i_tmps (Some t)
             (set_i_ll_type (Some (abi_arg0_lltype abi)) call_instr) in
         (* If ret_dtype is not set, no return value is expected. *)
         mret (call_instr,
               if negb (ret_dtype =? 0)
               then Some (make_tmp_op (i_ll_type call_instr) (i_tmps call_instr))
               else None)
     end;
  mret (call_instr, result_op, abi).

Definition gen_call_expr (fuel : nat) (ilix ret_dtype call_sptr : Z)
    : M (option OPERAND) :=
  '(call_instr, result_op, abi) ← gen_call_instr fuel ilix ret_dtype call_sptr;
  let ilix := prefer_alt ilix in
  let first_arg_ili := ILI_OPND ilix 2 in
  ad_instr ilix call_instr;;
  (* Check if the expander created a GARGRET call but the ABI returns in
     registers.  In that case, coerce the returned value by storing it to
     the GARGRET value pointer. *)
  if match ILI_OPC first_arg_ili with IL_GARGRET => true | _ => false end
     && negb (LL_ABI_HAS_SRET abi)
  then
    let addr_ili := ILI_OPND first_arg_ili 1 in
    let return_dtype := ILI_OPND first_arg_ili 3 in
    if negb (IL_RES_is_AR (ILI_OPC addr_ili)) then crash
    else
      match i_ll_type call_instr with
      | None => crash
      | Some cty =>
          addr ← gen_llvm_expr addr_ili (Some (make_ptr_lltype cty));
          make_store (make_tmp_op (i_ll_type call_instr) (i_tmps call_instr))
            addr (ldst_instr_flags_from_dtype return_dtype);;
          (* Does ILI expect the function call to return the hidden
             argument, like an x86-64 sret function call? *)
          if is_struct_or_union ret_dtype then mret (Some (gen_copy_op addr))
          else mret result_op
      end
  else mret result_op.

(** *** The default return value *)

Definition gen_return_operand : M OPERAND :=
  s ← get;
  let rtype := llvm_return_ll_type s in
  match data_type rtype with
  | LL_VOID => mret (set_op_ll_type (Some rtype) make_operand)
  | _ =>
      if negb (sret_sptr s =? 0) then
        (* Bitcast sret_sptr to a pointer to the return type and load it. *)
        let prtype := make_ptr_lltype rtype in
        v ← gen_sptr (sret_sptr s);
        sret_as_prtype ← make_bitcast v prtype;
        gen_load sret_as_prtype rtype
          (ldst_instr_flags_from_dtype (DTYPEG (sret_sptr s)))
      else
        (* No return value symbol available: return undef. *)
        mret (make_undef_op (Some rtype))
  end.

End LoweringCases.

(** ** The expression lowering engine

    [gen_llvm_expr] is one large switch over the opcode.  The cases for
    calls, for result moves (DFR and FREE), for CSE references, for
    complex multiply, vector min/max, atomic read-modify-write and the
    routine exit are reproduced; [lower_other] is every other case, which
    receives the engine for its operands.  [reconcile] is the body of the
    final [if (expected_type)], which casts the operand to the expected
    type.  [fuel] bounds the depth of the ILI. *)

Section Engine.
Context `{Flags} `{InstrFlags} `{DebugInfo} `{ILI} `{SymTab} `{TypeBridge}
        `{Target} `{Helpers}.
Variable lower_other :
  (Z -> option LL_Type -> M OPERAND) -> Z -> option LL_Type -> M OPERAND.
Variable reconcile : Z -> LL_Type -> OPERAND -> M OPERAND.

(** The result-move opcodes: whether the case sets [cse_opc], and the
    type expected when the caller expects none. *)
Definition define_case (ilix : Z) (opc : ILI_OP) : option (bool * LL_Type) :=
  match opc with
  | IL_FREEKR => Some (true, make_lltype_from_dtype DT_INT8)
  | IL_DFRKR => Some (false, make_lltype_from_dtype DT_INT8)
  | IL_FREEIR => Some (true, make_lltype_from_dtype DT_INT)
  | IL_DFRIR => Some (false, make_lltype_from_dtype DT_INT)
  | IL_FREESP => Some (true, make_lltype_from_dtype DT_FLOAT)
  | IL_DFRSP => Some (false, make_lltype_from_dtype DT_FLOAT)
  | IL_FREEDP => Some (true, make_lltype_from_dtype DT_DBLE)
  | IL_DFRDP => Some (false, make_lltype_from_dtype DT_DBLE)
  | IL_DFR128 => Some (false, make_lltype_from_dtype DT_128)
  | IL_DFR256 => Some (false, make_lltype_from_dtype DT_256)
  | IL_FREEAR => Some (true, make_lltype_from_dtype DT_CPTR)
  | IL_DFRAR => Some (false, make_lltype_from_dtype DT_CPTR)
  | IL_FREECS => Some (true, make_lltype_from_dtype DT_CMPLX)
  | IL_DFRCS => Some (false, make_lltype_from_dtype DT_CMPLX)
  | IL_FREE => Some (false, make_lltype_from_dtype (ILI_OPND ilix 2))
  | _ => None
  end.

(** The groups of [case] labels of the switch that are reproduced. *)
Inductive expr_case : Type :=
  | case_JSRA | case_JSR | case_EXIT | case_SCMPLXMUL | case_DCMPLXMUL
  | case_VMINMAX | case_ATOMICRMW | case_other.

Definition expr_case_of (opc : ILI_OP) : expr_case :=
  match opc with
  | IL_JSRA | IL_GJSRA => case_JSRA
  | IL_QJSR | IL_JSR | IL_GJSR => case_JSR
  | IL_EXIT => case_EXIT
  | IL_SCMPLXMUL => case_SCMPLXMUL
  | IL_DCMPLXMUL => case_DCMPLXMUL
  | IL_VMIN | IL_VMAX => case_VMINMAX
  | IL_ATOMICRMWI | IL_ATOMICRMWA | IL_ATOMICRMWKR => case_ATOMICRMW
  | _ => case_other
  end.

Definition is_JSR_QJSR_GJSR (opc : ILI_OP) : bool :=
  match opc with IL_QJSR | IL_JSR | IL_GJSR => true | _ => false end.
Definition is_QJSR_GJSR (opc : ILI_OP) : bool :=
  match opc with IL_QJSR | IL_GJSR => true | _ => false end.
Definition is_JSR_JSRA (opc : ILI_OP) : bool :=
  match opc with IL_JSR | IL_JSRA => true | _ => false end.

Definition is_cse_case (opc : ILI_OP) : bool :=
  match opc with
  | IL_CSE | IL_CSEKR | IL_CSEIR | IL_CSESP | IL_CSEDP | IL_CSEAR | IL_CSECS
  | IL_CSECD => true
  | _ => false
  end.

Definition setTempMap (ilix : Z) (op : OPERAND) : M unit :=
  modify (fun s =>
    if (0 <=? ilix) && (ilix <? tempsMap_size s)
    then set_tempsMap (match op_tmps op with
                       | Some t => <[ilix := t]> (tempsMap s)
                       | None => delete ilix (tempsMap s)
                       end) s
    else s).

Definition getTempMap (ilix : Z) : M (option TMPS) :=
  s ← get;
  mret (if (0 <=? ilix) && (ilix <? tempsMap_size s) then tempsMap s !! ilix
        else None).

(** The end of the tail of [gen_llvm_expr]: the cast to the expected
    type and the entry in the map of temporaries. *)
Definition reconcile_tail (ilix : Z) (expected_type : option LL_Type)
    (operand : OPERAND) : M OPERAND :=
  operand ← match expected_type with
            | Some ty => reconcile ilix ty operand
            | None => mret operand
            end;
  setTempMap ilix operand;;
  mret operand.

(** What follows the switch: record the operand in the CSE list, count
    the evaluation, cast to the expected type. *)
Definition gen_llvm_expr_finish (ilix : Z) (expected_type : option LL_Type)
    (operand : OPERAND) : M OPERAND :=
  match op_ll_type operand with
  | None => crash (* "gen_llvm_expr(): missing type" *)
  | Some _ =>
      csed_operand ← get_csed_operand ilix;
      match csed_operand with
      | Some p => set_csed_operand p operand
      | None => mret tt
      end;;
      modify (fun s => set_ili_count ilix (ili_count s ilix + 1) s);;
      reconcile_tail ilix expected_type operand
  end.

(** The head of [_process_define_ili]: the return type of the call
    below a result-move opcode. *)
Definition define_head (cse_opc : bool) (opc : ILI_OP) (opnd1 : Z) : M unit :=
  modify (set_curr_ret_dtype (if cse_opc then 0 else dtype_from_return_type opc));;
  (if is_JSR_QJSR_GJSR (ILI_OPC opnd1) && CCSYMG (ILI_OPND opnd1 1)
      && (DTYPEG (ILI_OPND opnd1 1) <? DT_MAX)
   then update_return_type_for_ccfunc opnd1 opc
   else mret tt).

Fixpoint gen_llvm_expr (fuel : nat) (ilix : Z) (expected_type : option LL_Type)
    : M OPERAND :=
  match fuel with
  | O => crash
  | S fuel' =>
      let ilix := if is_JSR_JSRA (ILI_OPC ilix)
                  then ilix   (* ILI_ALT may be IL_GJSR/IL_GJSRA *)
                  else prefer_alt ilix in
      let opc := ILI_OPC ilix in
      if ilix =? 0 then crash (* "gen_llvm_expr(): no incoming ili" *)
      else
        let call (call_dtype call_sptr : Z) : M OPERAND :=
          call_op ← gen_call_expr (gen_llvm_expr fuel') fuel' ilix call_dtype
                      call_sptr;
          match call_op with
          | Some operand =>
              if DT_ISUNSIGNED call_dtype
              then mret (set_op_flags (Z.lor (op_flags operand) OPF_ZEXT) operand)
              else if DT_ISINT call_dtype
              then mret (set_op_flags (Z.lor (op_flags operand) OPF_SEXT) operand)
              else mret operand
          | None => mret (set_op_ll_type (Some make_void_lltype) make_operand)
          end in
        '(operand, expected_type) ←
          match expr_case_of opc with
          | case_JSRA =>
              s ← get;
              let call_dtype := ILI_OPND ilix 4 in
              let call_dtype := if negb (call_dtype =? 0)
                                then DTY (DTYPEG call_dtype)
                                else curr_ret_dtype s in
              operand ← call call_dtype 0;
              mret (operand, expected_type)
          | case_JSR =>
              let sptr := ILI_OPND ilix 1 in
              call_op ← gen_call_as_llvm_instr sptr ilix;
              match call_op with
              | Some operand => mret (operand, expected_type)
              | None =>
                  operand ← call (DTY (DTYPEG sptr)) sptr;
                  mret (operand, expected_type)
              end
          | case_EXIT =>
              operand ← gen_return_operand;
              mret (operand, expected_type)
          | case_SCMPLXMUL =>
              operand ← gen_cmplx_mul (gen_llvm_expr fuel') ilix DT_CMPLX;
              mret (operand, expected_type)
          | case_DCMPLXMUL =>
              operand ← gen_cmplx_mul (gen_llvm_expr fuel') ilix DT_DCMPLX;
              mret (operand, expected_type)
          | case_VMINMAX =>
              operand ← gen_vminmax (gen_llvm_expr fuel') ilix;
              mret (operand, expected_type)
          | case_ATOMICRMW =>
              operand ← gen_llvm_atomicrmw_expr (gen_llvm_expr fuel') ilix;
              mret (operand, expected_type)
          | case_other =>
              match define_case ilix opc with
              | Some (cse_opc, dflt) =>
                  let expected_type :=
                    match expected_type with
                    | None => Some dflt
                    | Some _ => expected_type
                    end in
                  (* _process_define_ili: *)
                  let opnd1 := ILI_OPND ilix 1 in
                  define_head cse_opc opc opnd1;;
                  (* Identical calls in the same block must be csed for
                     correctness.  Don't cse QJSR/GJSR calls. *)
                  operand ←
                    if is_QJSR_GJSR (ILI_OPC opnd1)
                    then gen_llvm_expr fuel' opnd1 expected_type
                    else
                        csed_operand ← get_csed_operand opnd1;
                        match csed_operand with
                        | None =>
                            operand ← gen_llvm_expr fuel' opnd1 expected_type;
                            add_to_cselist fuel' opnd1;;
                            csed_operand ← get_csed_operand opnd1;
                            match csed_operand with
                            | Some p => set_csed_operand p operand;; mret operand
                            | None => crash
                            end
                        | Some p =>
                            s ← get;
                            if ili_count s opnd1 =? 0
                            then gen_llvm_expr fuel' opnd1 expected_type
                            else
                              cached ← csed_deref p;
                              match cached with
                              | None =>
                                  operand ← gen_llvm_expr fuel' opnd1 expected_type;
                                  set_csed_operand p operand;;
                                  mret operand
                              | Some c => mret (gen_copy_op c)
                              end
                        end;
                  mret (operand, expected_type)
              | None =>
                  if is_cse_case opc then
                    let csed_ilix := prefer_alt (ILI_OPND ilix 1) in
                    csed_operand ← get_csed_operand csed_ilix;
                    match csed_operand with
                    | None => crash (* "missing cse operand list for ilix" *)
                    | Some p =>
                        s ← get;
                        if ili_count s csed_ilix =? 0 then
                          operand ← gen_llvm_expr fuel' csed_ilix expected_type;
                          mret (operand, expected_type)
                        else
                          cached ← csed_deref p;
                          match cached with
                          | Some c => mret (gen_copy_op c, expected_type)
                          | None => crash (* gen_copy_op(NULL) *)
                          end
                    end
                  else
                    operand ← lower_other (gen_llvm_expr fuel') ilix expected_type;
                    mret (operand, expected_type)
              end
          end;
        gen_llvm_expr_finish ilix expected_type operand
  end.

End Engine.

(** ** The fused-multiply-add rewrite

    The rewrite follows [tmps->info.idef] to the instruction that defines
    an operand and changes instructions in place; an instruction object is
    found in the list by its address [iid].  The successor pointers of the
    operands it relinks are the tails of the operand lists here. *)

Definition find_instr (id : nat) (l : list INSTR_LIST) : option INSTR_LIST :=
  List.find (fun i => Nat.eqb (iid i) id) l.

Definition update_instr (id : nat) (f : INSTR_LIST -> INSTR_LIST)
    (l : list INSTR_LIST) : list INSTR_LIST :=
  map (fun i => if Nat.eqb (iid i) id then f i else i) l.

(** [tmps->info.idef] of an operand, as an instruction of the list. *)
Definition idef_of (op : OPERAND) : M INSTR_LIST :=
  s ← get;
  of_option (t ← op_tmps op; id ← idef s !! t; find_instr id (Instructions s)).

Definition opc_is_FMUL (opc : ILI_OP) : bool :=
  match opc with IL_FMUL => true | _ => false end.
Definition opc_is_DMUL (opc : ILI_OP) : bool :=
  match opc with IL_DMUL => true | _ => false end.
Definition opc_is_FNEG (opc : ILI_OP) : bool :=
  match opc with IL_FNEG => true | _ => false end.
Definition opc_is_DNEG (opc : ILI_OP) : bool :=
  match opc with IL_DNEG => true | _ => false end.
Definition opc_is_NEG (opc : ILI_OP) : bool :=
  opc_is_FNEG opc || opc_is_DNEG opc.

(** The kinds of root of a multiply-add. *)
Inductive mac_root : Type := root_FADD | root_FSUB | root_DADD | root_DSUB.

Definition mac_root_of (opc : ILI_OP) : option mac_root :=
  match opc with
  | IL_FADD => Some root_FADD
  | IL_FSUB => Some root_FSUB
  | IL_DADD => Some root_DADD
  | IL_DSUB => Some root_DSUB
  | _ => None
  end.

Section FMA.
Context `{Flags} `{InstrFlags} `{DebugInfo} `{ILI} `{SymTab} `{TypeBridge}
        `{Target} `{Helpers}.
Variable gen_llvm_expr : Z -> option LL_Type -> M OPERAND.

(** [#if defined(TARGET_LLVM_POWER) || defined(TARGET_LLVM_X8664)] *)
Definition target_has_mac : bool :=
  match target with
  | TARGET_LLVM_POWER | TARGET_LLVM_X8664 => true
  | _ => false
  end.

Definition fused_multiply_add_candidate (ilix : Z) : Z :=
  let search (is_mul is_neg : ILI_OP -> bool) : Z :=
    let lx := ILI_OPND ilix 1 in
    let l := ILI_OPC lx in
    if is_mul l then lx
    else
      let rx := ILI_OPND ilix 2 in
      let r := ILI_OPC rx in
      if is_mul r then rx
      else if target_has_mac && is_neg l && is_mul (ILI_OPC (ILI_OPND lx 1))
      then lx
      else if target_has_mac && is_neg r && is_mul (ILI_OPC (ILI_OPND rx 1))
      then rx
      else 0 in
  match mac_root_of (ILI_OPC ilix) with
  | Some root_FSUB => if target_has_mac then search opc_is_FMUL opc_is_FNEG else 0
  | Some root_FADD => search opc_is_FMUL opc_is_FNEG
  | Some root_DSUB => if target_has_mac then search opc_is_DMUL opc_is_DNEG else 0
  | Some root_DADD => search opc_is_DMUL opc_is_DNEG
  | None => 0
  end.

(** [get_mac_name] of the POWER and x86-64 builds: the intrinsic name
    (without the "llvm." prefix), [swap] and [fneg]. *)
Definition get_mac_name (ilix matches l r : Z)
    : option (string * bool * bool) :=
  let swap := matches =? r in
  let opc := ILI_OPC (if swap then r else l) in
  let fneg := opc_is_NEG opc in
  let pick (a b : string) := if fneg then a else b in
  let name (root : mac_root) : option string :=
    match target, root with
    | TARGET_LLVM_POWER, root_FADD =>
        Some (pick "ppc.vsx.xsnmsubasp" "ppc.vsx.xsmaddasp")
    | TARGET_LLVM_POWER, root_DADD =>
        Some (pick "ppc.vsx.xsnmsubadp" "ppc.vsx.xsmaddadp")
    | TARGET_LLVM_POWER, root_FSUB =>
        Some (if swap then pick "ppc.vsx.xsmaddasp" "ppc.vsx.xsnmsubasp"
              else pick "ppc.vsx.xsnmaddasp" "ppc.vsx.xsmsubasp")
    | TARGET_LLVM_POWER, root_DSUB =>
        Some (if swap then pick "ppc.vsx.xsmaddadp" "ppc.vsx.xsnmsubadp"
              else pick "ppc.vsx.xsnmaddadp" "ppc.vsx.xsmsubadp")
    | TARGET_LLVM_X8664, root_FADD =>
        Some (pick "x86.fma.vfnmadd.ss" "x86.fma.vfmadd.ss")
    | TARGET_LLVM_X8664, root_DADD =>
        Some (pick "x86.fma.vfnmadd.sd" "x86.fma.vfmadd.sd")
    | TARGET_LLVM_X8664, root_FSUB =>
        Some (if swap then pick "x86.fma.vfmadd.ss" "x86.fma.vfnmadd.ss"
              else pick "x86.fma.vfnmsub.ss" "x86.fma.vfmsub.ss")
    | TARGET_LLVM_X8664, root_DSUB =>
        Some (if swap then pick "x86.fma.vfmadd.sd" "x86.fma.vfnmadd.sd"
              else pick "x86.fma.vfnmsub.sd" "x86.fma.vfmsub.sd")
    | _, _ => None
    end%string in
  root ← mac_root_of (ILI_OPC ilix);   (* else "does not match MAC" *)
  n ← name root;
  Some (n, swap, fneg).

(** Does this multiply op have more than one use? *)
Definition fma_mult_has_mult_uses (multop : OPERAND) : M bool :=
  s ← get;
  mret match op_tmps multop with
       | None => true
       | Some t => 1 <? usect s t
       end.

(** [op->tmps->use_count += d], a crash when [op->tmps] is NULL. *)
Definition bump_use_count (op : OPERAND) (d : Z) : M unit :=
  match op_tmps op with
  | Some t => modify (add_use_count t d)
  | None => crash
  end.

(** [op->tmps->info.idef->operands->next], with its successors. *)
Definition second_operand_of_def (op : OPERAND) : M (list OPERAND) :=
  instr ← idef_of op;
  match i_operands instr with
  | [] => crash
  | _ :: next => mret next
  end.

(** [l] and [r] are the two operands with their successors (both single
    after the first statement); the result is the canonical pair: the
    multiply on the left. *)
Definition fused_multiply_add_canonical_form (matches : Z) (opc : ILI_OP)
    (l r : OPERAND) (lhs_ili rhs_ili : Z)
    : M (list OPERAND * list OPERAND * Z * Z) :=
  let negOpc : option ILI_OP :=
    match mac_root_of opc with
    | Some root_FSUB => Some IL_FNEG   (* t1 - t2 => t1 + (-t2) *)
    | Some root_DSUB => Some IL_DNEG
    | _ => None                        (* it's already an ADD *)
    end in
  '(l, r, lhs_ili, rhs_ili, negOpc) ←
     (if matches =? rhs_ili then
        (* multiply on right, exchange lhs and rhs *)
        mret ([r], [l], rhs_ili, lhs_ili, negOpc)
      else
        match negOpc with
        | Some neg_opc =>
            (* handle subtract form when multiply was already on the left *)
            if opc_is_NEG (ILI_OPC rhs_ili) then
              (* double negative *)
              bump_use_count r (-1);;
              r' ← second_operand_of_def r;
              mret ([l], r', lhs_ili, rhs_ili, None)
            else
              neg ← gen_llvm_expr (ad1ili neg_opc rhs_ili) (op_ll_type r);
              match op_tmps neg with
              | Some _ =>
                  d ← idef_of neg;
                  match i_operands d with
                  | [] => crash
                  | first :: _ =>
                      modify (fun s => set_Instructions
                                (update_instr (iid d) (set_i_operands [first; r])
                                   (Instructions s)) s)
                  end
              | None => mret tt
              end;;
              mret ([l], [neg], lhs_ili, rhs_ili, None)
        | None => mret ([l], [r], lhs_ili, rhs_ili, None)
        end);
  (* negOpc implies a swap was made. Fixup any negations now. *)
  match l with
  | [] => crash
  | l0 :: _ =>
      let lopc := ILI_OPC lhs_ili in
      if bool_decide (negOpc <> None) && opc_is_NEG lopc then
        (* double negation. -(-(a * b)) => (a * b) *)
        bump_use_count l0 (-1);;
        l' ← second_operand_of_def l0;
        mret (l', r, lhs_ili, rhs_ili)
      else if bool_decide (negOpc <> None) || opc_is_NEG lopc then
        (* swap mult and negate.  -(a * b) => (-a) * b *)
        mul ← (if bool_decide (negOpc <> None) then mret l
               else second_operand_of_def l0);
        match mul with
        | [] => crash
        | mul0 :: _ =>
            mul_def ← idef_of mul0;
            match i_operands mul_def with
            | [] => crash
            | mul_l :: mul_r =>
                let mulili := if bool_decide (negOpc <> None) then lhs_ili
                              else ILI_OPND lhs_ili 1 in
                let mulili_l := ILI_OPND mulili 1 in
                let fTy := op_ll_type mul_l in
                n ← (if opc_is_FMUL (ILI_OPC mulili)
                     then gen_llvm_expr (ad1ili IL_FNEG mulili_l) fTy
                     else if opc_is_DMUL (ILI_OPC mulili)
                     then gen_llvm_expr (ad1ili IL_DNEG mulili_l) fTy
                     else crash (* "unexpected expr" *));
                (* rebuild the multiply *)
                match op_tmps n with
                | Some _ =>
                    d ← idef_of n;
                    match i_operands d with
                    | [] => crash
                    | first :: _ =>
                        modify (fun s => set_Instructions
                                  (update_instr (iid d)
                                     (set_i_operands (first :: mul_l :: mul_r))
                                     (Instructions s)) s)
                    end
                | None => mret tt
                end;;
                t ← make_tmps;
                let newMul := make_tmp_op (op_ll_type mul0) (Some t) in
                instr ← gen_instr I_FMUL (op_tmps newMul) (op_ll_type mul0)
                          (n :: mul_r);
                ad_instr mulili instr;;
                mret ([newMul], r, lhs_ili, rhs_ili)
            end
        end
      else mret (l, r, lhs_ili, rhs_ili)
  end.

(** The instructions after [last] (by address) in the list. *)
Fixpoint instrs_after (last : nat) (l : list INSTR_LIST)
    : option (list INSTR_LIST * list INSTR_LIST) :=
  match l with
  | [] => None
  | i :: rest =>
      match instrs_after last rest with
      | Some (before, after) => Some (i :: before, after)
      | None => if Nat.eqb (iid i) last then Some ([i], rest) else None
      end
  end.

(** The instructions before the one at address [id]. *)
Fixpoint instrs_before (id : nat) (l : list INSTR_LIST)
    : option (list INSTR_LIST) :=
  match l with
  | [] => None
  | i :: rest =>
      if Nat.eqb (iid i) id then Some []
      else run ← instrs_before id rest; Some (i :: run)
  end.

(** Insert [run] before the instruction at address [id], which must have
    a predecessor. *)
Fixpoint splice_before (id : nat) (run : list INSTR_LIST)
    (l : list INSTR_LIST) : option (list INSTR_LIST) :=
  match l with
  | [] => None
  | prev :: rest =>
      match rest with
      | next :: _ =>
          if Nat.eqb (iid next) id then Some (prev :: run ++ rest)
          else rest' ← splice_before id run rest; Some (prev :: rest')
      | [] => None
      end
  end.

(** The loop of [overwrite_fma_add]: force the DCE pass to keep the FMA
    arguments alive. *)
Fixpoint keep_alive (operands : list OPERAND) : M unit :=
  match operands with
  | [] => mret tt
  | op :: next =>
      match op_tmps op with
      | Some t => modify (add_use_count t 100)
      | None => mret tt
      end;;
      keep_alive next
  end.

Definition overwrite_fields (newFma oldAdd : INSTR_LIST) : INSTR_LIST :=
  mkINSTR (iid oldAdd) (i_rank newFma) (i_name newFma) (i_ilix newFma)
    (i_flags newFma) (i_tmps oldAdd) (i_ll_type newFma) (i_operands newFma)
    (i_dbg_line_op oldAdd) (i_traceComment oldAdd).

(** [oldAdd] and [newFma] are addresses; [last] is the last instruction
    of the list before the new instructions were added. *)
Definition overwrite_fma_add (oldAdd newFma last : nat) : M unit :=
  s ← get;
  '(old, new) ← of_option (instrs_after last (Instructions s));
  match new with
  | [] => crash
  | start :: _ =>
      fma ← of_option (find_instr newFma new);
      old ← (if negb (Nat.eqb (iid start) newFma) then
               run ← of_option (instrs_before newFma new);
               of_option (splice_before oldAdd run old)
             else mret old);
      _ ← of_option (find_instr oldAdd old);
      (* updated in place since uses have pointers to oldAdd *)
      modify (set_Instructions (update_instr oldAdd (overwrite_fields fma) old));;
      keep_alive (i_operands fma)
  end.

Fixpoint x86_promote_to_vector (vTy : LL_Type) (op : list OPERAND)
    : M (list OPERAND) :=
  match op with
  | [] => mret []
  | o :: next =>
      let undefop := make_undef_op (Some vTy) in
      op1 ← gen_insert_vector undefop (gen_copy_op o) 0;
      rest ← x86_promote_to_vector vTy next;
      mret (op1 :: rest)
  end.

(** The multiply is given the addend as a third operand
    ([l_r->next = r]). *)
Definition extend_multiply (mul_def : INSTR_LIST) (operands : list OPERAND)
    : M unit :=
  modify (fun s => set_Instructions
            (update_instr (iid mul_def) (set_i_operands operands)
               (Instructions s)) s).

(** The name of the intrinsic, its arguments and its type on POWER and
    x86-64: the intrinsics of the target. *)
Definition mac_arguments (ilix matches : Z) (l r : OPERAND)
    (lhs_ili rhs_ili : Z) (isSinglePrec : bool) (llTy : LL_Type)
    : M (string * list OPERAND * LL_Type) :=
  '(intrinsicName, swap, fneg) ←
     of_option (get_mac_name ilix matches lhs_ili rhs_ili);
  let '(l, r) := if swap : bool then (r, l) else (l, r) in
  mul ← (if fneg : bool then
           inner ← second_operand_of_def l;
           of_option (head inner)
         else mret l);
  mul_def ← idef_of mul;
  match i_operands mul_def with
  | l_l :: l_r :: _ =>
      extend_multiply mul_def [l_l; l_r; r];;
      bump_use_count l (-1);;
      match target with
      | TARGET_LLVM_X8664 =>
          let vTy := ll_get_vector_type llTy (if isSinglePrec then 4 else 2) in
          args ← x86_promote_to_vector vTy [l_l; l_r; r];
          mret (intrinsicName, args, vTy)
      | _ => mret (intrinsicName, [l_l; l_r; r], llTy)
      end
  | _ => crash
  end.

(** The same on the other targets: the documented LLVM intrinsic
    [@llvm.fma.*]. *)
Definition fma_arguments (matches : Z) (opc : ILI_OP) (l r : OPERAND)
    (lhs_ili rhs_ili : Z) (isSinglePrec : bool) (llTy : LL_Type)
    : M (string * list OPERAND * LL_Type) :=
  '(l, r, _, _) ←
     fused_multiply_add_canonical_form matches opc l r lhs_ili rhs_ili;
  l0 ← of_option (head l);
  mul_def ← idef_of l0;
  match i_operands mul_def with
  | l_l :: l_r :: _ =>
      (* llvm.fma ::= madd(l.l * l.r + r) *)
      extend_multiply mul_def (l_l :: l_r :: r);;
      bump_use_count l0 (-1);;
      mret (if isSinglePrec then "fma.f32" else "fma.f64",
            l_l :: l_r :: r, llTy)%string
  | _ => crash
  end.

(** The call is made at the end of the list and the add is overwritten
    with it. *)
Definition fma_replace (insn : nat) (last : INSTR_LIST) (intrinsicName : string)
    (args : list OPERAND) (llTy : LL_Type) : M unit :=
  fmaop ← gen_call_llvm_intrinsic intrinsicName args llTy I_PICALL;
  fmaop ← match target with
          | TARGET_LLVM_X8664 =>
              bump_use_count fmaop 1;;
              gen_extract_vector fmaop 0
          | _ => mret fmaop
          end;
  bump_use_count fmaop 1;;
  fma ← idef_of fmaop;
  overwrite_fma_add insn (iid fma) (iid last);;
  modify (set_killCSE false).

(** Replace add instruction with an FMA when all conditions are met.
    [insn] is the address of the instruction. *)
Definition maybe_generate_fma (ilix : Z) (insn : nat) : M unit :=
  let lhs_ili := ILI_OPND ilix 1 in
  let rhs_ili := ILI_OPND ilix 2 in
  s ← get;
  add ← of_option (find_instr insn (Instructions s));
  let binops := i_operands add in
  if lhs_ili =? rhs_ili then mret tt
  else
    let matches := fused_multiply_add_candidate ilix in
    if matches =? 0 then mret tt
    else
      l ← of_option (if matches =? lhs_ili then head binops
                     else head (tail binops));
      multi ← fma_mult_has_mult_uses l;
      if multi : bool then mret tt
      else
        inner_multi ←
          (if opc_is_NEG (ILI_OPC matches) then
             inner ← second_operand_of_def l;
             m ← of_option (head inner);
             fma_mult_has_mult_uses m
           else mret false);
        if inner_multi : bool then mret tt
        else
          last ← of_option (last (Instructions s));
          l ← of_option (head binops);
          r ← of_option (head (tail binops));
          let opc := ILI_OPC ilix in
          (* put in canonical form: left:mult, right:_ *)
          modify (set_killCSE true);;
          clear_csed_list;;
          let isSinglePrec :=
            match mac_root_of opc with
            | Some root_FADD | Some root_FSUB => true
            | _ => false
            end in
          let llTy := make_lltype_from_dtype
                        (if isSinglePrec then DT_FLOAT else DT_DBLE) in
          '(intrinsicName, args, llTy) ←
            (if target_has_mac
             then mac_arguments ilix matches l r lhs_ili rhs_ili isSinglePrec llTy
             else fma_arguments matches opc l r lhs_ili rhs_ili isSinglePrec llTy);
          fma_replace insn last intrinsicName args llTy.

(** Find and rewrite any multiply-add opportunities: the loop visits the
    instructions of the list it was given, in order. *)
Fixpoint fma_rewrite_from (isns : list nat) : M unit :=
  match isns with
  | [] => mret tt
  | p :: next =>
      s ← get;
      instr ← of_option (find_instr p (Instructions s));
      let ilx := i_ilix instr in
      (if negb (ilx =? 0)
          && match i_tmps instr with
             | Some t => negb (bool_decide (i_operands instr = []))
                         && (0 <? usect s t)
             | None => false
             end
       then maybe_generate_fma ilx p
       else mret tt);;
      fma_rewrite_from next
  end.

Definition fma_rewrite : M unit :=
  s ← get;
  fma_rewrite_from (map iid (Instructions s)).

End FMA.

(** ** Statements

    [make_stmt] turns one statement of the ILT list into instructions.
    The engine is a parameter here as well; [gen_llvm_expr_chain] is its
    result together with the operands linked after it, which is what an
    instruction receives as its operand list. *)

Inductive STMT_Type : Type :=
  | STMT_NONE | STMT_RET | STMT_EXPR | STMT_LABEL | STMT_BR | STMT_ST
  | STMT_CALL | STMT_SMOVE | STMT_SZERO | STMT_DECL.

(** What [make_stmt] and [schedule] use of the rest of the bridge. *)
Class StmtEnv : Type := {
  gen_address_operand : Z -> Z -> bool -> option LL_Type -> Z -> M OPERAND;
  convert_int_size : Z -> OPERAND -> LL_Type -> M OPERAND;
  make_lltype_sz4v3_from_dtype : Z -> LL_Type;
  msz_dtype : Z -> Z;
  ILI_MSZ_OF_ST : Z -> Z;
  ll_type_int_bits : LL_Type -> Z;
  ll_type_bytes : LL_Type -> Z;
  LDST_LOGALIGN_MASK : Z;
  DT_SINT : Z;
  MSZ_WORD : Z;
  basesym_of : Z -> Z;
  CONVAL1G : Z -> Z;
  process_blockaddr_sptr : Z -> Z -> M Z;
  ad_acon : Z -> Z -> Z;
  addnme_var : Z -> Z;               (* addnme(NT_VAR, sptr, 0, 0) *)
  ad3ili : ILI_OP -> Z -> Z -> Z -> Z;
  ad4ili : ILI_OP -> Z -> Z -> Z -> Z -> Z;
  STYPEP_var : Z -> M unit;          (* STYPEP(sptr, ST_VAR) *)
  STYPEG_is_label : Z -> bool;       (* STYPEG(sptr) == ST_LABEL *)
  extend_abi_return_info : bool;     (* llvm_info.abi_info->extend_abi_return *)
  NME_SYM : Z -> Z;
  SCG_is_dummy : Z -> bool;          (* SCG(sym) == SC_DUMMY *)
  DPDSCG_currsub : Z;                (* DPDSCG(gbl.currsub) *)
  IL_RES_is_DP_or_SP : ILI_OP -> bool;
  gbl_usekmpc : bool;
  insert_entry_label_type : Z -> LL_Type;
      (* make_lltype_from_dtype(get_return_type(DTYPEG(sptr))) *)
  optimize_block : M unit;
  undo_recip_div : M unit;
  sched_instructions : M unit;
  XBIT_NOUNIFORM : bool;
  XBIT_GENERATE_SCALAR_FMA : bool;
  llvm_version_ge_3_7 : bool         (* get_llvm_version() >= LL_Version_3_7 *)
}.

Definition opc_is_addr_ret (opc : ILI_OP) : bool :=
  match opc with
  | IL_AADD | IL_ASUB | IL_ACON | IL_IAMV | IL_KAMV | IL_LDA => true
  | _ => false
  end.
Definition opc_is_JMP (opc : ILI_OP) : bool :=
  match opc with IL_JMP => true | _ => false end.
Definition opc_is_float_jump (opc : ILI_OP) : bool :=
  match opc with
  | IL_FCJMP | IL_FCJMPZ | IL_DCJMP | IL_DCJMPZ => true
  | _ => false
  end.
Definition opc_is_JMPM (opc : ILI_OP) : bool :=
  match opc with IL_JMPM | IL_JMPMK => true | _ => false end.
Definition opc_is_JMPA (opc : ILI_OP) : bool :=
  match opc with IL_JMPA => true | _ => false end.
Definition opc_is_STA (opc : ILI_OP) : bool :=
  match opc with IL_STA => true | _ => false end.
Definition opc_is_VST (opc : ILI_OP) : bool :=
  match opc with IL_VST => true | _ => false end.
Definition opc_is_VSTU (opc : ILI_OP) : bool :=
  match opc with IL_VSTU => true | _ => false end.
Definition opc_is_STSCMPLX (opc : ILI_OP) : bool :=
  match opc with IL_STSCMPLX => true | _ => false end.
Definition opc_is_STDCMPLX (opc : ILI_OP) : bool :=
  match opc with IL_STDCMPLX => true | _ => false end.
Definition opc_is_AIMV_AKMV (opc : ILI_OP) : bool :=
  match opc with IL_AIMV | IL_AKMV => true | _ => false end.
Definition opc_is_ACEXT (opc : ILI_OP) : bool :=
  match opc with IL_ACEXT => true | _ => false end.
Definition opc_is_ARGIR_DAIR (opc : ILI_OP) : bool :=
  match opc with IL_ARGIR | IL_DAIR => true | _ => false end.
Definition opc_is_DAIR (opc : ILI_OP) : bool :=
  match opc with IL_DAIR => true | _ => false end.
Definition opc_is_ARGAR_DAAR (opc : ILI_OP) : bool :=
  match opc with IL_ARGAR | IL_DAAR => true | _ => false end.
Definition ilty_is_STORE (t : ILTY) : bool :=
  match t with ILTY_STORE => true | _ => false end.
Definition ilty_is_LOAD (t : ILTY) : bool :=
  match t with ILTY_LOAD => true | _ => false end.

Section Statements.
Context `{Flags} `{InstrFlags} `{DebugInfo} `{ILI} `{SymTab} `{TypeBridge}
        `{Target} `{Helpers} `{StmtEnv}.
Variable gen_llvm_expr_chain : Z -> option LL_Type -> M (list OPERAND).
Variable arg_fuel : nat.

(** The engine's result proper. *)
Definition gen_llvm_expr_hd (ilix : Z) (expected_type : option LL_Type)
    : M OPERAND :=
  l ← gen_llvm_expr_chain ilix expected_type;
  of_option (head l).

Definition cancel_store (ilix op_ili addr_ili : Z) : bool :=
  let op_opc := ILI_OPC op_ili in
  let '(op_ili, op_opc) :=
    if is_cseili_opcode op_opc
    then (ILI_OPND op_ili 1, ILI_OPC (ILI_OPND op_ili 1))
    else (op_ili, op_opc) in
  if ilty_is_LOAD (IL_TYPE op_opc) then ILI_OPND op_ili 1 =? addr_ili
  else false.

(** The [STMT_LABEL] case, with the common head of [make_stmt] (which
    inserts nothing before a label). *)
Definition make_stmt_label (sptr : Z) : M unit :=
  modify (set_last_stmt_is_branch false);;
  process_sptr sptr;;
  Curr_Instr ← gen_instr I_NONE None None [make_label_op sptr];
  ad_instr sptr Curr_Instr.

(** The common head for the other statement types: a statement after a
    branch starts a new block under a new label. *)
Definition make_stmt_head : M unit :=
  s ← get;
  (if last_stmt_is_branch s then
     sptr_lab ← getlab;
     update_llvm_sym_arrays;;
     make_stmt_label sptr_lab
   else mret tt);;
  modify (set_last_stmt_is_branch false).

(** The operand of the return: the [switch] of the [STMT_RET] case. *)
Definition gen_ret_op (ilix : Z) (retTy : LL_Type) : M (list OPERAND) :=
  let has_entries := has_multiple_entries_currsub in
  let ty := if has_entries && negb gbl_arets then None else Some retTy in
  if opc_is_addr_ret (ILI_OPC ilix) then
    op ← gen_base_addr_operand ilix ty; mret [op]
  else (* IL_EXIT *) gen_llvm_expr_chain ilix ty.

Definition make_stmt_ret (ilix : Z) : M unit :=
  s ← get;
  let retTy := if extend_abi_return_info then make_lltype_from_dtype DT_INT
               else llvm_return_ll_type s in
  modify (set_last_stmt_is_branch true);;
  ret_op ← gen_ret_op ilix retTy;
  Curr_Instr ← gen_instr I_RET None None ret_op;
  ad_instr ilix Curr_Instr.

Definition make_stmt_br (ilix next_bih_label : Z) : M unit :=
  let opc := ILI_OPC ilix in
  if opc_is_JMP opc then (* unconditional jump *)
    modify (set_last_stmt_is_branch true);;
    let sptr := ILI_OPND ilix 1 in
    process_sptr sptr;;
    Curr_Instr ← gen_instr I_BR None None [make_target_op sptr];
    ad_instr ilix Curr_Instr
  else if exprjump opc || zerojump opc then (* cond or zero jump *)
    let sptr := if exprjump opc then ILI_OPND ilix 4 else ILI_OPND ilix 3 in
    process_sptr sptr;;
    Curr_Instr ← make_instr I_BR;
    tmps ← make_tmps;
    let cond := make_tmp_op (Some (make_int_lltype 1)) (Some tmps) in
    (* make the condition code *)
    ops ← gen_llvm_expr_chain ilix None;
    cmp ← gen_instr (if opc_is_float_jump opc then I_FCMP else I_ICMP)
            (Some tmps) (op_ll_type cond) ops;
    ad_instr ilix cmp;;
    let first_label := make_target_op sptr in
    (* need to make a label for the false condition *)
    sptr_lab ← (if negb (next_bih_label =? 0) then mret next_bih_label
                else l ← getlab; update_llvm_sym_arrays;; mret l);
    let second_label := make_target_op sptr_lab in
    ad_instr ilix (set_i_operands [cond; first_label; second_label] Curr_Instr);;
    (* now add the label instruction *)
    if next_bih_label =? 0 then make_stmt_label sptr_lab else mret tt
  else if opc_is_JMPM opc then
    (* unconditional jump *)
    gen_switch ilix;;
    modify (set_last_stmt_is_branch true)
  else if opc_is_JMPA opc then
    let arg1 := ILI_OPND ilix 1 in
    modify (set_last_stmt_is_branch true);;
    op1 ← gen_llvm_expr_chain arg1 (Some (make_lltype_from_dtype DT_CPTR));
    Curr_Instr ← gen_instr I_INDBR None None op1;
    ad_instr ilix Curr_Instr
  else crash (* "ilt branch: unexpected branch code" *).

Definition make_stmt_smove (ilix : Z) : M unit :=
  let from_ili := ILI_OPND ilix 1 in
  let to_ili := ILI_OPND ilix 2 in
  let length_ili := ILI_OPND ilix 3 in
  let opnd := ILI_OPND length_ili 1 in
  if negb (DTYPEG opnd =? DT_CPTR) then crash (* "expected DT_CPTR" *)
  else
    (* IL_SMOVE 3rd opnd has a 4-byte or 8-byte unit; we use it as bytes *)
    let bytes := CONVAL2G opnd * 8 in
    if bytes =? 0 then crash (* "expected smove byte size" *)
    else
      let from_nme := ILI_OPND ilix 4 in
      let ts := 8 * size_of DT_CPTR in
      src_op ← gen_llvm_expr_hd from_ili (Some (make_lltype_from_dtype DT_CPTR));
      dst_op ← gen_llvm_expr_hd to_ili (Some (make_lltype_from_dtype DT_CPTR));
      let dtype := dt_nme from_nme in
      let alignment := if negb (dtype =? 0) then align_of dtype else 1 in
      insert_llvm_memcpy ilix ts dst_op src_op bytes alignment.

Definition make_stmt_szero (ilix : Z) : M unit :=
  if negb (opc_is_ARGIR_DAIR (ILI_OPC ilix))
  then crash (* "expected ARGIR/DAIR for ilix" *)
  else
    let length_ili := ILI_OPND ilix 1 in
    let opnd := ILI_OPND length_ili 1 in
    let to_ili := if opc_is_DAIR (ILI_OPC ilix) then ILI_OPND ilix 3
                  else ILI_OPND ilix 2 in
    if negb (opc_is_ARGAR_DAAR (ILI_OPC to_ili))
    then crash (* "expected ARGAR/DAAR for ili" *)
    else
      let to_ili := ILI_OPND to_ili 1 in
      let bytes := CONVAL2G opnd in
      if bytes =? 0 then crash (* "expected szero byte size" *)
      else
        let ts := 8 * size_of DT_CPTR in
        dst_op ← gen_llvm_expr_hd to_ili
                   (Some (make_lltype_from_dtype DT_CPTR));
        insert_llvm_memset ilix ts dst_op bytes.

Definition is_LL_STRUCT (t : option LL_Type) : M bool :=
  t ← of_option t;
  mret match data_type t with LL_STRUCT => true | _ => false end.

(** The value and address operands of a store and the flags of its data
    type; [None] when the store was a block-address store, which
    [is_blockaddr_store] has made itself through [recur]. *)
Definition gen_store_operands (recur : Z -> M unit)
    (ilix rhs_ili lhs_ili nme : Z) : M (option (OPERAND * OPERAND * Z)) :=
  let msz := ILI_MSZ_OF_ST ilix in
  let vect_dtype := ili_get_vect_type ilix in
  let is_arm := match target with TARGET_LLVM_ARM => true | _ => false end in
  let arm_vect := is_arm && negb (vect_dtype =? 0) in
  let store_flags0 := if arm_vect then ldst_instr_flags_from_dtype vect_dtype
                      else 0 in
  let v4_llt :=
    if arm_vect && (DTY (vect_dtype + 2) =? 3) && opc_is_VST (ILI_OPC ilix)
    then Some (make_lltype_sz4v3_from_dtype vect_dtype) else None in
  let int_llt :=
    if arm_vect
       && negb ((DTY (vect_dtype + 2) =? 3) && opc_is_VST (ILI_OPC ilix))
    then
      if zsize_of vect_dtype =? 2 then Some (make_lltype_from_dtype DT_SINT)
      else if (zsize_of vect_dtype =? 4) && negb (DTY (vect_dtype + 2) =? 3)
      then Some (make_lltype_from_dtype DT_INT)
      else None
    else None in
  r ← (if opc_is_STA (ILI_OPC ilix) then
         let ptrTy := make_lltype_from_dtype DT_CPTR in
         op1 ← gen_base_addr_operand rhs_ili (Some ptrTy);
         mret (Some (op1, ldst_instr_flags_from_dtype DT_CPTR))
       else if negb (vect_dtype =? 0) then
         op1 ← gen_llvm_expr_hd rhs_ili
                 (Some match v4_llt with
                       | Some t => t
                       | None => make_lltype_from_dtype vect_dtype
                       end);
         op1 ← match int_llt with
               | Some t => make_bitcast op1 t
               | None => mret op1
               end;
         (* Clear alignment bits ==> alignment = 1 byte. *)
         mret (Some (op1,
                     if opc_is_VSTU (ILI_OPC ilix)
                     then Z.land store_flags0 (Z.lnot LDST_LOGALIGN_MASK)
                     else store_flags0))
       else
         (* is_blockaddr_store *)
         let rhs := if opc_is_AIMV_AKMV (ILI_OPC rhs_ili)
                    then ILI_OPND rhs_ili 1 else rhs_ili in
         if opc_is_ACEXT (ILI_OPC rhs) then
           let sptr := basesym_of nme in
           let label := CONVAL1G (ILI_OPND rhs 1) in
           process_sptr label;;
           gl_sptr ← process_blockaddr_sptr sptr label;
           (* MSZ could be 64 if it is 64-bit *)
           let ili := ad_acon gl_sptr 0 in
           STYPEP_var gl_sptr;;
           let newnme := addnme_var gl_sptr in
           let ili := ad3ili IL_LD ili newnme MSZ_WORD in
           let ili := ad4ili IL_ST ili lhs_ili nme MSZ_WORD in
           recur ili;;
           mret None
         else if opc_is_STSCMPLX (ILI_OPC ilix) then
           op1 ← gen_llvm_expr_hd rhs_ili (Some (make_lltype_from_dtype DT_CMPLX));
           mret (Some (op1, ldst_instr_flags_from_dtype DT_CMPLX))
         else if opc_is_STDCMPLX (ILI_OPC ilix) then
           op1 ← gen_llvm_expr_hd rhs_ili (Some (make_lltype_from_dtype DT_DCMPLX));
           mret (Some (op1, ldst_instr_flags_from_dtype DT_DCMPLX))
         else
           op1 ← gen_llvm_expr_hd rhs_ili (Some (make_type_from_msz msz));
           mret (Some (op1, ldst_instr_flags_from_dtype (msz_dtype msz))));
  match r with
  | None => mret None
  | Some (op1, store_flags) =>
      is_struct ← (if opc_is_STA (ILI_OPC ilix) then mret true
                   else is_LL_STRUCT (op_ll_type op1));
      let llt_expected :=
        if is_struct : bool then make_ptr_lltype <$> op_ll_type op1
        else None in
      store_op ←
        (if negb (vect_dtype =? 0) then
           let llt_expected :=
             match v4_llt, int_llt with
             | Some t, _ => make_ptr_lltype t
             | None, Some t => make_ptr_lltype t
             | None, None => make_ptr_lltype (make_lltype_from_dtype vect_dtype)
             end in
           gen_address_operand lhs_ili nme false (Some llt_expected) (-1)
         else gen_address_operand lhs_ili nme false llt_expected msz);
      store_ty ← of_option (op_ll_type store_op);
      op1_ty ← of_option (op_ll_type op1);
      op1 ← (match data_type store_ty, sub_types store_ty with
             | LL_PTR, pointee :: _ =>
                 if negb (ll_type_int_bits pointee =? 0)
                    && negb (ll_type_int_bits op1_ty =? 0)
                    && negb (ll_type_bytes pointee =? ll_type_bytes op1_ty)
                 then (* Need to add a conversion here *)
                   convert_int_size ilix op1 pointee
                 else mret op1
             | LL_PTR, [] => crash
             | _, _ => mret op1
             end);
      mret (Some (op1, store_op, store_flags))
  end.

(** The [STMT_ST] case. *)
Definition make_stmt_st (recur : Z -> M unit) (ilix : Z) (deletable : bool)
    : M unit :=
  modify (set_curr_ret_dtype DT_NONE);;
  let nme := ILI_OPND ilix 3 in
  let lhs_ili := ILI_OPND ilix 2 in
  let rhs_ili := ILI_OPND ilix 1 in
  if cancel_store ilix rhs_ili lhs_ili then mret tt
  else
    r ← gen_store_operands recur ilix rhs_ili lhs_ili nme;
    match r with
    | None => mret tt
    | Some (op1, store_op, store_flags) =>
        Curr_Instr ← make_instr I_STORE;
        let store_flags := if nme =? NME_VOL
                           then Z.lor store_flags VOLATILE_FLAG
                           else store_flags in
        store_flags ←
          (if IL_HAS_FENCE (ILI_OPC ilix) then
             f ← of_option (ll_instr_flags_for_memory_order_and_scope ilix);
             mret (Z.lor store_flags f)
           else mret store_flags);
        let flags := if deletable : bool then Z.lor store_flags DELETABLE
                     else store_flags in
        ad_instr ilix
          (set_i_operands [op1; store_op] (set_i_flags flags Curr_Instr))
    end.

(** [make_stmt]; [fuel] bounds the statements that a block-address store
    makes in turn. *)
Fixpoint make_stmt (fuel : nat) (stmt_type : STMT_Type) (ilix : Z)
    (deletable : bool) (next_bih_label : Z) : M unit :=
  match stmt_type with
  | STMT_LABEL => make_stmt_label ilix
  | _ =>
      make_stmt_head;;
      match stmt_type with
      | STMT_RET => make_stmt_ret ilix
      | STMT_DECL =>
          ops ← gen_llvm_expr_chain ilix None;
          Curr_Instr ← gen_instr I_DECL None None ops;
          ad_instr ilix Curr_Instr
      | STMT_CALL =>
          t ← getTempMap ilix;
          match t with
          | Some _ => mret tt
          | None =>
              _ ← gen_call_expr gen_llvm_expr_hd arg_fuel ilix 0 0;
              mret tt
          end
      | STMT_BR => make_stmt_br ilix next_bih_label
      | STMT_SMOVE => make_stmt_smove ilix
      | STMT_SZERO => make_stmt_szero ilix
      | STMT_ST =>
          match fuel with
          | O => crash
          | S fuel' =>
              make_stmt_st (fun ili => make_stmt fuel' STMT_ST ili false 0)
                ilix deletable
          end
      | _ => crash (* "make_stmt(): unknown statment type" *)
      end
  end.

End Statements.

(** ** The statement scheduler

    [schedule] walks the blocks ([BIH]) of the routine and the statements
    ([ILT]) of each block. *)

Record ILT : Type := mkILT {
  ILT_ILIP : Z;
  ILT_BR : bool;
  ILT_ST : bool;
  ILT_DELETE : bool;
  ILT_EX : bool;
  ILT_LINENO : Z
}.

Record BIH : Type := mkBIH {
  BIH_EN : bool;
  BIH_LABEL : Z;
  BIH_LAST : bool;
  BIH_TAIL : bool;
  BIH_PAR : bool;
  BIH_CS : bool;
  BIH_TASK : bool;
  BIH_NOMERGE : bool;
  BIH_ILTS : list ILT       (* BIH_ILTFIRST, ILT_NEXT ... *)
}.

(** The locals of [schedule] that live across statements. *)
Record sched_locals : Type := mkLocals {
  made_return : bool;
  merge_next_block : bool;
  first : bool;
  concurBih : Z
}.

Definition set_made_return (b : bool) (l : sched_locals) : sched_locals :=
  mkLocals b (merge_next_block l) (first l) (concurBih l).
Definition set_merge_next_block (b : bool) (l : sched_locals) : sched_locals :=
  mkLocals (made_return l) b (first l) (concurBih l).
Definition set_first (b : bool) (l : sched_locals) : sched_locals :=
  mkLocals (made_return l) (merge_next_block l) b (concurBih l).
Definition set_concurBih (n : Z) (l : sched_locals) : sched_locals :=
  mkLocals (made_return l) (merge_next_block l) (first l) n.

Definition opc_is_BCONCUR (opc : ILI_OP) : bool :=
  match opc with IL_BCONCUR => true | _ => false end.
Definition opc_is_ECONCUR (opc : ILI_OP) : bool :=
  match opc with IL_ECONCUR => true | _ => false end.
Definition opc_is_VMINMAX (opc : ILI_OP) : bool :=
  match opc with IL_VMIN | IL_VMAX => true | _ => false end.
Definition opc_is_JSR (opc : ILI_OP) : bool :=
  match opc with IL_JSR => true | _ => false end.
Definition opc_is_SMOVE (opc : ILI_OP) : bool :=
  match opc with IL_SMOVE => true | _ => false end.
Definition opc_is_LABEL (opc : ILI_OP) : bool :=
  match opc with IL_LABEL => true | _ => false end.
Definition opc_is_FENCE (opc : ILI_OP) : bool :=
  match opc with IL_FENCE => true | _ => false end.
Definition opc_is_DFR_SP_DP_CS (opc : ILI_OP) : bool :=
  match opc with IL_DFRSP | IL_DFRDP | IL_DFRCS => true | _ => false end.
Definition opc_is_call_stmt (opc : ILI_OP) : bool :=
  match opc with IL_JSR | IL_QJSR | IL_JSRA => true | _ => false end.
Definition opc_is_DEALLOC_NOP (opc : ILI_OP) : bool :=
  match opc with IL_DEALLOC | IL_NOP => true | _ => false end.
Definition opc_is_select_or_rmw (opc : ILI_OP) : bool :=
  match opc with
  | IL_ISELECT | IL_KSELECT | IL_ASELECT | IL_FSELECT | IL_DSELECT
  | IL_ATOMICRMWI | IL_ATOMICRMWKR | IL_ATOMICRMWA | IL_ATOMICRMWSP
  | IL_ATOMICRMWDP => true
  | _ => false
  end.

Section Schedule.
Context `{Flags} `{InstrFlags} `{DebugInfo} `{ILI} `{SymTab} `{TypeBridge}
        `{Target} `{Helpers} `{StmtEnv} `{PrinterExt}.
Variable gen_llvm_expr_chain : Z -> option LL_Type -> M (list OPERAND).
Variable arg_fuel : nat.
Variable fuel : nat.

Definition stmt (stmt_type : STMT_Type) (ilix : Z) (deletable : bool)
    (next_bih_label : Z) : M unit :=
  make_stmt gen_llvm_expr_chain arg_fuel fuel stmt_type ilix deletable
    next_bih_label.

Definition insert_entry_label (ilt : ILT) : M unit :=
  let ilix := ILT_ILIP ilt in
  let sptr := ILI_OPND ilix 1 in
  Curr_Instr ← gen_instr I_NONE None None [make_label_op sptr];
  ad_instr 0 Curr_Instr;;
  modify (set_llvm_return_ll_type
            (if gbl_arets then make_lltype_from_dtype DT_INT
             else insert_entry_label_type sptr)).

(** A label that is the target of a branch: a user label or a compiler
    created one. *)
Definition is_branch_target (sptr : Z) : bool :=
  negb (sptr =? 0) && (DEFDG sptr || CCSYMG sptr).

(** The routine return of the [return_with_call] part. *)
Definition schedule_return (ilix : Z) (l : sched_locals) : M sched_locals :=
  s ← get;
  if sret_sptr s =? 0 then
    let ilix2 := ILI_OPND ilix 1 in
    (* what type of return value *)
    (match IL_TYPE (ILI_OPC ilix2) with
     | ILTY_LOAD | ILTY_CONS | ILTY_ARTH | ILTY_DEFINE | ILTY_MOVE =>
         stmt STMT_RET ilix2 false 0
     | ty =>
         if match ty with ILTY_OTHER => true | _ => false end
            && XBIT 70 0x40000000 && IL_RES_is_DP_or_SP (ILI_OPC ilix2)
         then (* handle complex builtin *) stmt STMT_RET ilix2 false 0
         else if opc_is_select_or_rmw (ILI_OPC ilix2)
         then stmt STMT_RET ilix2 false 0
         else crash (* "schedule(): incompatible return type" *)
     end);;
    mret (set_made_return true l)
  else mret l.

(** The statements between [IL_BCONCUR] and [IL_ECONCUR] are skipped in
    the pass over the host routine (the first pass, which is the one
    reproduced here). *)
Definition concur_enabled : bool := XBIT 34 0x200 || gbl_usekmpc.

Definition count_concur (opc : ILI_OP) (l : sched_locals) : sched_locals :=
  if concur_enabled then
    if opc_is_BCONCUR opc then set_concurBih (concurBih l + 1) l
    else if opc_is_ECONCUR opc then set_concurBih (concurBih l - 1) l
    else l
  else l.

(** The body of the loop over the statements of a block, for one
    statement.  [first_of_block] says that [ilt] is [BIH_ILTFIRST(bih)],
    [last_of_block] that [ILT_NEXT(ilt)] is 0. *)
Definition schedule_ilt (bih : BIH) (bihnext : option BIH)
    (first_of_block last_of_block : bool) (ilt : ILT) (l : sched_locals)
    : M sched_locals :=
  if BIH_EN bih && first_of_block then
    if negb has_multiple_entries_currsub then mret l
    else
      l ← (if first l then
             insert_jump_entry_instr (ILT_ILIP ilt);; mret (set_first false l)
           else mret l);
      insert_entry_label ilt;;
      mret l
  else
    (if flg_debug || XBIT 120 0x1000 then lldbg_emit_line (ILT_LINENO ilt)
     else mret tt);;
    let ilix := ILT_ILIP ilt in
    let opc := ILI_OPC ilix in
    let l := count_concur opc l in
    if concur_enabled && negb (concurBih l =? 0) then mret l
    else if ILT_BR ilt then (* branch *)
      let next_bih_label :=
        match bihnext with
        | Some n => if last_of_block && is_branch_target (BIH_LABEL n)
                    then BIH_LABEL n else 0
        | None => 0
        end in
      stmt STMT_BR ilix false next_bih_label;;
      mret l
    else if (ILT_ST ilt || ILT_DELETE ilt) && ilty_is_STORE (IL_TYPE opc)
    then (* store *)
      let rhs_ili := ILI_OPND ilix 1 in
      let nme := ILI_OPND ilix 3 in
      (* can we ignore homing code? Try it here *)
      if is_rgdfili_opcode (ILI_OPC rhs_ili) then mret l
      else if BIH_EN bih && (0 <? NME_SYM nme) && SCG_is_dummy (NME_SYM nme)
      then (* homing code *) mret l
      else
        s ← get;
        stmt STMT_ST ilix
          (ENABLE_CSE_OPT s && ILT_DELETE ilt && ilty_is_STORE (IL_TYPE opc)) 0;;
        mret l
    else if opc_is_JSR opc && cgmain_init_call (ILI_OPND ilix 1) then
      stmt STMT_SZERO (ILI_OPND ilix 2) false 0;; mret l
    else if opc_is_SMOVE opc then
      stmt STMT_SMOVE ilix false 0;; mret l
    else if ILT_EX ilt then (* call *)
      if opc_is_LABEL opc then mret l (* gen_llvm_expr does not handle IL_LABEL *)
      else
        let ilix := if opc_is_DFR_SP_DP_CS opc then ILI_OPND ilix 1 else ilix in
        let opc := ILI_OPC ilix in
        if is_mvili_opcode opc then (* call part of the return *)
          schedule_return ilix l
        else if is_freeili_opcode opc then
          remove_from_csed_list fuel ilix;;
          stmt STMT_DECL ilix false 0;; mret l
        else if opc_is_call_stmt opc then (* call not in a return *)
          stmt STMT_CALL ilix false 0;; mret l
        else if negb (opc_is_DEALLOC_NOP opc) then
          stmt STMT_DECL ilix false 0;; mret l
        else mret l
    else if opc_is_FENCE opc then
      gen_llvm_fence_instruction ilix;; mret l
    else
      (* may be a return; otherwise mostly ignored *)
      if is_mvili_opcode opc then (* routine return *)
        schedule_return ilix l
      else if is_freeili_opcode opc then
        remove_from_csed_list fuel ilix;;
        stmt STMT_DECL ilix false 0;; mret l
      else if opc_is_LABEL opc then mret l (* ignore IL_LABEL *)
      else if BIH_LAST bih && negb (made_return l) then
        (* at end, make a NULL return statement if return not already made *)
        stmt STMT_RET ilix false 0;; mret l
      else if opc_is_SMOVE opc then
        (* moving/storing a block of memory *)
        stmt STMT_SMOVE ilix false 0;; mret l
      else mret l.

(** The statements that reach the last case of the body (no branch, no
    store, no block zeroing or move, no call, no fence) and are there
    neither a return, nor a free, nor a label. *)
Definition is_other_statement (ilt : ILT) : bool :=
  let ilix := ILT_ILIP ilt in
  let opc := ILI_OPC ilix in
  negb (ILT_BR ilt)
  && negb ((ILT_ST ilt || ILT_DELETE ilt) && ilty_is_STORE (IL_TYPE opc))
  && negb (opc_is_JSR opc && cgmain_init_call (ILI_OPND ilix 1))
  && negb (opc_is_SMOVE opc)
  && negb (ILT_EX ilt)
  && negb (opc_is_FENCE opc)
  && negb (is_mvili_opcode opc)
  && negb (is_freeili_opcode opc)
  && negb (opc_is_LABEL opc).

Fixpoint schedule_ilts (bih : BIH) (bihnext : option BIH)
    (first_of_block : bool) (ilts : list ILT) (l : sched_locals)
    : M sched_locals :=
  match ilts with
  | [] => mret l
  | ilt :: next =>
      l ← schedule_ilt bih bihnext first_of_block
            (bool_decide (next = [])) ilt l;
      schedule_ilts bih bihnext false next l
  end.

Definition build_csed_lists (ilts : list ILT) : M unit :=
  mapM_ (fun ilt => build_csed_list fuel (ILT_ILIP ilt)) ilts.

(** What happens to a block before its statements are scheduled;
    [false] when the block is an entry block that is skipped. *)
Definition schedule_block_head (bih : BIH) : M bool :=
  if BIH_EN bih then
    (* skip over an entry bih *)
    if (2 <=? Z.of_nat (length (BIH_ILTS bih)))%Z then mret true
    else if has_multiple_entries_currsub && (DPDSCG_currsub =? 0)
    then mret true
    else mret false
  else if is_branch_target (BIH_LABEL bih) then
    (* a label that's the target of a branch *)
    if negb (STYPEG_is_label (BIH_LABEL bih))
    then crash (* "schedule(), not ST_LABEL" *)
    else
      clear_csed_list;;
      stmt STMT_LABEL (BIH_LABEL bih) false 0;;
      mret true
  else mret true.

Definition can_merge_next_block (bih : BIH) (bihnext : option BIH) : bool :=
  match bihnext with
  | Some n =>
      (((flg_opt =? 1) && BIH_EN bih) || ((2 <=? flg_opt) && negb (BIH_TAIL bih)))
      && (BIH_LABEL n =? 0)
      && Bool.eqb (BIH_PAR n) (BIH_PAR bih)
      && Bool.eqb (BIH_CS n) (BIH_CS bih)
      && Bool.eqb (BIH_TASK n) (BIH_TASK bih)
      && negb (BIH_NOMERGE bih) && negb (BIH_NOMERGE n)
  | None => false
  end.

Definition schedule_block (bih : BIH) (bihnext : option BIH)
    (l : sched_locals) : M sched_locals :=
  go ← schedule_block_head bih;
  if go : bool then
    (* in general, ilts will correspond to statements *)
    build_csed_lists (BIH_ILTS bih);;
    (if negb (merge_next_block l) then modify (set_new_ebb true)
     else mret tt);;
    let l := set_merge_next_block (can_merge_next_block bih bihnext) l in
    schedule_ilts bih bihnext true (BIH_ILTS bih) l
  else mret l.

(** The loop over the blocks, from [BIH_NEXT(0)]. *)
Fixpoint schedule_blocks (blocks : list BIH) (l : sched_locals)
    : M sched_locals :=
  match blocks with
  | [] => mret l
  | bih :: next =>
      l ← schedule_block bih (head next) l;
      schedule_blocks next l
  end.

(** The passes of [schedule] over the finished instruction list, up to
    the point where it is printed. *)
Definition schedule_passes (gen_llvm_expr : Z -> option LL_Type -> M OPERAND)
    : M unit :=
  (if ENABLE_BLK_OPT then optimize_block else mret tt);;
  (if XBIT_NOUNIFORM && negb (XBIT 183 0x8000) && XBIT 15 4 && negb flg_ieee
   then undo_recip_div else mret tt);;
  (* try FMA rewrite *)
  (if XBIT_GENERATE_SCALAR_FMA && llvm_version_ge_3_7
   then fma_rewrite gen_llvm_expr else mret tt);;
  s ← get;
  if ENABLE_CSE_OPT s then
    remove_dead_instrs;;
    s ← get;
    match Instructions s with
    | [] => crash   (* Instructions->prev = NULL *)
    | _ =>
        if XBIT 183 0x40 then sched_instructions else mret tt
    end
  else mret tt.

(** The translation of the body of a routine: the entry label, the
    blocks, the passes. *)
Definition schedule_body (gen_llvm_expr : Z -> option LL_Type -> M OPERAND)
    (blocks : list BIH) : M sched_locals :=
  entry ← gen_instr I_NONE None None [make_label_op 0];
  ad_instr 0 entry;;
  modify (set_last_stmt_is_branch false);;
  mapM_ (fun bih => build_csed_lists (BIH_ILTS bih)) blocks;;
  l ← schedule_blocks blocks (mkLocals false false true 0);
  schedule_passes gen_llvm_expr;;
  mret l.

End Schedule.

(** ** What one step adds to the instruction list *)

Section Added.
Context `{InstrFlags}.

(** The instruction as [ad_instr] links it: with its [ilix], and marked as
    the start of an extended basic block when one is due. *)
Definition added (ilix : Z) (instr : INSTR_LIST) (s : cg_state) : INSTR_LIST :=
  let instr := set_i_ilix ilix instr in
  if new_ebb s then set_i_flags (Z.lor (i_flags instr) STARTEBB) instr
  else instr.

End Added.

(** One instruction was added at the tail and one temporary handed out. *)
Definition emits (s s' : cg_state) (instr : INSTR_LIST) : Prop :=
  Instructions s' = Instructions s ++ [instr]
  /\ next_tmps s' = S (next_tmps s)
  /\ killCSE s' = killCSE s
  /\ new_ebb s' = false.

(** ** The layout of the instruction flags

    What the memory-order field of [LL_InstrListFlags] must satisfy for
    the printer to read back what the lowering wrote: the five orders are
    distinct values of the field, the read-modify-write operations are
    values of their own field, and no other flag the lowering sets has a
    bit in the memory-order field or is the cancel flag. *)

Section FlagLayout.
Context `{InstrFlags}.

Definition within (f mask : Z) : Prop := Z.land f mask = f.
Definition apart (f mask : Z) : Prop := Z.land f mask = 0.

Definition memory_order_flags : list Z :=
  [ATOMIC_MONOTONIC_FLAG; ATOMIC_ACQUIRE_FLAG; ATOMIC_RELEASE_FLAG;
   ATOMIC_ACQ_REL_FLAG; ATOMIC_SEQ_CST_FLAG].

Definition rmw_op_flags : list Z :=
  [ATOMIC_XCHG_FLAG; ATOMIC_ADD_FLAG; ATOMIC_SUB_FLAG; ATOMIC_AND_FLAG;
   ATOMIC_OR_FLAG; ATOMIC_XOR_FLAG].

Definition atomic_flags_layout : Prop :=
  Forall (fun f => within f ATOMIC_MEM_ORD_FLAGS) memory_order_flags
  /\ NoDup memory_order_flags
  /\ Forall (fun f => within f ATOMIC_RMW_OP_FLAGS) rmw_op_flags
  /\ Forall (fun f => apart f ATOMIC_MEM_ORD_FLAGS)
       [ATOMIC_RMW_OP_FLAGS; ATOMIC_SINGLETHREAD_FLAG; VOLATILE_FLAG; STARTEBB]
  /\ Forall (fun f => apart f CANCEL_CALL_DBG_VALUE)
       [ATOMIC_MEM_ORD_FLAGS; ATOMIC_RMW_OP_FLAGS; ATOMIC_SINGLETHREAD_FLAG;
        VOLATILE_FLAG; STARTEBB].

End FlagLayout.

(** The names of the memory orders that LLVM has. *)
Definition llvm_memory_order_names : list string :=
  ["monotonic"; "acquire"; "release"; "acq_rel"; "seq_cst"]%string.

(** The operand that [set_csed_operand] leaves in the entry for
    [operand]: a fresh operand for the same temporary, or the operand
    itself when it has none. *)
Definition recorded (operand : OPERAND) : OPERAND :=
  match op_tmps operand with
  | Some _ => make_tmp_op (op_ll_type operand) (op_tmps operand)
  | None => operand
  end.

(** The entries of the CSE list after [clear_csed_list]. *)
Definition csed_cleared (s : cg_state) : Prop :=
  forall e, e ∈ csedList s ->
    csed_item_operand e = None /\ ili_count s (csed_ilix e) = 0.

(** ** What the printer writes around a label *)

Section LabelTokens.
Context `{SymTab} `{TypeBridge} `{PrinterExt}.

(** The names that the printer treats in its [switch] on control flow;
    none of them is an arithmetic, bit or conversion operation. *)
Definition control_names : list LL_InstrName :=
  [I_NONE; I_SW; I_RET; I_BR; I_INDBR].

Definition control_names_plain : Prop :=
  Forall (fun n => BINOP n || BITOP n || CONVERT n = false) control_names.

(** [!prev || !INSTR_IS_BRANCH(prev)] *)
Definition label_needs_branch (prev : option INSTR_LIST) : bool :=
  match prev with
  | None => true
  | Some p => negb (INSTR_IS_BRANCH p)
  end.

(** The branch written before a label. *)
Definition branch_to_label (sptr : Z) : list token :=
  [print_token TAB; print_token "br"; print_token " label %L";
   print_llvm_name sptr; print_nl].

(** The return written after a label that ends the routine. *)
Definition return_after_label (rt : LL_Type) : list token :=
  [print_nl; print_token TAB; print_token "ret"; print_space 1;
   write_type (if extend_abi_return then make_lltype_from_dtype DT_INT else rt)]
  ++ zero_value_tokens rt.

(** The condition under which a branch instruction is written at all. *)
Definition branch_is_written (prev : option INSTR_LIST) : bool :=
  match prev with
  | None => true
  | Some p =>
      negb (instr_eqb (i_name p) I_RET) && negb (instr_eqb (i_name p) I_RESUME)
      && negb (instr_eqb (i_name p) I_BR)
  end.

End LabelTokens.

(** ** The site of a fused multiply-add

    What the rewrite reads of the state: the instruction list, the use
    counts, the defining instructions, the allocators and the declared
    intrinsics. *)
Definition same_code (s s' : cg_state) : Prop :=
  Instructions s' = Instructions s
  /\ use_count s' = use_count s
  /\ idef s' = idef s
  /\ next_tmps s' = next_tmps s
  /\ next_iid s' = next_iid s
  /\ new_ebb s' = new_ebb s
  /\ declared_intrinsics s' = declared_intrinsics s.

(** Every instruction object of the list was made by [make_instr], and
    occurs once. *)
Definition instrs_allocated (s : cg_state) : Prop :=
  NoDup (iid <$> Instructions s)
  /\ forall i, i ∈ Instructions s -> (iid i < next_iid s)%nat.

(** The instruction that defines the temporary of an operand. *)
Definition def_of (s : cg_state) (op : OPERAND) : option INSTR_LIST :=
  t ← op_tmps op; id ← idef s !! t; find_instr id (Instructions s).

Section FmaSite.
Context `{ILI}.

(** The operand that holds the product: the matched operand of the add,
    or the operand of the negation that the matched operand is. *)
Definition multiply_operand (s : cg_state) (matches : Z) (l : OPERAND)
    : option OPERAND :=
  if opc_is_NEG (ILI_OPC matches)
  then negi ← def_of s l; head (tail (i_operands negi))
  else Some l.

End FmaSite.

(** The intrinsic can be declared with this type: it is new, or was
    declared with the same type. *)
Definition declarable (s : cg_state) (name : string) (func_type : LL_Type)
    : Prop :=
  match hashmap_lookup (declared_intrinsics s) name with
  | Some old_type => LL_Type_eqb old_type func_type = true
  | None => True
  end.

(** The add after the rewrite: the fields of the call in the object of
    the add. *)
Definition fused (call_flags : Z) (llTy : LL_Type) (operands : list OPERAND)
    (add : INSTR_LIST) : INSTR_LIST :=
  mkINSTR (iid add) 0 I_PICALL 0 call_flags (i_tmps add) (Some llTy) operands
    (i_dbg_line_op add) (i_traceComment add).

Section FmaCall.
Context `{InstrFlags} `{ILI} `{SymTab} `{TypeBridge} `{Target}.

(** The flags of a call of an intrinsic that [ad_instr] links. *)
Definition intrinsic_call_flags (s : cg_state) : Z :=
  let flags := Z.lor 0 CALL_INTRINSIC_FLAG in
  if new_ebb s then Z.lor flags STARTEBB else flags.

(** The callee operand of a call of the intrinsic [name]. *)
Definition intrinsic_callee (name : string) (return_type : LL_Type)
    (args : list OPERAND) : OPERAND :=
  mkOPERAND OT_CALL None
    (Some (make_ptr_lltype (make_function_type_from_args return_type args false)))
    0 0 (0, 0) (Some name) 0.

(** The name of the intrinsic, without its prefix. *)
Definition fma_intrinsic_name (ilix matches : Z) : option string :=
  match target with
  | TARGET_LLVM_POWER | TARGET_LLVM_X8664 =>
      r ← get_mac_name ilix matches (ILI_OPND ilix 1) (ILI_OPND ilix 2);
      Some (fst (fst r))
  | _ =>
      Some (match mac_root_of (ILI_OPC ilix) with
            | Some root_FADD | Some root_FSUB => "fma.f32"
            | _ => "fma.f64"
            end)%string
  end.

(** The type of the sum: float under a single-precision root, double
    otherwise. *)
Definition fma_result_type (ilix : Z) : LL_Type :=
  make_lltype_from_dtype
    (match mac_root_of (ILI_OPC ilix) with
     | Some root_FADD | Some root_FSUB => DT_FLOAT
     | _ => DT_DBLE
     end).

End FmaCall.

(** ** Shapes of instructions *)

(** What an instruction computes: its name, the temporary it defines and
    its operands. *)
Definition instr_shape (i : INSTR_LIST)
    : LL_InstrName * option TMPS * list OPERAND :=
  (i_name i, i_tmps i, i_operands i).

(** Every temporary among the operands of the list was handed out by
    [make_tmps] already. *)
Definition tmps_bounded (s : cg_state) : Prop :=
  forall i op t, i ∈ Instructions s -> op ∈ i_operands i ->
                 op_tmps op = Some t -> (t < next_tmps s)%nat.

(** Names that call a function. *)
Definition is_call_name (n : LL_InstrName) : bool :=
  match n with I_CALL | I_PICALL | I_INVOKE => true | _ => false end.

Section Shapes.
Context `{SymTab} `{TypeBridge}.

(** The instructions that [gen_cmplx_mul] adds for operands [c1] and [c2],
    when [t] is the first free temporary: the four component multiplies,
    the difference and the sum, and the two insertions. *)
Definition cmplx_mul_shapes (dtype : Z) (c1 c2 : OPERAND) (t : TMPS)
    : list (LL_InstrName * option TMPS * list OPERAND) :=
  let elt := Some (make_lltype_from_dtype
                     (if dtype =? DT_CMPLX then DT_FLOAT else DT_DBLE)) in
  let cmplx := Some (make_lltype_from_dtype dtype) in
  let tmp (k : nat) := make_tmp_op elt (Some (k + t)%nat) in
  [ (I_EXTRACTVAL, Some (0 + t)%nat, [c1; make_constval32_op (Some (make_int_lltype 32)) 0]);      (* a  *)
    (I_EXTRACTVAL, Some (1 + t)%nat, [c1; make_constval32_op (Some (make_int_lltype 32)) 1]);      (* b  *)
    (I_EXTRACTVAL, Some (2 + t)%nat, [c2; make_constval32_op (Some (make_int_lltype 32)) 0]);      (* c  *)
    (I_EXTRACTVAL, Some (3 + t)%nat, [c2; make_constval32_op (Some (make_int_lltype 32)) 1]);      (* d  *)
    (I_FMUL, Some (4 + t)%nat, [tmp 0; tmp 2]%nat);                 (* a*c *)
    (I_EXTRACTVAL, Some (5 + t)%nat, [c1; make_constval32_op (Some (make_int_lltype 32)) 0]);      (* a  *)
    (I_FMUL, Some (6 + t)%nat, [tmp 5; tmp 3]%nat);                 (* a*d *)
    (I_FMUL, Some (7 + t)%nat, [tmp 1; tmp 2]%nat);                 (* b*c *)
    (I_EXTRACTVAL, Some (8 + t)%nat, [c1; make_constval32_op (Some (make_int_lltype 32)) 1]);      (* b  *)
    (I_FMUL, Some (9 + t)%nat, [tmp 8; tmp 3]%nat);                 (* b*d *)
    (I_FSUB, Some (10 + t)%nat, [tmp 4; tmp 9]%nat);         (* a*c - b*d *)
    (I_FADD, Some (11 + t)%nat, [tmp 6; tmp 7]%nat);         (* a*d + b*c *)
    (I_INSERTVAL, Some (12 + t)%nat,
       [make_undef_op cmplx; tmp 10%nat; make_constval32_op (Some (make_int_lltype 32)) 0]);
    (I_INSERTVAL, Some (13 + t)%nat,
       [make_tmp_op cmplx (Some (12 + t)%nat); tmp 11%nat; make_constval32_op (Some (make_int_lltype 32)) 1]) ].

End Shapes.

(** ** The map of temporaries

    [consTempMap] allocates the map zeroed, [gcTempMap] frees it. *)
Definition consTempMap (size : Z) : M unit :=
  modify (fun s => set_tempsMap ∅ (set_tempsMap_size size s)).

Definition gcTempMap : M unit :=
  modify (fun s => set_tempsMap ∅ (set_tempsMap_size 0 s)).

(** [tempsMap.map[ilix]] when [ilix] is within the map, NULL otherwise. *)
Definition temp_at (s : cg_state) (ilix : Z) : option TMPS :=
  if (0 <=? ilix) && (ilix <? tempsMap_size s) then tempsMap s !! ilix else None.

(** ** The walk that builds the CSE list

    The ILI form a finite DAG: a measure that decreases from a node to
    its link operands and to the node under a CSE opcode, and does not
    increase from a node to its alternative. *)
Definition ili_ranked `{ILI} (rank : Z -> nat) : Prop :=
  forall ilix,
    (rank (prefer_alt ilix) <= rank ilix)%nat
    /\ (forall o, o ∈ link_operands ilix -> (rank o < rank ilix)%nat)
    /\ (is_cseili_opcode (ILI_OPC ilix) = true ->
        (rank (ILI_OPND ilix 1) < rank ilix)%nat).

(** [s'] is [s] with new entries in front of the CSE list, each without
    an operand and for an ILI that had no entry. *)
Definition csed_extends (s s' : cg_state) : Prop :=
  exists new,
    s' = set_csedList (new ++ csedList s) s
    /\ Forall (fun e => csed_item_operand e = None) new
    /\ NoDup (map csed_ilix new)
    /\ forall e, e ∈ new -> csed_lookup (csedList s) (csed_ilix e) = None.

(** ** Uses of a temporary

    The number of operands of a list that are references to the
    temporary [t] ([ot_type == OT_TMP] with [tmps == t]). *)
Fixpoint tmp_uses (operands : list OPERAND) (t : TMPS) : Z :=
  match operands with
  | [] => 0
  | op :: next =>
      (if ot_eqb (ot_type op) OT_TMP && bool_decide (op_tmps op = Some t)
       then 1 else 0) + tmp_uses next t
  end.

(** The number of operands that hold the temporary [t], whatever their
    kind ([op->tmps == t]). *)
Fixpoint tmp_holders (operands : list OPERAND) (t : TMPS) : Z :=
  match operands with
  | [] => 0
  | op :: next =>
      (if bool_decide (op_tmps op = Some t) then 1 else 0) + tmp_holders next t
  end.

(** The kinds of operand that [same_op] compares. *)
Definition comparable_kind (k : OperandType) : bool :=
  match k with
  | OT_TMP | OT_VAR | OT_CONSTVAL => true
  | _ => false
  end.

(** The names at which the search of [ad_csed_instr] stops at once. *)
Definition stops_cse (n : LL_InstrName) : bool :=
  match n with
  | I_SW | I_INVOKE | I_CALL => true
  | _ => false
  end.

(** ** A small configuration

    A concrete build (-O2, generic target), a concrete layout of the
    instruction flags and a small ILI table, on which the functions above
    can be run. *)

Module Demo.

Definition flags : Flags :=
  {| flg_opt := 2; flg_ieee := false; flg_debug := false; flg_x := fun _ => 0 |}.

(** -O0: no common subexpressions. *)
Definition flags_O0 : Flags :=
  {| flg_opt := 0; flg_ieee := false; flg_debug := false; flg_x := fun _ => 0 |}.

Definition instr_flags : InstrFlags :=
  {| DELETABLE := 0x1;
     STARTEBB := 0x2;
     CANCEL_CALL_DBG_VALUE := 0x4;
     VOLATILE_FLAG := 0x8;
     CALL_INTRINSIC_FLAG := 0x10;
     CALL_FUNC_PTR_FLAG := 0x20;
     NOUNWIND_CALL_FLAG := 0x40;
     FAST_MATH_FLAG := 0x80;
     FAST_CALL := 0x100;
     CALLCONV_SHIFT := 24;
     ATOMIC_MEM_ORD_FLAGS := 0x7000;
     ATOMIC_MONOTONIC_FLAG := 0x1000;
     ATOMIC_ACQUIRE_FLAG := 0x3000;
     ATOMIC_RELEASE_FLAG := 0x4000;
     ATOMIC_ACQ_REL_FLAG := 0x5000;
     ATOMIC_SEQ_CST_FLAG := 0x6000;
     ATOMIC_SINGLETHREAD_FLAG := 0x8000;
     ATOMIC_RMW_OP_FLAGS := 0xF0000;
     ATOMIC_SUB_FLAG := 0x10000;
     ATOMIC_ADD_FLAG := 0x20000;
     ATOMIC_XCHG_FLAG := 0x30000;
     ATOMIC_UMIN_FLAG := 0x40000;
     ATOMIC_MIN_FLAG := 0x50000;
     ATOMIC_UMAX_FLAG := 0x60000;
     ATOMIC_MAX_FLAG := 0x70000;
     ATOMIC_AND_FLAG := 0x80000;
     ATOMIC_OR_FLAG := 0x90000;
     ATOMIC_XOR_FLAG := 0xA0000 |}.

Definition debug_info : DebugInfo := {| lldbg_get_line := 0 |}.

(** Data types: 1 int, 2 int8, 3 float, 4 double, 5 complex, 6 double
    complex, 7 pointer, 10 a struct, 20 a vector of 3 floats. *)
Definition symtab : SymTab :=
  {| DTY := fun d => match d with
                     | 10 => 100 | 20 => 200 | 21 => 3 | 22 => 3 | _ => d
                     end;
     ty_kind := fun k => match k with
                         | 1 => TY_INT | 3 => TY_FLOAT | 4 => TY_DBLE
                         | 100 => TY_STRUCT | _ => TY_OTHER
                         end;
     DTYPEG := fun _ => 0;
     DEFDG := fun sptr => sptr =? 50;
     CCSYMG := fun sptr => 60 <=? sptr;
     DT_ISUNSIGNED := fun _ => false;
     DT_ISINT := fun d => (d =? 1) || (d =? 2);
     zsize_of := fun d => match d with 1 | 3 => 4 | 2 | 4 | 5 | 7 => 8 | _ => 16 end;
     DT_NONE := 0; DT_INT := 1; DT_INT8 := 2; DT_FLOAT := 3; DT_DBLE := 4;
     DT_CMPLX := 5; DT_DCMPLX := 6; DT_CPTR := 7; DT_128 := 8; DT_256 := 9;
     DT_MAX := 1000;
     has_multiple_entries_currsub := false;
     gbl_arets := false;
     currsub_fval_not_dummy := false |}.

Definition float_ty : LL_Type := LLT LL_FLOAT "float" [] 0.
Definition i32_ty : LL_Type := LLT LL_I32 "i32" [] 0.
Definition i64_ty : LL_Type := LLT LL_I64 "i64" [] 0.
Definition void_ty : LL_Type := LLT LL_VOID "void" [] 0.
Definition ptr_ty (t : LL_Type) : LL_Type :=
  LLT LL_PTR (str t ++ "*") [t] 0.

Definition type_bridge : TypeBridge :=
  {| make_lltype_from_dtype := fun d =>
       match d with
       | 1 => i32_ty
       | 2 => i64_ty
       | 3 => float_ty
       | 4 => LLT LL_DOUBLE "double" [] 0
       | 5 => LLT LL_STRUCT "{float, float}" [float_ty; float_ty] 2
       | 7 => ptr_ty (LLT LL_I8 "i8" [] 0)
       | 10 => LLT LL_STRUCT "%struct.s" [i64_ty; i64_ty] 2
       | 20 => LLT LL_VECTOR "<3 x float>" [float_ty] 3
       | _ => LLT LL_NOTYPE "?" [] 0
       end;
     make_ptr_lltype := ptr_ty;
     make_int_lltype := fun n => LLT (if n =? 1 then LL_I1 else LL_I32)
                                   ("i" ++ pretty n) [] 0;
     make_void_lltype := void_ty;
     make_type_from_msz := fun _ => i32_ty;
     make_type_from_opc := fun _ => i32_ty;
     ll_get_vector_type := fun t n => LLT LL_VECTOR "<vector>" [t] n;
     ll_create_function_type := fun l n _ =>
       LLT LL_FUNCTION "fn" (omap id l) n;
     ldst_instr_flags_from_dtype := fun _ => 0 |}.

Definition generic_target : Target :=
  {| target := TARGET_GENERIC; NEON_ENABLED := false |}.

(** The ILI table:
    1, 2, 3 scalar leaves; 4 = FMUL(1,2); 5 = FADD(4,3); 6 = CSESP(4);
    7 = SCMPLXMUL(8,9) over the complex leaves 8 and 9;
    10 = VMIN(11,12) on the vector type 20;
    13 = ATOMICRMWI(1,2); 14 = JSR(sym 70, 15) with 15 = GARGRET(16, 0, 10);
    17 = DFRIR(14); 18 = QJSR(sym 71, 0); 19 = DFRIR(18); 20 = EXIT;
    24 = FADD(4,4); 25 = FSUB(4,3); 30 = ST(1, 2, nme 0);
    31 = an ILI that moves the value of 4 to the return register. *)
Definition ili_table (i : Z) : ILI_OP * list Z :=
  match i with
  | 0 => (IL_NULL, [])
  | 4 => (IL_FMUL, [1; 2])
  | 5 => (IL_FADD, [4; 3])
  | 6 => (IL_CSESP, [4])
  | 7 => (IL_SCMPLXMUL, [8; 9])
  | 10 => (IL_VMIN, [11; 12; 20])
  | 13 => (IL_ATOMICRMWI, [1; 2; 0])
  | 14 => (IL_JSR, [70; 15])
  | 15 => (IL_GARGRET, [16; 0; 10])
  | 17 => (IL_DFRIR, [14; 0])
  | 18 => (IL_QJSR, [71; 0])
  | 19 => (IL_DFRIR, [18; 0])
  | 20 => (IL_EXIT, [])
  | 24 => (IL_FADD, [4; 4])
  | 25 => (IL_FSUB, [4; 3])
  | 30 => (IL_ST, [1; 2; 0])
  | 31 => (IL_OTHER 1000, [4])
  | _ => (IL_OTHER i, [])
  end.

Definition ili : ILI :=
  {| ILI_OPC := fun i => fst (ili_table i);
     ILI_OPND := fun i n => nth (Z.to_nat (n - 1)) (snd (ili_table i)) 0;
     ILI_ALT := fun _ => 0;
     IL_TYPE := fun opc => match opc with
                           | IL_ST => ILTY_STORE
                           | IL_LD => ILTY_LOAD
                           | IL_JSR | IL_QJSR | IL_JSRA => ILTY_PROC
                           | IL_FMUL | IL_FADD | IL_FSUB => ILTY_ARTH
                           | _ => ILTY_OTHER
                           end;
     IL_ISLINK := fun opc n =>
       match opc with
       | IL_FMUL | IL_FADD | IL_FSUB | IL_SCMPLXMUL => true
       | IL_CSESP | IL_DFRIR => n =? 1
       | _ => false
       end;
     ilis_oprs := fun opc =>
       match opc with
       | IL_FMUL | IL_FADD | IL_FSUB | IL_SCMPLXMUL => 2%nat
       | IL_CSESP | IL_DFRIR => 1%nat
       | _ => 0%nat
       end;
     is_mvili_opcode := fun opc => match opc with
                                   | IL_OTHER 1000 => true
                                   | _ => false
                                   end;
     is_freeili_opcode := fun _ => false;
     is_cseili_opcode := fun opc => match opc with IL_CSESP => true | _ => false end;
     is_rgdfili_opcode := fun _ => false;
     IL_HAS_FENCE := fun _ => false;
     ad1ili := fun _ i => i;
     memory_order := fun _ => MO_SEQ_CST;
     atomic_info := fun _ => mkATOMIC_INFO 0 AOP_ADD SS_PROCESS;
     ili_get_vect_type := fun i => if i =? 10 then 20 else 0;
     ili_throw_label := fun _ => 0;
     IL_RES_is_AR := fun opc => match opc with IL_OTHER 16 => true | _ => false end;
     NME_VOL := -1 |}.

(** A variable operand for the symbol [sptr]. *)
Definition var_op (sptr : Z) (ty : option LL_Type) : OPERAND :=
  mkOPERAND OT_VAR None ty sptr 0 (0, 0) None 0.

(** A register-return ABI with no hidden argument. *)
Definition abi_in_registers : LL_ABI_Info :=
  mkABI false false false false 0 0 false i64_ty i64_ty
    (LLT LL_FUNCTION "fn" [i64_ty] 0).

Section WithClasses.
#[local] Existing Instance flags.
#[local] Existing Instance instr_flags.
#[local] Existing Instance debug_info.
#[local] Existing Instance symtab.
#[local] Existing Instance type_bridge.
#[local] Existing Instance generic_target.
#[local] Existing Instance ili.

Definition helpers : Helpers :=
  {| gen_sptr := fun sptr => mret (var_op sptr None);
     make_var_op := fun sptr =>
       mret (var_op sptr (Some (ptr_ty (LLT LL_FUNCTION "fn" [i64_ty] 0))));
     make_bitcast := fun op ty => mret (set_op_ll_type (Some ty) op);
     gen_base_addr_operand := fun i ty => mret (var_op i ty);
     gen_arg_operand := fun _ _ i => mret (var_op i (Some i32_ty));
     ll_abi_from_call_site := fun _ _ => mret abi_in_registers;
     is_256_or_512_bit_math_intrinsic := fun _ => false;
     gen_call_as_llvm_instr := fun _ _ => mret None;
     update_return_type_for_ccfunc := fun _ _ => mret tt;
     dtype_from_return_type := fun _ => 1;
     consLoadDebug := fun _ _ _ => mret tt;
     getlab := mret 60;
     update_llvm_sym_arrays := mret tt;
     process_sptr := fun _ => mret tt;
     gen_switch := fun _ => mret tt;
     insert_llvm_memcpy := fun _ _ _ _ _ _ => mret tt;
     insert_llvm_memset := fun _ _ _ _ => mret tt;
     convert_to_llvm_cc := fun cc _ => cc;
     CC_LT := 1; CC_GT := 2; CMP_INT := 1; CMP_USG := 2; CMP_FLT := 4;
     OPF_ZEXT := 1; OPF_SEXT := 2;
     exprjump := fun _ => false;
     zerojump := fun _ => false;
     cgmain_init_call := fun _ => false;
     get_call_sptr := fun _ => 70;
     CONVAL2G := fun _ => 0;
     size_of := fun _ => 8;
     dt_nme := fun _ => 0;
     align_of := fun _ => 1;
     lldbg_emit_line := fun _ => mret tt;
     insert_jump_entry_instr := fun _ => mret tt;
     get_return_type := fun _ => 1 |}.

#[local] Existing Instance helpers.

Definition stmt_env : StmtEnv :=
  {| gen_address_operand := fun i _ _ ty _ =>
       mret (var_op i (Some (default (ptr_ty i32_ty) ty)));
     convert_int_size := fun _ op ty => mret (set_op_ll_type (Some ty) op);
     make_lltype_sz4v3_from_dtype := fun _ => LLT LL_VECTOR "<4 x float>" [float_ty] 4;
     msz_dtype := fun _ => 1;
     ILI_MSZ_OF_ST := fun _ => 0;
     ll_type_int_bits := fun t => match data_type t with
                                  | LL_I32 => 32 | LL_I64 => 64 | _ => 0
                                  end;
     ll_type_bytes := fun t => match data_type t with
                               | LL_I32 | LL_FLOAT => 4 | _ => 8
                               end;
     LDST_LOGALIGN_MASK := 0x700;
     DT_SINT := 11;
     MSZ_WORD := 0;
     basesym_of := fun n => n;
     CONVAL1G := fun _ => 0;
     process_blockaddr_sptr := fun sptr _ => mret sptr;
     ad_acon := fun _ _ => 0;
     addnme_var := fun n => n;
     ad3ili := fun _ _ _ _ => 0;
     ad4ili := fun _ _ _ _ _ => 0;
     STYPEP_var := fun _ => mret tt;
     STYPEG_is_label := fun _ => true;
     extend_abi_return_info := false;
     NME_SYM := fun n => n;
     SCG_is_dummy := fun _ => false;
     DPDSCG_currsub := 0;
     IL_RES_is_DP_or_SP := fun _ => false;
     gbl_usekmpc := false;
     insert_entry_label_type := fun _ => i32_ty;
     optimize_block := mret tt;
     undo_recip_div := mret tt;
     sched_instructions := mret tt;
     XBIT_NOUNIFORM := false;
     XBIT_GENERATE_SCALAR_FMA := true;
     llvm_version_ge_3_7 := true |}.

Definition printer_ext : PrinterExt :=
  {| BINOP := fun n => match n with
                       | I_FADD | I_FSUB | I_FMUL | I_ADD | I_SUB | I_MUL => true
                       | _ => false
                       end;
     BITOP := fun _ => false;
     CONVERT := fun _ => false;
     INSTR_IS_BRANCH := fun i => match i_name i with
                                 | I_BR | I_SW | I_RET | I_INDBR | I_RESUME => true
                                 | _ => false
                                 end;
     FLG_OMIT_OP_TYPE := 1;
     FROM_CMPXCHG_MEMORDER_FAIL := fun f => Z.shiftr f 4;
     other_dbg_line_written := fun _ => false;
     extend_abi_return := false |}.

(** Every other opcode is a leaf: the variable of its number, of the
    type expected (float when none is). *)
Definition lower_leaf (_ : Z -> option LL_Type -> M OPERAND) (ilix : Z)
    (expected_type : option LL_Type) : M OPERAND :=
  mret (var_op ilix (Some (default float_ty expected_type))).

Definition reconcile_none (_ : Z) (_ : LL_Type) (op : OPERAND) : M OPERAND :=
  mret op.

(** The lowering engine on this configuration. *)
Definition engine (ilix : Z) (expected_type : option LL_Type) : M OPERAND :=
  gen_llvm_expr lower_leaf reconcile_none 8 ilix expected_type.

Definition engine_chain (ilix : Z) (expected_type : option LL_Type)
    : M (list OPERAND) :=
  op ← engine ilix expected_type; mret [op].

End WithClasses.

(** The state at the start of a routine. *)
Definition init : cg_state :=
  mkState [] ∅ ∅ 0%nat 0%nat [] ∅ ∅ 100 false false false 0 void_ty 0 [].

(** An instruction list with a deletable store, a multiply and a call
    whose results are unused, and an add whose result is returned. *)
Definition dead_code_instrs : list INSTR_LIST :=
  [ mkINSTR 0 0 I_STORE 30 0x1 None None
      [var_op 1 (Some i32_ty); var_op 2 (Some (ptr_ty i32_ty))] 0 None;
    mkINSTR 1 0 I_FMUL 4 0 (Some 0%nat) (Some float_ty)
      [var_op 1 (Some float_ty); var_op 2 (Some float_ty)] 0 None;
    mkINSTR 2 0 I_CALL 14 0 (Some 1%nat) (Some i64_ty)
      [var_op 70 None] 0 None;
    mkINSTR 3 0 I_FADD 5 0 (Some 2%nat) (Some float_ty)
      [var_op 1 (Some float_ty); var_op 3 (Some float_ty)] 0 None;
    mkINSTR 4 0 I_RET 20 0 None None
      [make_tmp_op (Some float_ty) (Some 2%nat)] 0 None ].

Definition dead_code_state : cg_state :=
  set_use_count (<[2%nat := 1]> ∅)
    (set_next_iid 5%nat (set_next_tmps 3%nat (set_Instructions dead_code_instrs init))).

(** A multiply (ILI 4) and the add of its product and a third value
    (ILI 5); the product has [uses] uses. *)
Definition fma_site_instrs : list INSTR_LIST :=
  [ mkINSTR 0 0 I_FMUL 4 0 (Some 0%nat) (Some float_ty)
      [var_op 1 (Some float_ty); var_op 2 (Some float_ty)] 0 None;
    mkINSTR 1 0 I_FADD 5 0 (Some 1%nat) (Some float_ty)
      [make_tmp_op (Some float_ty) (Some 0%nat); var_op 3 (Some float_ty)] 0 None;
    mkINSTR 2 0 I_RET 20 0 None None
      [make_tmp_op (Some float_ty) (Some 1%nat)] 0 None ].

Definition fma_site_state (uses : Z) : cg_state :=
  set_use_count (<[0%nat := uses]> (<[1%nat := 1]> ∅))
    (set_idef (<[0%nat := 0%nat]> (<[1%nat := 1%nat]> ∅))
       (set_next_iid 3%nat
          (set_next_tmps 2%nat (set_Instructions fma_site_instrs init)))).

(** The sum of two products of the same ILI (ILI 24), each computed by
    an instruction of its own and used once. *)
Definition same_product_instrs : list INSTR_LIST :=
  [ mkINSTR 0 0 I_FMUL 4 0 (Some 0%nat) (Some float_ty)
      [var_op 1 (Some float_ty); var_op 2 (Some float_ty)] 0 None;
    mkINSTR 1 0 I_FMUL 4 0 (Some 1%nat) (Some float_ty)
      [var_op 1 (Some float_ty); var_op 2 (Some float_ty)] 0 None;
    mkINSTR 2 0 I_FADD 24 0 (Some 2%nat) (Some float_ty)
      [make_tmp_op (Some float_ty) (Some 0%nat);
       make_tmp_op (Some float_ty) (Some 1%nat)] 0 None;
    mkINSTR 3 0 I_RET 20 0 None None
      [make_tmp_op (Some float_ty) (Some 2%nat)] 0 None ].

Definition same_product_state : cg_state :=
  set_use_count (<[0%nat := 1]> (<[1%nat := 1]> (<[2%nat := 1]> ∅)))
    (set_idef (<[0%nat := 0%nat]> (<[1%nat := 1%nat]> (<[2%nat := 2%nat]> ∅)))
       (set_next_iid 4%nat
          (set_next_tmps 3%nat (set_Instructions same_product_instrs init)))).

(** A measure of the small ILI table. *)
Definition rank (ilix : Z) : nat :=
  if existsb (Z.eqb ilix) [5; 6; 24; 25] then 2
  else if existsb (Z.eqb ilix) [4; 7; 17; 19] then 1
  else 0.

(** The entry label that [schedule] puts first, and a label for the
    symbol 50. *)
Definition entry_label : INSTR_LIST :=
  mkINSTR 0 0 I_NONE 0 0 None None [make_label_op 0] 0 None.

Definition label_50 : INSTR_LIST :=
  mkINSTR 1 0 I_NONE 50 0 None None [make_label_op 50] 0 None.

(** A state in which the node [ilix] has been lowered to the temporary 0
    and recorded. *)
Definition cached_operand : OPERAND := make_tmp_op (Some float_ty) (Some 0%nat).

Definition cached_state (ilix : Z) : cg_state :=
  set_csedList [mkCSED ilix (Some cached_operand)]
    (set_ILI_COUNT (<[ilix := 1]> ∅) (set_next_tmps 1%nat init)).

(** A block that is not an entry, and a store statement with the delete
    mark for the ILI 30. *)
Definition plain_block (last : bool) (ilts : list ILT) : BIH :=
  mkBIH false 0 last false false false false false ilts.

Definition store_ilt : ILT := mkILT 30 false true true false 1.

(** A statement that returns the value of the ILI 4, and the exit
    statement. *)
Definition return_ilt : ILT := mkILT 31 false false false false 2.
Definition exit_ilt : ILT := mkILT 20 false false false false 3.

(** A last block that starts at the label 50 (a branch target). *)
Definition last_block (ilts : list ILT) : BIH :=
  mkBIH false 50 true false false false false false ilts.

Definition no_locals : sched_locals := mkLocals false false true 0.

End Demo.

(** * Properties *)

Ltac munfold :=
  unfold mbind, M_bind, mret, M_ret, modify, get, crash, of_option in *;
  simpl in *.

Lemma instr_eqb_eq a b : instr_eqb a b = true <-> a = b.
Proof.
  unfold instr_eqb. rewrite Nat.eqb_eq. split; [|congruence].
  destruct a, b; simpl; intros E; try reflexivity; discriminate E.
Qed.

Lemma elem_of_rev_iff {A} (x : A) (l : list A) : x ∈ rev l <-> x ∈ l.
Proof. rewrite !list_elem_of_In. symmetry. apply in_rev. Qed.

Lemma instr_eqb_refl a : instr_eqb a a = true.
Proof. by apply instr_eqb_eq. Qed.

Lemma usect_add_use_count s t d t' :
  usect (add_use_count t d s) t' = if decide (t = t') then usect s t + d else usect s t'.
Proof.
  unfold usect, add_use_count. simpl.
  destruct (decide (t = t')) as [->|Hne].
  - by rewrite lookup_insert_eq.
  - by rewrite lookup_insert_ne.
Qed.

Section DeadCode.
Context {Fl : Flags} {IFl : InstrFlags} {DI : DebugInfo}.

Lemma drop_operand_uses_ok operands s :
  operands_wf operands ->
  exists s', drop_operand_uses operands s = Some (tt, s')
    /\ Instructions s' = Instructions s
    /\ (forall t, usect s' t <= usect s t)
    /\ (forall t, (forall op, op ∈ operands -> ot_type op = OT_TMP ->
                     op_tmps op <> Some t) -> usect s' t = usect s t).
Proof.
  revert s. induction operands as [|op ops IH]; intros s Hwf.
  - exists s. split; [done|]. split; [done|]. split; intros; [lia|done].
  - apply Forall_cons in Hwf as [Hop Hops].
    simpl. munfold.
    destruct (ot_eqb (ot_type op) OT_TMP) eqn:E.
    + assert (ot_type op = OT_TMP) as Hot by (destruct (ot_type op); done).
      destruct (Hop Hot) as [t Ht]. rewrite Ht. simpl.
      destruct (IH (add_use_count t (-1) s) Hops) as (s' & -> & Hi & Hle & Hfr).
      exists s'. split; [done|]. split; [done|]. split.
      * intros t'. specialize (Hle t'). rewrite usect_add_use_count in Hle.
        destruct (decide (t = t')) as [->|]; lia.
      * intros t' Hno. rewrite Hfr.
        -- rewrite usect_add_use_count. destruct (decide (t = t')) as [->|]; [|done].
           exfalso. eapply Hno; [left|done|done].
        -- intros op' Hin. apply Hno. by right.
    + destruct (IH s Hops) as (s' & -> & Hi & Hle & Hfr).
      exists s'. split; [done|]. split; [done|]. split; [done|].
      intros t' Hno. apply Hfr. intros op' Hin. apply Hno. by right.
Qed.


Lemma filter_all {A} (P : A -> Prop) `{forall x, Decision (P x)} (l : list A) :
  Forall P l -> filter P l = l.
Proof.
  induction 1 as [|x l Hx Hl IH]; [done|].
  rewrite filter_cons_True by done. by rewrite IH.
Qed.

Lemma filter_iid_middle (pre post : list INSTR_LIST) (i : INSTR_LIST) :
  NoDup (iid <$> (pre ++ i :: post)) ->
  filter (fun j => iid j <> iid i) (pre ++ i :: post) = pre ++ post.
Proof.
  intros Hnd. rewrite fmap_app, fmap_cons in Hnd.
  apply NoDup_app in Hnd as (Hpre & Hdisj & Hpost).
  apply NoDup_cons in Hpost as [Hi Hpost].
  rewrite filter_app, filter_cons.
  destruct (decide (iid i <> iid i)) as [Hc|_]; [done|].
  f_equal.
  - apply filter_all. apply Forall_forall. intros j Hj Heq.
    apply (Hdisj (iid j)).
    + apply list_elem_of_fmap. eauto.
    + rewrite Heq. left.
  - apply filter_all. apply Forall_forall. intros j Hj Heq.
    apply Hi. rewrite <- Heq. apply list_elem_of_fmap. eauto.
Qed.

Lemma defs_before_uses_app_r pre post :
  defs_before_uses (pre ++ post) -> defs_before_uses post.
Proof. induction pre as [|a pre IH]; simpl; [done|]. intros [_ ?]. auto. Qed.

Lemma defs_before_uses_drop pre i post :
  defs_before_uses (pre ++ i :: post) -> defs_before_uses (pre ++ post).
Proof.
  induction pre as [|a pre IH]; simpl.
  - by intros [_ ?].
  - intros [Ha Hrest]. split; [|by apply IH].
    intros j t Hj. apply Ha.
    apply elem_of_cons in Hj as [->|Hj]; [left|right].
    apply elem_of_app in Hj as [Hj|Hj]; apply elem_of_app; [by left|right].
    by right.
Qed.

Lemma remove_dead_walk_ok rev_instrs : forall kept s,
  Instructions s = rev rev_instrs ++ kept ->
  NoDup (iid <$> Instructions s) ->
  instrs_wf rev_instrs ->
  exists s' kept0,
    remove_dead_walk rev_instrs s = Some (tt, s')
    /\ Instructions s' = kept0 ++ kept
    /\ sublist kept0 (rev rev_instrs)
    /\ (forall t, usect s' t <= usect s t)
    /\ (forall i, i ∈ rev_instrs -> is_call_like i = true -> i ∈ kept0)
    /\ (forall i, i ∈ kept0 -> is_deletable_store i = false)
    /\ (forall i, i ∈ rev_instrs -> i ∉ kept0 ->
          is_deletable_store i = true
          \/ (is_call_like i = false
              /\ exists t, i_tmps i = Some t /\ usect s' t <= 0))
    /\ (defs_before_uses (rev rev_instrs ++ kept) ->
        (forall k t, k ∈ kept -> is_call_like k = false ->
                     i_tmps k = Some t -> 0 < usect s t) ->
        forall k t, k ∈ kept0 ++ kept -> is_call_like k = false ->
                    i_tmps k = Some t -> 0 < usect s' t).
Proof.
  induction rev_instrs as [|instr prev IH]; intros kept s Hl Hnd Hwf.
  - exists s, []. simpl in *. split; [done|]. split; [done|].
    split; [constructor|]. split; [intros; lia|].
    split; [intros i Hi; by apply elem_of_nil in Hi|].
    split; [intros i Hi; by apply elem_of_nil in Hi|].
    split; [intros i Hi; by apply elem_of_nil in Hi|]. auto.
  - apply Forall_cons in Hwf as [Hwi Hwp].
    simpl in Hl. rewrite <- app_assoc in Hl. simpl in Hl.
    assert (Hrm : forall s0, Instructions s0 = Instructions s ->
              exists s1, remove_instr instr false s0 = Some (tt, s1)
                /\ Instructions s1 = rev prev ++ kept
                /\ (forall t, usect s1 t <= usect s0 t)
                /\ (forall t, ~ uses_tmp instr t -> usect s1 t = usect s0 t)).
    { intros s0 Hs0. unfold remove_instr. munfold.
      destruct (drop_operand_uses_ok (i_operands instr)
        (set_Instructions (filter (fun i => iid i <> iid instr) (Instructions s0)) s0) Hwi)
        as (s1 & -> & Hi1 & Hle & Hfr).
      exists s1. split; [done|]. split.
      { rewrite Hi1. simpl. rewrite Hs0, Hl. apply filter_iid_middle.
        by rewrite <- Hl. }
      split; [apply Hle|].
      intros t Hno. rewrite Hfr; [done|].
      intros op Hin Hot Ht. apply Hno. by exists op. }
    assert (Hremove :
      exists s1, remove_instr instr false s = Some (tt, s1)
        /\ Instructions s1 = rev prev ++ kept
        /\ (forall t, usect s1 t <= usect s t)
        /\ (forall t, ~ uses_tmp instr t -> usect s1 t = usect s t))
      by (by apply Hrm).
    clear Hrm.
    (* what happens when [instr] is unlinked *)
    assert (Hcase_rm :
      (is_deletable_store instr = true
       \/ (is_call_like instr = false
           /\ exists t, i_tmps instr = Some t /\ usect s t <= 0)) ->
      forall s1, remove_instr instr false s = Some (tt, s1) ->
      Instructions s1 = rev prev ++ kept ->
      (forall t, usect s1 t <= usect s t) ->
      (forall t, ~ uses_tmp instr t -> usect s1 t = usect s t) ->
      exists s' kept0,
        remove_dead_walk prev s1 = Some (tt, s')
        /\ Instructions s' = kept0 ++ kept
        /\ sublist kept0 (rev (instr :: prev))
        /\ (forall t, usect s' t <= usect s t)
        /\ (forall i, i ∈ instr :: prev -> is_call_like i = true -> i ∈ kept0)
        /\ (forall i, i ∈ kept0 -> is_deletable_store i = false)
        /\ (forall i, i ∈ instr :: prev -> i ∉ kept0 ->
              is_deletable_store i = true
              \/ (is_call_like i = false
                  /\ exists t, i_tmps i = Some t /\ usect s' t <= 0))
        /\ (defs_before_uses (rev (instr :: prev) ++ kept) ->
            (forall k t, k ∈ kept -> is_call_like k = false ->
                         i_tmps k = Some t -> 0 < usect s t) ->
            forall k t, k ∈ kept0 ++ kept -> is_call_like k = false ->
                        i_tmps k = Some t -> 0 < usect s' t)).
    { intros Hwhy s1 Hrun Hi1 Hle1 Hfr1.
      assert (Hnd1 : NoDup (iid <$> Instructions s1)).
      { rewrite Hi1. rewrite Hl in Hnd. rewrite fmap_app in *.
        rewrite fmap_cons in Hnd.
        apply NoDup_app in Hnd as (Ha & Hb & Hc).
        apply NoDup_cons in Hc as [Hc1 Hc2].
        apply NoDup_app. split; [done|]. split; [|done].
        intros x Hx Hx'. apply (Hb x Hx). by right. }
      destruct (IH kept s1 Hi1 Hnd1 Hwp)
        as (s' & kept0 & Hw & Hi' & Hsub & Hle & Hcall & Hdel & Hgone & Hlive).
      exists s', kept0. split; [done|]. split; [done|].
      split. { simpl. by apply sublist_inserts_r. }
      split. { intros t. specialize (Hle t). specialize (Hle1 t). lia. }
      split.
      { intros i Hi Hc. apply elem_of_cons in Hi as [->|Hi]; [|by apply Hcall].
        exfalso. destruct Hwhy as [Hd|[Hn _]]; [|congruence].
        unfold is_deletable_store in Hd. unfold is_call_like in Hc.
        apply andb_true_iff in Hd as [Hd _]. apply instr_eqb_eq in Hd.
        rewrite Hd in Hc. simpl in Hc. discriminate. }
      split; [done|].
      split.
      { intros i Hi Hni. apply elem_of_cons in Hi as [->|Hi]; [|by apply Hgone].
        destruct Hwhy as [Hd|(Hn & t & Ht & Hu)]; [by left|right].
        split; [done|]. exists t. split; [done|].
        specialize (Hle t). specialize (Hle1 t). lia. }
      intros Hdbu Hk. apply Hlive.
      { simpl in Hdbu. rewrite <- app_assoc in Hdbu. simpl in Hdbu.
        by apply defs_before_uses_drop in Hdbu. }
      intros k t Hkin Hkc Hkt. rewrite Hfr1; [by eapply Hk|].
      simpl in Hdbu. rewrite <- app_assoc in Hdbu. simpl in Hdbu.
      apply defs_before_uses_app_r in Hdbu. destruct Hdbu as [Hu _].
      apply (Hu k t); [by right|done]. }
    destruct Hremove as (s1 & Hrun & Hi1 & Hle1 & Hfr1).
    simpl. munfold.
    destruct (instr_eqb (i_name instr) I_STORE && tst (i_flags instr) DELETABLE) eqn:Hds.
    { rewrite Hrun. apply (Hcase_rm (or_introl Hds) s1); auto. }
    destruct ((negb (instr_eqb (i_name instr) I_CALL)
               && negb (instr_eqb (i_name instr) I_INVOKE)
               && negb (instr_eqb (i_name instr) I_ATOMICRMW))
              && match i_tmps instr with
                 | Some t => usect s t <=? 0
                 | None => false
                 end) eqn:Hdead.
    { rewrite Hrun. apply (Hcase_rm) with (s1 := s1); auto.
      right. apply andb_true_iff in Hdead as [Hk Hu].
      split.
      { unfold is_call_like.
        apply andb_true_iff in Hk as [Hk Hk3]. apply andb_true_iff in Hk as [Hk1 Hk2].
        apply negb_true_iff in Hk1, Hk2, Hk3. by rewrite Hk1, Hk2, Hk3. }
      destruct (i_tmps instr) as [t|]; [|done].
      exists t. split; [done|]. by apply Z.leb_le. }
    (* [instr] stays *)
    clear Hcase_rm Hrun Hi1 Hle1 Hfr1 s1.
    assert (Hl' : Instructions s = rev prev ++ (instr :: kept)) by done.
    destruct (IH (instr :: kept) s Hl' Hnd Hwp)
      as (s' & kept0 & Hw & Hi' & Hsub & Hle & Hcall & Hdel & Hgone & Hlive).
    exists s', (kept0 ++ [instr]). split; [done|].
    split. { by rewrite <- app_assoc. }
    split. { simpl. by apply sublist_app. }
    split; [done|].
    split.
    { intros i Hi Hc. apply elem_of_app.
      apply elem_of_cons in Hi as [->|Hi]; [right; left|left; by apply Hcall]. }
    split.
    { intros i Hi. apply elem_of_app in Hi as [Hi|Hi]; [by apply Hdel|].
      apply list_elem_of_singleton in Hi as ->. done. }
    split.
    { intros i Hi Hni. apply elem_of_cons in Hi as [->|Hi].
      - exfalso. apply Hni. apply elem_of_app. right. left.
      - apply Hgone; [done|]. intros Hin. apply Hni. apply elem_of_app. by left. }
    intros Hdbu Hk k t Hkin. rewrite <- app_assoc in Hkin. simpl in Hkin.
    revert k t Hkin. apply Hlive.
    { simpl in Hdbu. by rewrite <- app_assoc in Hdbu. }
    intros k t Hkin Hkc Hkt.
    apply elem_of_cons in Hkin as [->|Hkin]; [|by eapply Hk].
    unfold is_call_like in Hkc.
    apply orb_false_iff in Hkc as [Hkc Hk3]. apply orb_false_iff in Hkc as [Hk1 Hk2].
    rewrite Hk1, Hk2, Hk3, Hkt in Hdead. simpl in Hdead.
    apply Z.leb_gt in Hdead. done.
Qed.

End DeadCode.

(** ** Building blocks of the lowering *)

Section LoweringFacts.
Context {Fl : Flags} {IFl : InstrFlags} {DI : DebugInfo} {IL : ILI}
        {ST : SymTab} {TB : TypeBridge} {TG : Target} {HP : Helpers}.

Lemma count_operand_uses_ok operands s :
  operands_wf operands ->
  exists u, count_operand_uses operands s = Some (tt, set_use_count u s).
Proof.
  revert s. induction operands as [|op ops IH]; intros s Hwf.
  - exists (use_count s). by destruct s.
  - apply Forall_cons in Hwf as [Hop Hops]. simpl. munfold.
    destruct (ot_eqb (ot_type op) OT_TMP) eqn:E.
    + assert (ot_type op = OT_TMP) as Hot by (destruct (ot_type op); done).
      destruct (Hop Hot) as [t ->]. simpl.
      destruct (IH (add_use_count t 1 s) Hops) as [u ->]. by exists u.
    + destruct (IH s Hops) as [u ->]. by exists u.
Qed.

(** The state after [ad_instr]: the instruction is the new last one. *)
Lemma ad_instr_ok ilix instr s :
  operands_wf (i_operands instr) ->
  exists u, ad_instr ilix instr s
    = Some (tt, set_new_ebb false
                  (set_Instructions (Instructions s ++ [added ilix instr s])
                     (set_use_count u s))).
Proof.
  intros Hwf. unfold ad_instr. munfold.
  destruct (count_operand_uses_ok (i_operands instr) s Hwf) as [u ->].
  exists u. simpl. unfold added. by destruct (new_ebb s).
Qed.

Lemma added_shape ilix instr s :
  instr_shape (added ilix instr s) = instr_shape instr.
Proof. unfold added. by destruct (new_ebb s). Qed.


Lemma gen_instr_ok name tmps ty ops s :
  exists s' instr, gen_instr name tmps ty ops s = Some (instr, s')
    /\ instr_shape instr = (name, tmps, ops)
    /\ Instructions s' = Instructions s /\ next_tmps s' = next_tmps s
    /\ killCSE s' = killCSE s /\ new_ebb s' = new_ebb s.
Proof.
  unfold gen_instr, make_instr. munfold.
  destruct tmps as [t|]; simpl; eexists _, _; (split; [reflexivity|]); done.
Qed.

Lemma gen_extract_value_ok aggr adt edt idx s :
  operands_wf [aggr] ->
  exists s' instr,
    gen_extract_value aggr adt edt idx s
      = Some (make_tmp_op (Some (make_lltype_from_dtype edt)) (Some (next_tmps s)), s')
    /\ emits s s' instr
    /\ instr_shape instr
       = (I_EXTRACTVAL, Some (next_tmps s), [aggr; make_constval32 idx]).
Proof.
  intros Hwf. unfold gen_extract_value, gen_extract_value_ll.
  unfold mbind at 1, M_bind at 1, make_tmps at 1.
  unfold mbind at 1, M_bind at 1.
  destruct (gen_instr_ok I_EXTRACTVAL
              (op_tmps (make_tmp_op (Some (make_lltype_from_dtype edt)) (Some (next_tmps s))))
              (Some (make_lltype_from_dtype adt)) [aggr; make_constval32 idx]
              (set_next_tmps (S (next_tmps s)) s))
    as (s1 & instr & -> & Hsh & Hi1 & Hn1 & Hk1 & He1).
  assert (Hwf' : operands_wf (i_operands instr)).
  { unfold instr_shape in Hsh. injection Hsh as _ _ ->.
    apply Forall_cons in Hwf as [Ha _]. repeat constructor; [done|]. done. }
  destruct (ad_instr_ok 0 instr s1 Hwf') as [u Had].
  unfold mbind, M_bind. rewrite Had. simpl.
  eexists _, _. split; [reflexivity|]. split.
  - unfold emits. simpl. rewrite Hi1, Hn1, Hk1. done.
  - by rewrite added_shape.
Qed.

Lemma find_csed_instr_none rev_instrs name ops :
  (forall i, i ∈ rev_instrs -> i_name i = name ->
             same_operands (i_operands i) ops = false) ->
  find_csed_instr rev_instrs name ops = None.
Proof.
  induction rev_instrs as [|i l IH]; intros Hno; [done|]. simpl.
  destruct (instr_eqb (i_name i) name) eqn:E.
  - apply instr_eqb_eq in E. rewrite (Hno i); [|left|done]. simpl.
    assert (IH' : find_csed_instr l name ops = None)
      by (apply IH; intros j Hj; apply Hno; by right).
    rewrite IH'.
    destruct (i_name i), ENABLE_ENHANCED_CSE_OPT, (tst (i_flags i) STARTEBB); done.
  - simpl.
    assert (IH' : find_csed_instr l name ops = None)
      by (apply IH; intros j Hj; apply Hno; by right).
    rewrite IH'.
    destruct (i_name i), ENABLE_ENHANCED_CSE_OPT, (tst (i_flags i) STARTEBB); done.
Qed.

Lemma ad_csed_instr_fresh name ilix ty ops flags do_cse s :
  operands_wf ops ->
  (forall i, i ∈ Instructions s -> i_name i = name ->
             same_operands (i_operands i) ops = false) ->
  exists s' instr,
    ad_csed_instr name ilix ty ops flags do_cse s
      = Some (make_tmp_op ty (Some (next_tmps s)), s')
    /\ emits s s' instr
    /\ instr_shape instr = (name, Some (next_tmps s), ops).
Proof.
  intros Hwf Hno. unfold ad_csed_instr.
  unfold mbind at 1, M_bind at 1, get at 1.
  assert (Hnone : (if do_cse && ENABLE_CSE_OPT s && negb (new_ebb s)
                   then find_csed_instr (rev (Instructions s)) name ops
                   else None) = None).
  { destruct (do_cse && ENABLE_CSE_OPT s && negb (new_ebb s)); [|done].
    apply find_csed_instr_none. intros i Hi. apply Hno.
    by rewrite elem_of_rev_iff in Hi. }
  rewrite Hnone.
  unfold mbind at 1, M_bind at 1, make_tmps at 1.
  unfold mbind at 1, M_bind at 1.
  destruct (gen_instr_ok name (op_tmps (make_tmp_op ty (Some (next_tmps s)))) ty ops
              (set_next_tmps (S (next_tmps s)) s))
    as (s1 & instr & -> & Hsh & Hi1 & Hn1 & Hk1 & He1).
  assert (Hwf' : operands_wf (i_operands (set_i_flags flags instr))).
  { unfold instr_shape in Hsh. injection Hsh as _ _ <-. done. }
  destruct (ad_instr_ok ilix (set_i_flags flags instr) s1 Hwf') as [u Had].
  unfold mbind, M_bind. rewrite Had. simpl.
  eexists _, _. split; [reflexivity|]. split.
  - unfold emits. simpl. rewrite Hi1, Hn1, Hk1. done.
  - rewrite added_shape. done.
Qed.


Lemma ad_csed_instr_no_cse name ilix ty ops flags s :
  operands_wf ops ->
  exists s' instr,
    ad_csed_instr name ilix ty ops flags false s
      = Some (make_tmp_op ty (Some (next_tmps s)), s')
    /\ emits s s' instr
    /\ instr_shape instr = (name, Some (next_tmps s), ops).
Proof.
  intros Hwf. unfold ad_csed_instr.
  unfold mbind at 1, M_bind at 1, get at 1.
  change (false && ENABLE_CSE_OPT s && negb (new_ebb s)) with false. cbv iota.
  unfold mbind at 1, M_bind at 1, make_tmps at 1.
  unfold mbind at 1, M_bind at 1.
  destruct (gen_instr_ok name (op_tmps (make_tmp_op ty (Some (next_tmps s)))) ty ops
              (set_next_tmps (S (next_tmps s)) s))
    as (s1 & instr & -> & Hsh & Hi1 & Hn1 & Hk1 & He1).
  assert (Hwf' : operands_wf (i_operands (set_i_flags flags instr))).
  { unfold instr_shape in Hsh. injection Hsh as _ _ <-. done. }
  destruct (ad_instr_ok ilix (set_i_flags flags instr) s1 Hwf') as [u Had].
  unfold mbind, M_bind. rewrite Had. simpl.
  eexists _, _. split; [reflexivity|]. split.
  - unfold emits. simpl. rewrite Hi1, Hn1, Hk1. done.
  - rewrite added_shape. done.
Qed.

End LoweringFacts.

(** ** C4: complex multiply *)

Lemma bind_Some {A B} (m : M A) (f : A -> M B) s a s1 :
  m s = Some (a, s1) -> (m ≫= f) s = f a s1.
Proof. intros E. unfold mbind, M_bind. by rewrite E. Qed.

Lemma same_operands_tmp_ne ty1 ty2 (T1 T2 : TMPS) r1 r2 :
  T1 <> T2 ->
  same_operands (make_tmp_op ty1 (Some T1) :: r1) (make_tmp_op ty2 (Some T2) :: r2)
  = false.
Proof.
  intros Hne. simpl. unfold same_op. simpl.
  rewrite bool_decide_eq_false_2; [done|]. congruence.
Qed.

Lemma no_match_in_old s i ty (T : TMPS) rest :
  tmps_bounded s -> i ∈ Instructions s -> (next_tmps s <= T)%nat ->
  same_operands (i_operands i) (make_tmp_op ty (Some T) :: rest) = false.
Proof.
  intros Hb Hi Hle. destruct (i_operands i) as [|o os] eqn:Eo; [done|].
  simpl. unfold same_op. simpl.
  destruct (ot_eqb (ot_type o) OT_TMP) eqn:Eot; [|done]. simpl.
  assert (ot_type o = OT_TMP) as -> by (destruct (ot_type o); done).
  rewrite bool_decide_eq_false_2; [done|].
  intros Ho. assert (T < next_tmps s)%nat; [|lia].
  apply (Hb i o T Hi); [|done]. rewrite Eo. left.
Qed.

Section ComplexMul.
Context {Fl : Flags} {IFl : InstrFlags} {DI : DebugInfo} {IL : ILI}
        {ST : SymTab} {TB : TypeBridge} {TG : Target} {HP : Helpers}.
Variable gen_llvm_expr : Z -> option LL_Type -> M OPERAND.


Lemma instr_shape_inv i n t ops :
  instr_shape i = (n, t, ops) -> i_name i = n /\ i_tmps i = t /\ i_operands i = ops.
Proof. unfold instr_shape. intros [= -> -> ->]. done. Qed.

(** Run one [gen_extract_value] of the goal from state [sk]. *)
Ltac step_extract Hwf sk :=
  let s' := fresh "s" in let i := fresh "i" in
  let Hrun := fresh "Hrun" in let Hem := fresh "Hem" in
  let Hsh := fresh "Hsh" in
  let HI := fresh "HI" in let HN := fresh "HN" in
  let HK := fresh "HK" in let HE := fresh "HE" in
  let Hnm := fresh "Hnm" in let Htm := fresh "Htm" in let Hops := fresh "Hops" in
  match goal with
  | |- context [gen_extract_value ?aggr ?adt ?edt ?idx] =>
      destruct (gen_extract_value_ok aggr adt edt idx sk Hwf)
        as (s' & i & Hrun & Hem & Hsh);
      rewrite (bind_Some _ _ _ _ _ Hrun); clear Hrun;
      destruct Hem as (HI & HN & HK & HE);
      apply instr_shape_inv in Hsh as (Hnm & Htm & Hops)
  end.

(** An instruction of the list cannot be taken for the one about to be
    added: its first operand is an older temporary. *)
Ltac solve_nomatch s2 HI :=
  let j := fresh "j" in let Hj := fresh "Hj" in let Hname := fresh "Hname" in
  intros j Hj Hname; rewrite HI in Hj;
  repeat (apply elem_of_app in Hj as [Hj|Hj]);
  [ apply (no_match_in_old s2); [assumption|assumption|lia]
  | (apply list_elem_of_singleton in Hj; subst j;
     first [ congruence
           | match goal with
             | Ho : i_operands ?k = _ |- same_operands (i_operands ?k) _ = false =>
                 rewrite Ho; apply same_operands_tmp_ne; lia
             end ]).. ].

(** Run one [ad_csed_instr] of the goal from state [sk], whose
    instruction list is given by [HIk]. *)
Ltac step_csed s2 sk HIk :=
  let s' := fresh "s" in let i := fresh "i" in
  let Hrun := fresh "Hrun" in let Hem := fresh "Hem" in
  let Hsh := fresh "Hsh" in
  let HI := fresh "HI" in let HN := fresh "HN" in
  let HK := fresh "HK" in let HE := fresh "HE" in
  let Hnm := fresh "Hnm" in let Htm := fresh "Htm" in let Hops := fresh "Hops" in
  match goal with
  | |- context [ad_csed_instr ?name ?ilix ?ty ?ops ?flags ?cse] =>
      let Hpre := fresh "Hpre" in
      assert (Hpre : forall i, i ∈ Instructions sk -> i_name i = name ->
                               same_operands (i_operands i) ops = false)
        by (solve_nomatch s2 HIk);
      destruct (ad_csed_instr_fresh name ilix ty ops flags cse sk
                  ltac:(repeat constructor; done) Hpre)
        as (s' & i & Hrun & Hem & Hsh);
      clear Hpre;
      rewrite (bind_Some _ _ _ _ _ Hrun); clear Hrun;
      destruct Hem as (HI & HN & HK & HE);
      apply instr_shape_inv in Hsh as (Hnm & Htm & Hops)
  end.

(** C4.  For a complex multiply node whose two operands lower to [c1] and
    [c2], [gen_cmplx_mul] returns, and what it adds to the instruction
    list is exactly: the extractions of the components, the four
    component multiplies a*c, a*d, b*c and b*d, the subtraction
    (a*c) - (b*d), the addition (a*d) + (b*c), the insertion of the real
    part at index 0 and of the imaginary part at index 1; none of the
    added instructions is a call. *)
Theorem gen_cmplx_mul_four_multiplies ilix dtype s c1 s1 c2 s2 :
  gen_llvm_expr (ILI_OPND ilix 1) (Some (make_lltype_from_dtype dtype)) s
    = Some (c1, s1) ->
  gen_llvm_expr (ILI_OPND ilix 2) (Some (make_lltype_from_dtype dtype)) s1
    = Some (c2, s2) ->
  operands_wf [c1; c2] ->
  tmps_bounded s2 ->
  exists s' new,
    gen_cmplx_mul gen_llvm_expr ilix dtype s
      = Some (make_tmp_op (Some (make_lltype_from_dtype dtype))
                (Some (13 + next_tmps s2)%nat), s')
    /\ Instructions s' = Instructions s2 ++ new
    /\ map instr_shape new = cmplx_mul_shapes dtype c1 c2 (next_tmps s2)
    /\ length (List.filter (fun i => instr_eqb (i_name i) I_FMUL) new) = 4%nat
    /\ Forall (fun i => is_call_name (i_name i) = false) new.
Proof.
  intros H1 H2 Hwf Hb.
  apply Forall_cons in Hwf as [Hw1 Hw2]. apply Forall_cons in Hw2 as [Hw2 _].
  assert (Hwc1 : operands_wf [c1]) by (by constructor).
  assert (Hwc2 : operands_wf [c2]) by (by constructor).
  unfold gen_cmplx_mul, gen_eval_cmplx_value, gen_copy_operand, gen_copy_op.
  rewrite (bind_Some _ _ _ _ _ H1), (bind_Some _ _ _ _ _ H2).
  set (elt := if dtype =? DT_CMPLX then DT_FLOAT else DT_DBLE).
  set (t := next_tmps s2) in *.
  step_extract Hwc1 s2.
  step_extract Hwc1 s0. rewrite HI, HN in *.
  step_extract Hwc2 s3. rewrite HI0, HN0 in *.
  step_extract Hwc2 s4. rewrite HI1, HN1 in *.
  step_csed s2 s5 HI2. rewrite HI2, HN2 in *.
  step_extract Hwc1 s6. rewrite HI3, HN3 in *.
  step_csed s2 s7 HI4. rewrite HI4, HN4 in *.
  step_csed s2 s8 HI5. rewrite HI5, HN5 in *.
  step_extract Hwc1 s9. rewrite HI6, HN6 in *.
  step_csed s2 s10 HI7. rewrite HI7, HN7 in *.
  step_csed s2 s11 HI8. rewrite HI8, HN8 in *.
  step_csed s2 s12 HI9. rewrite HI9, HN9 in *.
  unfold gen_insert_value.
  match goal with
  | |- context [ad_csed_instr ?n ?x ?ty ?ops ?f false] =>
      destruct (ad_csed_instr_no_cse n x ty ops f s13 ltac:(repeat constructor; done))
        as (s14 & i13 & Hrun & (HI11 & HN11 & _ & _) & Hsh)
  end.
  apply instr_shape_inv in Hsh as (Hnm11 & Htm11 & Hops11).
  rewrite (bind_Some _ _ _ _ _ Hrun); clear Hrun. rewrite HI10, HN10 in *.
  simpl op_ll_type.
  match goal with
  | |- context [ad_csed_instr ?n ?x ?ty ?ops ?f false s14] =>
      destruct (ad_csed_instr_no_cse n x ty ops f s14 ltac:(repeat constructor; done))
        as (s15 & i14 & Hrun & (HI12 & HN12 & _ & _) & Hsh)
  end.
  apply instr_shape_inv in Hsh as (Hnm12 & Htm12 & Hops12).
  rewrite HN11 in *. rewrite Hrun.
  rewrite HI11 in HI12.
  exists s15, [i; i0; i1; i2; i3; i4; i5; i6; i7; i8; i9; i10; i13; i14].
  split; [reflexivity|].
  split. { rewrite HI12. by rewrite <- !app_assoc. }
  split.
  { unfold cmplx_mul_shapes, instr_shape. simpl.
    rewrite Hnm, Hnm0, Hnm1, Hnm2, Hnm3, Hnm4, Hnm5, Hnm6, Hnm7, Hnm8, Hnm9,
      Hnm10, Hnm11, Hnm12.
    rewrite Htm, Htm0, Htm1, Htm2, Htm3, Htm4, Htm5, Htm6, Htm7, Htm8, Htm9,
      Htm10, Htm11, Htm12.
    rewrite Hops, Hops0, Hops1, Hops2, Hops3, Hops4, Hops5, Hops6, Hops7, Hops8,
      Hops9, Hops10, Hops11, Hops12.
    reflexivity. }
  split.
  { simpl.
    rewrite Hnm, Hnm0, Hnm1, Hnm2, Hnm3, Hnm4, Hnm5, Hnm6, Hnm7, Hnm8, Hnm9,
      Hnm10, Hnm11, Hnm12. reflexivity. }
  repeat constructor;
    rewrite ?Hnm, ?Hnm0, ?Hnm1, ?Hnm2, ?Hnm3, ?Hnm4, ?Hnm5, ?Hnm6, ?Hnm7,
      ?Hnm8, ?Hnm9, ?Hnm10, ?Hnm11, ?Hnm12; reflexivity.
Qed.
End ComplexMul.

(** ** The small configuration *)

Section DemoComplexMul.
#[local] Existing Instance Demo.flags.
#[local] Existing Instance Demo.instr_flags.
#[local] Existing Instance Demo.debug_info.
#[local] Existing Instance Demo.symtab.
#[local] Existing Instance Demo.type_bridge.
#[local] Existing Instance Demo.generic_target.
#[local] Existing Instance Demo.ili.
#[local] Existing Instance Demo.helpers.

(** The complex multiply node 7 of the small table, lowered from the
    initial state. *)
Lemma gen_cmplx_mul_four_multiplies_witness :
  exists s' new,
    gen_cmplx_mul Demo.engine 7 DT_CMPLX Demo.init
      = Some (make_tmp_op (Some (make_lltype_from_dtype DT_CMPLX)) (Some 13%nat), s')
    /\ Instructions s' = new
    /\ length (List.filter (fun i => instr_eqb (i_name i) I_FMUL) new) = 4%nat
    /\ Forall (fun i => is_call_name (i_name i) = false) new.
Proof.
  destruct (gen_cmplx_mul_four_multiplies Demo.engine 7 DT_CMPLX Demo.init
              (Demo.var_op 8 (Some (make_lltype_from_dtype DT_CMPLX)))
              (set_tempsMap (delete 8 (tempsMap Demo.init))
                 (set_ili_count 8 1 Demo.init))
              (Demo.var_op 9 (Some (make_lltype_from_dtype DT_CMPLX)))
              (set_tempsMap (delete 9 (delete 8 (tempsMap Demo.init)))
                 (set_ili_count 9 1 (set_ili_count 8 1 Demo.init))))
    as (s' & new & Hrun & Hi & _ & Hn & Hc).
  - vm_compute. reflexivity.
  - vm_compute. reflexivity.
  - repeat constructor; intros; discriminate.
  - intros i op t Hi. by apply elem_of_nil in Hi.
  - exists s', new. split; [exact Hrun|]. split; [by rewrite Hi|]. split; [exact Hn|exact Hc].
Defined.
End DemoComplexMul.

(** ** Facts about the monad and the flag tests *)

Lemma bind_inv {A B} (m : M A) (f : A -> M B) s r :
  (m ≫= f) s = Some r -> exists a s1, m s = Some (a, s1) /\ f a s1 = Some r.
Proof.
  unfold mbind, M_bind. destruct (m s) as [[a s1]|]; [|done].
  intros E. by exists a, s1.
Qed.

Lemma tst_lor a b m : tst (Z.lor a b) m = tst a m || tst b m.
Proof.
  unfold tst. rewrite Z.land_lor_distr_l.
  destruct (Z.land a m =? 0) eqn:Ea, (Z.land b m =? 0) eqn:Eb; simpl;
    rewrite ?Z.eqb_eq, ?Z.eqb_neq in *.
  - rewrite Ea, Eb. done.
  - apply negb_true_iff, Z.eqb_neq. rewrite Z.lor_eq_0_iff. tauto.
  - apply negb_true_iff, Z.eqb_neq. rewrite Z.lor_eq_0_iff. tauto.
  - apply negb_true_iff, Z.eqb_neq. rewrite Z.lor_eq_0_iff. tauto.
Qed.

Lemma tst_self m : m <> 0 -> tst m m = true.
Proof.
  intros Hm. unfold tst. rewrite Z.land_diag.
  by apply negb_true_iff, Z.eqb_neq.
Qed.

Lemma NoDup_fmap_eq {A B} (f : A -> B) (l : list A) x y :
  NoDup (f <$> l) -> x ∈ l -> y ∈ l -> f x = f y -> x = y.
Proof.
  induction l as [|a l IH]; intros Hnd Hx Hy E.
  - by apply elem_of_nil in Hx.
  - rewrite fmap_cons in Hnd. apply NoDup_cons in Hnd as [Hna Hnd].
    apply elem_of_cons in Hx as [->|Hx]; apply elem_of_cons in Hy as [->|Hy].
    + done.
    + exfalso. apply Hna. rewrite E. by apply list_elem_of_fmap_2.
    + exfalso. apply Hna. rewrite <- E. by apply list_elem_of_fmap_2.
    + by apply IH.
Qed.

(** ** C6: dead instructions and deletable stores *)

Section DeadCodeClaim.
Context {Fl : Flags} {IFl : InstrFlags} {DI : DebugInfo} {IL : ILI}
        {ST : SymTab} {TB : TypeBridge} {TG : Target} {HP : Helpers}
        {SE : StmtEnv}.

Lemma remove_dead_instrs_ok s :
  NoDup (iid <$> Instructions s) ->
  instrs_wf (Instructions s) ->
  defs_before_uses (Instructions s) ->
  exists s',
    remove_dead_instrs s = Some (tt, s')
    /\ sublist (Instructions s') (Instructions s)
    /\ (forall t, usect s' t <= usect s t)
    /\ (forall i, i ∈ Instructions s ->
          (i ∈ Instructions s' <->
             is_deletable_store i = false
             /\ (is_call_like i = true
                 \/ forall t, i_tmps i = Some t -> 0 < usect s' t))).
Proof.
  intros Hnd Hwf Hssa.
  destruct (remove_dead_walk_ok (rev (Instructions s)) [] s) as
    (s' & kept0 & Hrun & Hi & Hsub & Hle & Hcall & Hdel & Hrem & Hpos).
  { by rewrite rev_involutive, app_nil_r. }
  { done. }
  { unfold instrs_wf in *. rewrite Forall_forall in *. intros i Hi.
    apply Hwf. by rewrite elem_of_rev_iff in Hi. }
  rewrite app_nil_r in Hi. rewrite rev_involutive in *.
  rewrite app_nil_r in Hpos.
  exists s'. split; [exact Hrun|]. rewrite Hi.
  split; [exact Hsub|]. split; [exact Hle|].
  intros i Hin. split.
  - intros Hk. split; [by apply Hdel|].
    destruct (is_call_like i) eqn:Ec; [by left|right].
    intros t Ht. apply (Hpos Hssa) with (k := i); try done.
    + intros k t' Hk'. by apply elem_of_nil in Hk'.
    + by rewrite app_nil_r.
  - intros [Hnd' Hor].
    destruct (decide (iid i ∈ iid <$> kept0)) as [Hyes|Hnot].
    { apply list_elem_of_fmap in Hyes as (j & Ej & Hj).
      assert (j = i) as ->; [|done].
      apply (NoDup_fmap_eq iid (Instructions s)); try done.
      eapply elem_of_sublist; eauto. }
    assert (i ∉ kept0) by (intros Hk; apply Hnot; by apply list_elem_of_fmap_2).
    exfalso.
    destruct (Hrem i) as [Hd|(Hc & t & Ht & Hle0)]; [by rewrite elem_of_rev_iff|done|congruence|].
    destruct Hor as [Hc'|Hpos']; [congruence|].
    specialize (Hpos' t Ht). lia.
Qed.

Lemma make_instr_ok name s :
  exists ci, make_instr name s = Some (ci, set_next_iid (S (next_iid s)) s)
    /\ i_name ci = name /\ i_operands ci = [] /\ i_flags ci = 0
    /\ iid ci = next_iid s /\ i_tmps ci = None /\ i_ll_type ci = None.
Proof. unfold make_instr. eexists. split; [reflexivity|]. done. Qed.

(** The store statement: what [make_stmt_st] adds once the operands of
    the store are lowered. *)
Lemma make_stmt_st_ok chain recur ilix deletable s op1 store_op store_flags
    fence s1 :
  cancel_store ilix (ILI_OPND ilix 1) (ILI_OPND ilix 2) = false ->
  gen_store_operands chain recur ilix (ILI_OPND ilix 1) (ILI_OPND ilix 2)
    (ILI_OPND ilix 3) (set_curr_ret_dtype DT_NONE s)
    = Some (Some (op1, store_op, store_flags), s1) ->
  (if IL_HAS_FENCE (ILI_OPC ilix)
   then ll_instr_flags_for_memory_order_and_scope ilix else Some 0)
    = Some fence ->
  operands_wf [op1; store_op] ->
  tst store_flags DELETABLE = false ->
  tst VOLATILE_FLAG DELETABLE = false ->
  tst fence DELETABLE = false ->
  tst STARTEBB DELETABLE = false ->
  DELETABLE <> 0 ->
  exists st s',
    make_stmt_st chain recur ilix deletable s = Some (tt, s')
    /\ Instructions s' = Instructions s1 ++ [st]
    /\ i_name st = I_STORE
    /\ i_operands st = [op1; store_op]
    /\ is_deletable_store st = deletable.
Proof.
  intros Hc Hops Hf Hwf Hsf Hvf Hff Hebb Hd0.
  unfold make_stmt_st.
  rewrite (bind_Some _ _ s tt (set_curr_ret_dtype DT_NONE s)); [|done].
  rewrite Hc. rewrite (bind_Some _ _ _ _ _ Hops).
  destruct (make_instr_ok I_STORE s1) as (ci & Hmk & Hcn & _ & Hcf & _).
  rewrite (bind_Some _ _ _ _ _ Hmk).
  set (sf := if ILI_OPND ilix 3 =? NME_VOL then _ else _).
  assert (Hsf' : tst sf DELETABLE = false).
  { unfold sf. destruct (_ =? _); [|done]. by rewrite tst_lor, Hsf, Hvf. }
  set (s2 := set_next_iid _ s1).
  assert (Hsf2 : exists f2, tst f2 DELETABLE = false /\
            (if IL_HAS_FENCE (ILI_OPC ilix)
             then f ← of_option (ll_instr_flags_for_memory_order_and_scope ilix);
                  mret (Z.lor sf f)
             else mret sf) s2 = Some (f2, s2)).
  { destruct (IL_HAS_FENCE (ILI_OPC ilix)).
    - rewrite Hf. exists (Z.lor sf fence). split; [|done].
      by rewrite tst_lor, Hsf', Hff.
    - by exists sf. }
  destruct Hsf2 as (f2 & Hf2 & Hrun2).
  rewrite (bind_Some _ _ _ _ _ Hrun2).
  set (fl := if deletable then _ else _).
  destruct (ad_instr_ok ilix (set_i_operands [op1; store_op] (set_i_flags fl ci)) s2 Hwf)
    as [u Had].
  rewrite Had. eexists _, _. split; [reflexivity|]. simpl.
  split; [reflexivity|].
  unfold added, is_deletable_store. simpl.
  assert (Hfl : tst fl DELETABLE = deletable).
  { unfold fl. destruct deletable; [|done].
    rewrite tst_lor, Hf2. simpl. by apply tst_self. }
  destruct (new_ebb _); simpl; rewrite Hcn; (split; [done|]); (split; [done|]);
    rewrite ?tst_lor, Hfl, ?Hebb; by destruct deletable.
Qed.

Lemma make_stmt_ST_eq chain arg_fuel fuel' ilix deletable n :
  make_stmt chain arg_fuel (S fuel') STMT_ST ilix deletable n
  = (make_stmt_head;;
     make_stmt_st chain
       (fun ili => make_stmt chain arg_fuel fuel' STMT_ST ili false 0)
       ilix deletable).
Proof. reflexivity. Qed.

End DeadCodeClaim.

(** Membership in a list that is written out. *)
Ltac elems H :=
  repeat (apply elem_of_cons in H as [H|H]; [subst|]);
  try (by apply elem_of_nil in H).

Section DemoDeadCode.
#[local] Existing Instance Demo.flags.
#[local] Existing Instance Demo.instr_flags.
#[local] Existing Instance Demo.debug_info.
#[local] Existing Instance Demo.symtab.
#[local] Existing Instance Demo.type_bridge.
#[local] Existing Instance Demo.generic_target.
#[local] Existing Instance Demo.ili.
#[local] Existing Instance Demo.helpers.
#[local] Existing Instance Demo.stmt_env.


End DemoDeadCode.

(** ** C3: atomic memory orders *)

Lemma land_lor_apart a b m : Z.land b m = 0 -> Z.land (Z.lor a b) m = Z.land a m.
Proof. intros E. by rewrite Z.land_lor_distr_l, E, Z.lor_0_r. Qed.

Lemma tst_apart a m : Z.land a m = 0 -> tst a m = false.
Proof. intros E. unfold tst. by rewrite E. Qed.

Lemma apart_within f mask m : within f mask -> apart mask m -> apart f m.
Proof.
  unfold within, apart. intros <- E.
  by rewrite <- Z.land_assoc, E, Z.land_0_r.
Qed.

Section AtomicOrder.
Context {Fl : Flags} {IFl : InstrFlags} {DI : DebugInfo} {IL : ILI}
        {ST : SymTab} {TB : TypeBridge} {TG : Target} {HP : Helpers}
        {PE : PrinterExt}.
Variable gen_llvm_expr : Z -> option LL_Type -> M OPERAND.

(** [ad_csed_instr] without the search: the instruction it adds, with its
    flags. *)
Lemma ad_csed_instr_no_cse_flags name ilix ty ops flags s :
  operands_wf ops ->
  exists s' instr,
    ad_csed_instr name ilix ty ops flags false s
      = Some (make_tmp_op ty (Some (next_tmps s)), s')
    /\ Instructions s' = Instructions s ++ [instr]
    /\ i_name instr = name
    /\ i_tmps instr = Some (next_tmps s)
    /\ i_operands instr = ops
    /\ i_flags instr = (if new_ebb s then Z.lor flags STARTEBB else flags).
Proof.
  intros Hwf. unfold ad_csed_instr.
  unfold mbind at 1, M_bind at 1, get at 1.
  change (false && ENABLE_CSE_OPT s && negb (new_ebb s)) with false. cbv iota.
  unfold mbind at 1, M_bind at 1, make_tmps at 1.
  unfold gen_instr.
  destruct (make_instr_ok name (set_next_tmps (S (next_tmps s)) s))
    as (ci & Hmk & Hcn & Hco & Hcf & _).
  rewrite (bind_Some _ _ _ _ _ (bind_Some _ _ _ _ _ Hmk)). simpl.
  set (i0 := set_i_flags flags _).
  destruct (ad_instr_ok ilix i0 (set_idef (<[next_tmps s:=iid ci]> (idef s))
              (set_next_iid (S (next_iid s)) (set_next_tmps (S (next_tmps s)) s))))
    as [u Had]; [done|].
  rewrite (bind_Some _ _ _ _ _ Had). simpl.
  eexists _, _. split; [reflexivity|]. simpl. split; [reflexivity|].
  unfold added. simpl. destruct (new_ebb s); simpl; by rewrite Hcn.
Qed.

(** The printer's name for a flag word whose memory-order field holds one
    of the five orders. *)
Lemma memory_order_name_of f name flags :
  atomic_flags_layout ->
  (f, name) ∈ zip memory_order_flags llvm_memory_order_names ->
  Z.land flags ATOMIC_MEM_ORD_FLAGS = f ->
  get_atomic_memory_order_name flags = (name, false).
Proof.
  intros (_ & Hnd & _) Hin Hf.
  unfold memory_order_flags in Hnd.
  rewrite !NoDup_cons, !not_elem_of_cons in Hnd.
  destruct Hnd as ((? & ? & ? & ? & _) & (? & ? & ? & _) & (? & ? & _) & (? & _) & _).
  unfold get_atomic_memory_order_name. rewrite Hf.
  simpl in Hin. elems Hin; injection Hin as -> ->;
    repeat match goal with
           | |- context [?a =? ?b] =>
               destruct (Z.eqb_spec a b) as [?|?];
               [try (exfalso; congruence); try reflexivity|]
           end; try reflexivity; try congruence.
Qed.

(** The memory-order field of the flags that [gen_llvm_atomicrmw_expr]
    and [ad_instr] build around the flag [mo] of a memory order. *)
Lemma memory_order_field mo (single vol ebb : bool) aop :
  atomic_flags_layout ->
  mo ∈ memory_order_flags -> aop ∈ rmw_op_flags ->
  let flags :=
    Z.lor (let f := if single then Z.lor mo ATOMIC_SINGLETHREAD_FLAG else mo in
           if vol then Z.lor f VOLATILE_FLAG else f) aop in
  let flags := if ebb then Z.lor flags STARTEBB else flags in
  Z.land flags ATOMIC_MEM_ORD_FLAGS = mo
  /\ tst flags CANCEL_CALL_DBG_VALUE = false.
Proof.
  intros (Hw & _ & Hrw & Hap & Hcan) Hmo Haop flags0 flags.
  rewrite Forall_forall in Hw, Hrw.
  apply Forall_cons in Hap as [Hrm Hap]. apply Forall_cons in Hap as [Hsm Hap].
  apply Forall_cons in Hap as [Hvm Hap]. apply Forall_cons in Hap as [Hem _].
  apply Forall_cons in Hcan as [Hmc Hcan]. apply Forall_cons in Hcan as [Hrc Hcan].
  apply Forall_cons in Hcan as [Hsc Hcan]. apply Forall_cons in Hcan as [Hvc Hcan].
  apply Forall_cons in Hcan as [Hec _].
  assert (Ham : apart aop ATOMIC_MEM_ORD_FLAGS) by (eapply apart_within; eauto).
  assert (Hac : apart aop CANCEL_CALL_DBG_VALUE) by (eapply apart_within; eauto).
  assert (Hmc' : apart mo CANCEL_CALL_DBG_VALUE) by (eapply apart_within; eauto).
  unfold apart, within in *.
  split.
  - unfold flags, flags0.
    destruct ebb, vol, single; rewrite ?land_lor_apart by done; by apply Hw.
  - unfold flags, flags0.
    destruct ebb, vol, single; rewrite ?tst_lor;
      rewrite !tst_apart by done; done.
Qed.

Lemma elem_of_memory_order_flags mo f :
  ll_instr_flags_from_memory_order mo = Some f -> f ∈ memory_order_flags.
Proof.
  unfold memory_order_flags.
  destruct mo; simpl; intros E; try discriminate; injection E as <-;
    repeat (first [by left | right]).
Qed.

Lemma elem_of_rmw_op_flags aop f :
  ll_instr_flags_from_aop aop = Some f -> f ∈ rmw_op_flags.
Proof.
  unfold rmw_op_flags.
  destruct aop; simpl; intros E; try discriminate; injection E as <-;
    repeat (first [by left | right]).
Qed.

(** C3.  Under a layout of the flags in which the memory-order field
    reads back what was written: an atomic read-modify-write whose
    memory order is seq_cst is lowered to one [atomicrmw] instruction,
    and that instruction is printed as [atomicrmw], the name of the
    operation, the operands, the scope and then [seq_cst]; the flag of
    the consume order is the acquire flag, and flags made for a consume
    order print as [acquire]; whatever the flags, the printed order is
    one of monotonic, acquire, release, acq_rel and seq_cst, or empty
    when the printer reports an unexpected order. *)
Theorem atomic_orders_printed ilix s op1 s1 op2 s2 aop prev next w :
  let info := atomic_info ilix in
  let ty := make_type_from_msz (ai_msz info) in
  atomic_flags_layout ->
  BINOP I_ATOMICRMW || BITOP I_ATOMICRMW || CONVERT I_ATOMICRMW = false ->
  gen_llvm_expr (ILI_OPND ilix 2) (Some (make_ptr_lltype ty)) s = Some (op1, s1) ->
  gen_llvm_expr (ILI_OPND ilix 1) (Some ty) s1 = Some (op2, s2) ->
  operands_wf [op1; op2] ->
  ll_instr_flags_from_aop (ai_op info) = Some aop ->
  memory_order ilix = MO_SEQ_CST ->
  (exists s' st pre post w',
     gen_llvm_atomicrmw_expr gen_llvm_expr ilix s
       = Some (make_tmp_op (Some ty) (Some (next_tmps s2)), s')
     /\ Instructions s' = Instructions s2 ++ [st]
     /\ i_name st = I_ATOMICRMW
     /\ write_instruction prev next st w
        = Some (pre
                ++ [print_token "atomicrmw"; print_space 1;
                    print_token (fst (get_atomicrmw_opname (i_flags st)));
                    print_space 1; write_operands [op1; op2] 0]
                ++ (if tst (i_flags st) ATOMIC_SINGLETHREAD_FLAG
                    then [print_token " singlethread"] else [])
                ++ [print_space 1; print_token "seq_cst"] ++ post, w'))
  /\ ll_instr_flags_from_memory_order MO_CONSUME = Some ATOMIC_ACQUIRE_FLAG
  /\ (forall ilix' f other,
        memory_order ilix' = MO_CONSUME ->
        ll_instr_flags_for_memory_order_and_scope ilix' = Some f ->
        apart other ATOMIC_MEM_ORD_FLAGS ->
        get_atomic_memory_order_name (Z.lor f other) = ("acquire"%string, false))
  /\ (forall flags,
        let r := get_atomic_memory_order_name flags in
        (snd r = false /\ fst r ∈ llvm_memory_order_names)
        \/ r = (EmptyString, true)).
Proof.
  intros info ty Hlay Hnb H1 H2 Hwf Haop Hmo.
  split; [|split; [done|split]].
  - unfold gen_llvm_atomicrmw_expr. fold info. fold ty.
    rewrite (bind_Some _ _ _ _ _ H1), (bind_Some _ _ _ _ _ H2).
    unfold ll_instr_flags_for_memory_order_and_scope. rewrite Hmo. simpl.
    fold info.
    destruct (ai_scope info) eqn:Esc; simpl; rewrite Haop; simpl;
      destruct (ILI_OPND ilix 3 =? NME_VOL) eqn:Ev.
    all: unfold mbind at 1, M_bind at 1, mret at 1, M_ret at 1;
         unfold mbind at 1, M_bind at 1, mret at 1, M_ret at 1.
    all: match goal with
         | |- context [ad_csed_instr _ _ _ _ ?flags false] =>
             destruct (ad_csed_instr_no_cse_flags I_ATOMICRMW ilix (Some ty)
                         [op1; op2] flags s2 Hwf)
               as (s' & st & Hrun & Hi & Hn & Ht & Ho & Hf)
         end.
    1: destruct (memory_order_field ATOMIC_SEQ_CST_FLAG true true (new_ebb s2) aop Hlay)
         as [Hfield Hcan];
         [unfold memory_order_flags; repeat (first [by left | right])
         |by eapply elem_of_rmw_op_flags|].
    2: destruct (memory_order_field ATOMIC_SEQ_CST_FLAG true false (new_ebb s2) aop Hlay)
         as [Hfield Hcan];
         [unfold memory_order_flags; repeat (first [by left | right])
         |by eapply elem_of_rmw_op_flags|].
    3: destruct (memory_order_field ATOMIC_SEQ_CST_FLAG false true (new_ebb s2) aop Hlay)
         as [Hfield Hcan];
         [unfold memory_order_flags; repeat (first [by left | right])
         |by eapply elem_of_rmw_op_flags|].
    4: destruct (memory_order_field ATOMIC_SEQ_CST_FLAG false false (new_ebb s2) aop Hlay)
         as [Hfield Hcan];
         [unfold memory_order_flags; repeat (first [by left | right])
         |by eapply elem_of_rmw_op_flags|].
    all: simpl in Hfield, Hcan; rewrite <- Hf in Hfield, Hcan.
    all: assert (Hname : get_atomic_memory_order_name (i_flags st)
                         = ("seq_cst"%string, false))
           by (apply (memory_order_name_of ATOMIC_SEQ_CST_FLAG);
               [done|simpl; repeat (first [by left | right])|done]).
    all: apply orb_false_iff in Hnb as [Hnb Hcv].
    all: exists s', st.
    all: unfold write_instruction; rewrite Hn, Hcan, Hnb, Hcv; simpl.
    all: unfold write_memory_order; rewrite Hname, Ho; simpl.
    all: destruct (dont_force_a_dummy_label st next); cbn [forceLabel];
           [|destruct (forceLabel w)]; cbv iota beta.
    all: match goal with
         | |- context [Some (?dead ++ print_token TAB :: _, ?w1) = _] =>
             exists (dead ++ [print_token TAB; print_tmp_name (i_tmps st);
                              print_token " = "]),
                    ((if negb (i_dbg_line_op st =? 0) && true
                      then [print_dbg_line (i_dbg_line_op st)] else [])
                     ++ match i_traceComment st with
                        | Some c => [print_token (TAB ++ TAB ++ ";) ")%string;
                                     print_token c]
                        | None => []
                        end ++ [print_nl]), w1
         end.
    all: split; [exact Hrun|]; split; [exact Hi|]; split; [done|].
    all: by rewrite <- !app_assoc.
  - intros ilix' f other Hmo' Hf Hother.
    unfold ll_instr_flags_for_memory_order_and_scope in Hf.
    rewrite Hmo' in Hf. simpl in Hf.
    apply (memory_order_name_of ATOMIC_ACQUIRE_FLAG); [done| |].
    { simpl. repeat (first [by left | right]). }
    rewrite land_lor_apart by done.
    destruct Hlay as (Hw & _ & _ & Hap & _).
    rewrite Forall_forall in Hw.
    apply Forall_cons in Hap as [_ Hap]. apply Forall_cons in Hap as [Hsm _].
    assert (Ha : within ATOMIC_ACQUIRE_FLAG ATOMIC_MEM_ORD_FLAGS).
    { apply Hw. unfold memory_order_flags. repeat (first [by left | right]). }
    destruct (ai_scope _); injection Hf as <-;
      rewrite ?land_lor_apart by done; exact Ha.
  - intros flags r. unfold r, get_atomic_memory_order_name.
    unfold llvm_memory_order_names.
    repeat match goal with
           | |- context [?a =? ?b] => destruct (a =? b)
           end; simpl; try (by right); left; (split; [done|]);
      repeat (first [by left | right]).
Qed.

End AtomicOrder.

Section DemoAtomicOrder.
#[local] Existing Instance Demo.flags.
#[local] Existing Instance Demo.instr_flags.
#[local] Existing Instance Demo.debug_info.
#[local] Existing Instance Demo.symtab.
#[local] Existing Instance Demo.type_bridge.
#[local] Existing Instance Demo.generic_target.
#[local] Existing Instance Demo.ili.
#[local] Existing Instance Demo.helpers.
#[local] Existing Instance Demo.printer_ext.

(** The flag layout of the small configuration is one the theorem
    covers. *)
Lemma demo_atomic_flags_layout : atomic_flags_layout.
Proof.
  unfold atomic_flags_layout, memory_order_flags, rmw_op_flags, within, apart.
  split; [repeat constructor|]. split.
  { apply (bool_decide_unpack _). vm_compute. reflexivity. }
  split; [repeat constructor|]. split; repeat constructor.
Defined.

(** The atomic add of the small table (ILI 13, seq_cst), lowered from
    the initial state and printed as the first instruction. *)
Lemma atomic_orders_printed_witness :
  exists s' st pre post w',
    gen_llvm_atomicrmw_expr Demo.engine 13 Demo.init
      = Some (make_tmp_op (Some Demo.i32_ty) (Some 0%nat), s')
    /\ Instructions s' = [st]
    /\ i_name st = I_ATOMICRMW
    /\ write_instruction None None st (mkWr true 0 Demo.void_ty)
       = Some (pre
               ++ [print_token "atomicrmw"; print_space 1;
                   print_token (fst (get_atomicrmw_opname (i_flags st)));
                   print_space 1;
                   write_operands [Demo.var_op 2 (Some (Demo.ptr_ty Demo.i32_ty));
                                   Demo.var_op 1 (Some Demo.i32_ty)] 0]
               ++ (if tst (i_flags st) ATOMIC_SINGLETHREAD_FLAG
                   then [print_token " singlethread"] else [])
               ++ [print_space 1; print_token "seq_cst"] ++ post, w').
Proof.
  destruct (atomic_orders_printed Demo.engine 13 Demo.init
              (Demo.var_op 2 (Some (Demo.ptr_ty Demo.i32_ty)))
              (set_tempsMap (delete 2 (tempsMap Demo.init))
                 (set_ili_count 2 1 Demo.init))
              (Demo.var_op 1 (Some Demo.i32_ty))
              (set_tempsMap (delete 1 (delete 2 (tempsMap Demo.init)))
                 (set_ili_count 1 1 (set_ili_count 2 1 Demo.init)))
              ATOMIC_ADD_FLAG None None (mkWr true 0 Demo.void_ty))
    as [H _].
  - exact demo_atomic_flags_layout.
  - reflexivity.
  - vm_compute. reflexivity.
  - vm_compute. reflexivity.
  - repeat constructor; intros; discriminate.
  - reflexivity.
  - reflexivity.
  - exact H.
Defined.

End DemoAtomicOrder.

(** ** C8: vector minimum and maximum *)

Lemma make_tmps_ok s :
  make_tmps s = Some (next_tmps s, set_next_tmps (S (next_tmps s)) s).
Proof. reflexivity. Qed.

Section VectorMinMax.
Context {Fl : Flags} {IFl : InstrFlags} {DI : DebugInfo} {IL : ILI}
        {ST : SymTab} {TB : TypeBridge} {TG : Target} {HP : Helpers}.
Variable gen_llvm_expr : Z -> option LL_Type -> M OPERAND.

(** [gen_instr] for an instruction that defines a temporary. *)
Lemma gen_instr_tmp name t ty ops s :
  exists instr,
    gen_instr name (Some t) ty ops s
      = Some (instr, set_idef (<[t := iid instr]> (idef s))
                       (set_next_iid (S (next_iid s)) s))
    /\ i_name instr = name /\ i_tmps instr = Some t /\ i_operands instr = ops
    /\ i_ll_type instr = ty /\ i_flags instr = 0 /\ iid instr = next_iid s.
Proof.
  unfold gen_instr.
  destruct (make_instr_ok name s) as (ci & Hmk & Hn & _ & Hf & Hid & _).
  rewrite (bind_Some _ _ _ _ _ Hmk).
  exists (set_i_operands ops (set_i_ll_type ty (set_i_tmps (Some t) ci))).
  split; [reflexivity|]. by simpl.
Qed.

(** The compare-and-select form of a vector minimum or maximum. *)
Lemma gen_minmax_expr_vector ilix op1 op2 s :
  opc_is_VMINMAX (ILI_OPC ilix) = true ->
  operands_wf [op1; op2] ->
  exists s' cmp sel cc,
    gen_minmax_expr ilix op1 op2 s
      = Some (make_tmp_op (i_ll_type sel) (Some (next_tmps s)), s')
    /\ Instructions s' = Instructions s ++ [cmp; sel]
    /\ (i_name cmp = I_ICMP \/ i_name cmp = I_FCMP)
    /\ i_tmps cmp = Some (S (next_tmps s))
    /\ i_operands cmp = [cc; op1; op2]
    /\ ot_type cc = OT_CC
    /\ i_name sel = I_SELECT
    /\ i_tmps sel = Some (next_tmps s)
    /\ i_operands sel
       = [make_tmp_op (Some (make_int_lltype 1)) (Some (S (next_tmps s)));
          op1; op2].
Proof.
  intros Hopc Hwf. unfold gen_minmax_expr.
  rewrite (bind_Some _ _ _ _ _ (make_tmps_ok s)).
  match goal with
  | |- context [match ?x with Some _ => _ | None => _ end] =>
      assert (Hcc : exists n v, (n = I_ICMP \/ n = I_FCMP) /\ x = Some (n, v))
  end.
  { destruct (ILI_OPC ilix); try discriminate Hopc;
      destruct (ty_kind (DTY (DTY (ili_get_vect_type ilix + 1))));
      destruct (DT_ISUNSIGNED (DTY (ili_get_vect_type ilix + 1)));
      eexists _, _; eauto. }
  destruct Hcc as (n & v & Hn & ->).
  rewrite (bind_Some _ _ _ _ _ (make_tmps_ok _)).
  simpl next_tmps. simpl op_tmps.
  match goal with
  | |- context [(gen_instr n (Some ?t) ?ty ?ops ≫= _) ?st] =>
      destruct (gen_instr_tmp n t ty ops st)
        as (ci & Hci & Hcn & Hct & _ & _ & _ & _)
  end.
  rewrite (bind_Some _ _ _ _ _ Hci).
  set (cc := mkOPERAND OT_CC None _ 0 v (0, 0) None 0).
  match goal with
  | |- context [(ad_instr ilix ?i ≫= _) ?st] =>
      destruct (ad_instr_ok ilix i st) as [u1 Had1]
  end.
  { simpl. constructor; [intros; discriminate|done]. }
  rewrite (bind_Some _ _ _ _ _ Had1).
  match goal with
  | |- context [(gen_instr I_SELECT (Some ?t) ?ty ?ops ≫= _) ?st] =>
      destruct (gen_instr_tmp I_SELECT t ty ops st)
        as (si & Hsi & Hsn & Hst & Hso & Hsty & _ & _)
  end.
  rewrite (bind_Some _ _ _ _ _ Hsi).
  match goal with
  | |- context [(ad_instr ilix ?i ≫= _) ?st] =>
      destruct (ad_instr_ok ilix i st) as [u2 Had2]
  end.
  { rewrite Hso. constructor; [intros _; by eexists|done]. }
  rewrite (bind_Some _ _ _ _ _ Had2).
  unfold added. simpl.
  eexists _, _, (set_i_ilix ilix si), cc. split.
  { unfold mret, M_ret. simpl. rewrite Hsty. reflexivity. }
  simpl. rewrite <- app_assoc. split; [reflexivity|].
  destruct (new_ebb s); simpl; rewrite Hcn, Hct, Hsn, Hst, Hso; done.
Qed.

(** A vector length that is none of 2, 4 and 8 is in none of the three
    intrinsic tables. *)
Lemma no_vminmax_intrinsic ilix op1 op2 s :
  opc_is_VMINMAX (ILI_OPC ilix) = true ->
  size_in (DTY (ILI_OPND ilix 3 + 2)) [2; 4; 8] = false ->
  gen_call_vminmax_for_target ilix op1 op2 s = Some (None, s).
Proof.
  intros Hopc Hsz.
  assert (H24 : size_in (DTY (ILI_OPND ilix 3 + 2)) [2; 4] = false).
  { unfold size_in in *. simpl in *.
    repeat (apply orb_false_iff in Hsz as [? Hsz]).
    repeat (apply orb_false_iff; split; try done). }
  assert (H48 : size_in (DTY (ILI_OPND ilix 3 + 2)) [4; 8] = false).
  { unfold size_in in *. simpl in *.
    repeat (apply orb_false_iff in Hsz as [? Hsz]).
    repeat (apply orb_false_iff; split; try done). }
  unfold gen_call_vminmax_for_target.
  destruct target.
  - unfold gen_call_vminmax_intrinsic.
    destruct (ILI_OPC ilix); try discriminate Hopc;
      rewrite Hsz, H48; by destruct (ty_kind _).
  - unfold gen_call_vminmax_power_intrinsic. by rewrite H24.
  - unfold gen_call_vminmax_neon_intrinsic.
    destruct NEON_ENABLED; [|done]. cbn [negb].
    rewrite H24, H48. by destruct (ty_kind _).
  - unfold gen_call_vminmax_intrinsic.
    destruct (ILI_OPC ilix); try discriminate Hopc;
      rewrite Hsz, H48; by destruct (ty_kind _).
Qed.

(** C8.  A vector minimum or maximum whose operands lower to [op1] and
    [op2] asks the intrinsic table of the build first; when the table
    has no intrinsic (it has none, in particular, for a vector length
    that is none of 2, 4 and 8), the lowering does not fail: it adds a
    compare of the two operands and then a select between them on the
    result of the compare, and returns the result of the select. *)
Theorem vector_minmax_falls_back ilix s op1 s1 op2 s2 :
  let llTy := make_lltype_from_dtype (ILI_OPND ilix 3) in
  opc_is_VMINMAX (ILI_OPC ilix) = true ->
  gen_llvm_expr (ILI_OPND ilix 2) (Some llTy) s = Some (op1, s1) ->
  gen_llvm_expr (ILI_OPND ilix 1) (Some llTy) s1 = Some (op2, s2) ->
  operands_wf [op1; op2] ->
  gen_call_vminmax_for_target ilix op1 op2 s2 = Some (None, s2) ->
  (exists s' cmp sel cc,
     gen_vminmax gen_llvm_expr ilix s
       = Some (make_tmp_op (i_ll_type sel) (Some (next_tmps s2)), s')
     /\ Instructions s' = Instructions s2 ++ [cmp; sel]
     /\ (i_name cmp = I_ICMP \/ i_name cmp = I_FCMP)
     /\ i_tmps cmp = Some (S (next_tmps s2))
     /\ i_operands cmp = [cc; op1; op2]
     /\ ot_type cc = OT_CC
     /\ i_name sel = I_SELECT
     /\ i_tmps sel = Some (next_tmps s2)
     /\ i_operands sel
        = [make_tmp_op (Some (make_int_lltype 1)) (Some (S (next_tmps s2)));
           op1; op2])
  /\ (size_in (DTY (ILI_OPND ilix 3 + 2)) [2; 4; 8] = false ->
      forall a b st,
        gen_call_vminmax_for_target ilix a b st = Some (None, st)).
Proof.
  intros llTy Hopc H1 H2 Hwf Hnone. split.
  - unfold gen_vminmax. fold llTy.
    rewrite (bind_Some _ _ _ _ _ H1), (bind_Some _ _ _ _ _ H2),
      (bind_Some _ _ _ _ _ Hnone).
    by apply gen_minmax_expr_vector.
  - intros Hsz a b st. by apply no_vminmax_intrinsic.
Qed.

End VectorMinMax.

Section DemoVectorMinMax.
#[local] Existing Instance Demo.flags.
#[local] Existing Instance Demo.instr_flags.
#[local] Existing Instance Demo.debug_info.
#[local] Existing Instance Demo.symtab.
#[local] Existing Instance Demo.type_bridge.
#[local] Existing Instance Demo.generic_target.
#[local] Existing Instance Demo.ili.
#[local] Existing Instance Demo.helpers.

(** The vector minimum of the small table (ILI 10) is over vectors of
    three floats, a length the generic table does not have. *)
Lemma vector_minmax_falls_back_witness :
  exists s' cmp sel,
    gen_vminmax Demo.engine 10 Demo.init
      = Some (make_tmp_op (i_ll_type sel) (Some 0%nat), s')
    /\ Instructions s' = [cmp; sel]
    /\ (i_name cmp = I_ICMP \/ i_name cmp = I_FCMP)
    /\ i_name sel = I_SELECT.
Proof.
  destruct (vector_minmax_falls_back Demo.engine 10 Demo.init
              (Demo.var_op 12 (Some (make_lltype_from_dtype 20)))
              (set_tempsMap (delete 12 (tempsMap Demo.init))
                 (set_ili_count 12 1 Demo.init))
              (Demo.var_op 11 (Some (make_lltype_from_dtype 20)))
              (set_tempsMap (delete 11 (delete 12 (tempsMap Demo.init)))
                 (set_ili_count 11 1 (set_ili_count 12 1 Demo.init))))
    as [(s' & cmp & sel & cc & Hrun & Hi & Hn & _ & _ & _ & Hs & _) _].
  - reflexivity.
  - vm_compute. reflexivity.
  - vm_compute. reflexivity.
  - repeat constructor; intros; discriminate.
  - vm_compute. reflexivity.
  - exists s', cmp, sel. split; [exact Hrun|]. split; [exact Hi|].
    split; [exact Hn|exact Hs].
Defined.

End DemoVectorMinMax.

(** ** C5: a register result coerced to the hidden return buffer *)

Section CallReturn.
Context {Fl : Flags} {IFl : InstrFlags} {DI : DebugInfo} {IL : ILI}
        {ST : SymTab} {TB : TypeBridge} {TG : Target} {HP : Helpers}.
Variable gen_llvm_expr : Z -> option LL_Type -> M OPERAND.

Lemma count_operand_uses_inv operands s s' :
  count_operand_uses operands s = Some (tt, s') ->
  exists u, s' = set_use_count u s.
Proof.
  revert s. induction operands as [|op ops IH]; intros s E.
  - injection E as <-. exists (use_count s). by destruct s.
  - simpl in E. apply bind_inv in E as ([] & s0 & E0 & E).
    apply IH in E as [u ->].
    destruct (ot_eqb (ot_type op) OT_TMP).
    + destruct (op_tmps op); [|discriminate E0]. injection E0 as <-.
      by exists u.
    + injection E0 as <-. by exists u.
Qed.

(** Whenever [ad_instr] returns, the instruction is the new last one. *)
Lemma ad_instr_inv ilix instr s s' :
  ad_instr ilix instr s = Some (tt, s') ->
  Instructions s' = Instructions s ++ [added ilix instr s]
  /\ next_tmps s' = next_tmps s /\ next_iid s' = next_iid s
  /\ new_ebb s' = false.
Proof.
  unfold ad_instr. intros E. apply bind_inv in E as ([] & s0 & E0 & E).
  apply count_operand_uses_inv in E0 as [u ->].
  injection E as <-. simpl. unfold added. simpl.
  by destruct (new_ebb s).
Qed.

(** [gen_instr] for an instruction that defines no temporary. *)
Lemma gen_instr_none name ty ops s :
  exists instr,
    gen_instr name None ty ops s = Some (instr, set_next_iid (S (next_iid s)) s)
    /\ i_name instr = name /\ i_tmps instr = None /\ i_operands instr = ops
    /\ i_ll_type instr = ty /\ i_flags instr = 0 /\ iid instr = next_iid s.
Proof.
  unfold gen_instr.
  destruct (make_instr_ok name s) as (ci & Hmk & Hn & _ & Hf & Hid & _).
  rewrite (bind_Some _ _ _ _ _ Hmk).
  exists (set_i_operands ops (set_i_ll_type ty (set_i_tmps None ci))).
  split; [reflexivity|]. by simpl.
Qed.

Lemma make_store_ok sop address_op flags s :
  operands_wf [sop; address_op] ->
  exists s' st,
    make_store sop address_op flags s = Some (tt, s')
    /\ Instructions s' = Instructions s ++ [st]
    /\ i_name st = I_STORE
    /\ i_tmps st = None
    /\ i_operands st = [sop; address_op]
    /\ next_tmps s' = next_tmps s.
Proof.
  intros Hwf. unfold make_store.
  destruct (gen_instr_none I_STORE None [sop; address_op] s)
    as (ci & Hci & Hn & Ht & Ho & _ & Hf & _).
  rewrite (bind_Some _ _ _ _ _ Hci).
  destruct (ad_instr_ok 0 (set_i_flags (Z.lor (i_flags ci) flags) ci)
              (set_next_iid (S (next_iid s)) s)) as [u Had].
  { simpl. by rewrite Ho. }
  rewrite Had. eexists _, _. split; [reflexivity|]. simpl.
  split; [reflexivity|]. unfold added. simpl.
  destruct (new_ebb s); simpl; by rewrite Hn, Ht, Ho.
Qed.

(** C5.  At a call whose first argument is a GARGRET (the IL expects the
    result in the buffer it addresses) while the ABI returns the value
    in a register (no hidden sret argument), once the call instruction
    is built and added and the address of the buffer is lowered, the
    lowering adds a store of the temporary that holds the call's result
    to that address; the result operand of the call is a copy of the
    address when the declared return type is a struct or a union, and
    is what it was before otherwise. *)
Theorem gargret_register_result_is_stored
    fuel ilix ret_dtype call_sptr s call_instr result_op abi s1 s2 cty t addr s3 :
  let first_arg_ili := ILI_OPND (prefer_alt ilix) 2 in
  gen_call_instr gen_llvm_expr fuel ilix ret_dtype call_sptr s
    = Some ((call_instr, result_op, abi), s1) ->
  ad_instr (prefer_alt ilix) call_instr s1 = Some (tt, s2) ->
  ILI_OPC first_arg_ili = IL_GARGRET ->
  LL_ABI_HAS_SRET abi = false ->
  IL_RES_is_AR (ILI_OPC (ILI_OPND first_arg_ili 1)) = true ->
  i_ll_type call_instr = Some cty ->
  i_tmps call_instr = Some t ->
  gen_llvm_expr (ILI_OPND first_arg_ili 1) (Some (make_ptr_lltype cty)) s2
    = Some (addr, s3) ->
  (ot_type addr = OT_TMP -> is_Some (op_tmps addr)) ->
  exists s' call st,
    gen_call_expr gen_llvm_expr fuel ilix ret_dtype call_sptr s
      = Some (if is_struct_or_union ret_dtype then Some (gen_copy_op addr)
              else result_op, s')
    /\ last (Instructions s2) = Some call
    /\ i_name call = i_name call_instr
    /\ i_tmps call = Some t
    /\ Instructions s' = Instructions s3 ++ [st]
    /\ i_name st = I_STORE
    /\ i_operands st = [make_tmp_op (Some cty) (Some t); addr].
Proof.
  intros first_arg_ili Hcall Had Hgarg Hsret Har Hty Ht Haddr Hwfa.
  unfold gen_call_expr. rewrite (bind_Some _ _ _ _ _ Hcall). cbv beta iota.
  rewrite (bind_Some _ _ _ _ _ Had).
  fold first_arg_ili. rewrite Hgarg, Hsret, Har, Hty. cbn [negb andb].
  rewrite (bind_Some _ _ _ _ _ Haddr).
  destruct (make_store_ok (make_tmp_op (Some cty) (i_tmps call_instr)) addr
              (ldst_instr_flags_from_dtype (ILI_OPND first_arg_ili 3)) s3)
    as (s' & st & Hst & Hi & Hn & _ & Ho & _).
  { constructor; [intros _; rewrite Ht; by eexists|by constructor]. }
  rewrite (bind_Some _ _ _ _ _ Hst).
  apply ad_instr_inv in Had as (Hi2 & _).
  exists s', (added (prefer_alt ilix) call_instr s1), st.
  split; [by destruct (is_struct_or_union ret_dtype)|].
  split; [by rewrite Hi2, last_snoc|].
  split; [unfold added; by destruct (new_ebb s1)|].
  split; [unfold added; by destruct (new_ebb s1)|].
  split; [done|]. split; [done|]. by rewrite Ho, Ht.
Qed.
End CallReturn.

Section DemoCallReturn.
#[local] Existing Instance Demo.flags.
#[local] Existing Instance Demo.instr_flags.
#[local] Existing Instance Demo.debug_info.
#[local] Existing Instance Demo.symtab.
#[local] Existing Instance Demo.type_bridge.
#[local] Existing Instance Demo.generic_target.
#[local] Existing Instance Demo.ili.
#[local] Existing Instance Demo.helpers.

(** The call of the small table (ILI 14): its first argument is a
    GARGRET for a struct, and the ABI of the small configuration returns
    in a register. *)
Lemma gargret_register_result_is_stored_witness :
  exists s' call st,
    gen_call_expr Demo.engine 2 14 10 70 Demo.init
      = Some (Some (Demo.var_op 16 (Some (Demo.ptr_ty Demo.i64_ty))), s')
    /\ Instructions s' = [call; st]
    /\ i_name call = I_CALL
    /\ i_tmps call = Some 0%nat
    /\ i_name st = I_STORE
    /\ i_operands st = [make_tmp_op (Some Demo.i64_ty) (Some 0%nat);
                        Demo.var_op 16 (Some (Demo.ptr_ty Demo.i64_ty))].
Proof.
  edestruct (gargret_register_result_is_stored Demo.engine 2 14 10 70 Demo.init)
    as (s' & call & st & Hrun & Hl & Hn & Ht & Hi & Hsn & Hso).
  - vm_compute. reflexivity.
  - vm_compute. reflexivity.
  - reflexivity.
  - reflexivity.
  - reflexivity.
  - reflexivity.
  - reflexivity.
  - vm_compute. reflexivity.
  - intros; discriminate.
  - exists s', call, st. split; [exact Hrun|].
    vm_compute in Hl. injection Hl as <-.
    split; [exact Hi|]. split; [reflexivity|]. split; [reflexivity|].
    split; [exact Hsn|exact Hso].
Defined.

End DemoCallReturn.

(** ** The common-subexpression cache of the lowering engine *)

Section EngineCache.
Context {Fl : Flags} {IFl : InstrFlags} {DI : DebugInfo} {IL : ILI}
        {ST : SymTab} {TB : TypeBridge} {TG : Target} {HP : Helpers}
        {SE : StmtEnv}.
Variable lower_other :
  (Z -> option LL_Type -> M OPERAND) -> Z -> option LL_Type -> M OPERAND.
Variable reconcile : Z -> LL_Type -> OPERAND -> M OPERAND.


Lemma define_case_other ilix opc r :
  define_case ilix opc = Some r -> expr_case_of opc = case_other.
Proof. destruct opc; simpl; intros E; try discriminate E; reflexivity. Qed.

Lemma is_cse_case_other opc :
  is_cse_case opc = true ->
  expr_case_of opc = case_other /\ forall ilix, define_case ilix opc = None.
Proof. destruct opc; simpl; intros E; try discriminate E; done. Qed.

Lemma csed_lookup_store l ilix op e :
  csed_lookup l ilix = Some e ->
  csed_lookup (csed_store l ilix op) ilix = Some (mkCSED (csed_ilix e) op)
  /\ csed_ilix e = ilix.
Proof.
  induction l as [|c l IH]; simpl; [done|].
  destruct (ilix =? csed_ilix c) eqn:E.
  - intros [= <-]. simpl. rewrite E. split; [done|]. symmetry. by apply Z.eqb_eq.
  - intros H. simpl. rewrite E. by apply IH.
Qed.

Lemma set_csed_operand_ok p operand s :
  set_csed_operand p operand s
  = Some (tt, set_csedList (csed_store (csedList s) p (Some (recorded operand))) s).
Proof. reflexivity. Qed.

Lemma get_csed_operand_Some ilix e s :
  csed_lookup (csedList s) (prefer_alt ilix) = Some e ->
  get_csed_operand ilix s = Some (Some (prefer_alt ilix), s).
Proof. intros E. unfold get_csed_operand, mbind, M_bind, get. by rewrite E. Qed.

(** The tail of [gen_llvm_expr] when no type is expected: the operand is
    recorded in the entry of the node, if it has one, and the node is
    counted; nothing is added to the instruction list. *)
Lemma gen_llvm_expr_finish_records ilix operand e s :
  is_Some (op_ll_type operand) ->
  csed_lookup (csedList s) (prefer_alt ilix) = Some e ->
  exists s',
    gen_llvm_expr_finish reconcile ilix None operand s = Some (operand, s')
    /\ Instructions s' = Instructions s
    /\ csed_lookup (csedList s') (prefer_alt ilix)
       = Some (mkCSED (prefer_alt ilix) (Some (recorded operand)))
    /\ ili_count s' ilix = ili_count s ilix + 1.
Proof.
  intros [ty Hty] He. unfold gen_llvm_expr_finish. rewrite Hty.
  rewrite (bind_Some _ _ _ _ _ (get_csed_operand_Some _ _ _ He)).
  rewrite (bind_Some _ _ _ _ _ (set_csed_operand_ok _ _ _)).
  unfold reconcile_tail, setTempMap, mbind, M_bind, modify, mret, M_ret.
  eexists. split; [reflexivity|].
  destruct (csed_lookup_store _ _ (Some (recorded operand)) _ He) as [Hl Hi].
  rewrite Hi in Hl.
  split; [|split].
  - by destruct (_ && _).
  - destruct (_ && _); simpl; exact Hl.
  - unfold ili_count, set_ili_count.
    destruct (_ && _); simpl; by rewrite lookup_insert_eq.
Qed.

(** A reference to a common subexpression whose value is recorded and
    counted lowers to a copy of the recorded operand, through the tail
    of the engine. *)
Lemma gen_llvm_expr_cse_reference fuel ilix ety s k c :
  let ilix' := prefer_alt ilix in
  let csed_ilix := prefer_alt (ILI_OPND ilix' 1) in
  is_JSR_JSRA (ILI_OPC ilix) = false ->
  ilix' <> 0 ->
  is_cse_case (ILI_OPC ilix') = true ->
  csed_lookup (csedList s) (prefer_alt csed_ilix) = Some (mkCSED k (Some c)) ->
  ili_count s csed_ilix <> 0 ->
  gen_llvm_expr lower_other reconcile (S fuel) ilix ety s
  = gen_llvm_expr_finish reconcile ilix' ety (gen_copy_op c) s.
Proof.
  intros ilix' csed_ilix Hj H0 Hcse He Hc.
  destruct (is_cse_case_other _ Hcse) as [Hother Hdef].
  cbn [gen_llvm_expr]. rewrite Hj. fold ilix'.
  apply Z.eqb_neq in H0. rewrite H0.
  rewrite Hother, Hdef, Hcse. fold csed_ilix.
  apply Z.eqb_neq in Hc.
  unfold mbind, M_bind.
  rewrite (get_csed_operand_Some _ _ _ He). unfold get. rewrite Hc.
  unfold csed_deref, mbind, M_bind, get. rewrite He. reflexivity.
Qed.

(** The tail of the engine adds nothing to the instruction list before
    the cast to the expected type. *)
Lemma gen_llvm_expr_finish_split ilix operand s :
  is_Some (op_ll_type operand) ->
  exists s0,
    Instructions s0 = Instructions s
    /\ forall ety,
         gen_llvm_expr_finish reconcile ilix ety operand s
         = reconcile_tail reconcile ilix ety operand s0.
Proof.
  intros [ty Hty]. unfold gen_llvm_expr_finish. rewrite Hty.
  unfold get_csed_operand, set_csed_operand.
  unfold mbind at 1, M_bind at 1. unfold mbind at 1, M_bind at 1, get at 1.
  destruct (csed_lookup (csedList s) (prefer_alt ilix)).
  - eexists. split; [|intros ety; reflexivity]. reflexivity.
  - eexists. split; [|intros ety; reflexivity]. reflexivity.
Qed.


Lemma ili_count_cleared (l : list CSED_ITEM) s e :
  e ∈ l ->
  ili_count (foldr (fun csed s => set_ili_count (csed_ilix csed) 0 s) s l)
    (csed_ilix e) = 0.
Proof.
  induction l as [|c l IH]; intros He; [by apply elem_of_nil in He|].
  simpl. unfold ili_count, set_ili_count. simpl.
  destruct (decide (csed_ilix c = csed_ilix e)) as [->|Hne].
  - by rewrite lookup_insert_eq.
  - rewrite lookup_insert_ne by done.
    apply elem_of_cons in He as [->|He]; [done|]. by apply IH.
Qed.

Lemma clear_csed_list_ok s :
  exists s', clear_csed_list s = Some (tt, s')
    /\ csed_cleared s' /\ Instructions s' = Instructions s
    /\ map csed_ilix (csedList s') = map csed_ilix (csedList s).
Proof.
  unfold clear_csed_list, modify. eexists. split; [reflexivity|].
  split; [|split].
  - intros e He. simpl in He.
    apply list_elem_of_fmap in He as (e0 & -> & He0). simpl. split; [done|].
    unfold ili_count. simpl. by apply (ili_count_cleared _ s e0).
  - simpl. generalize (csedList s). intros l.
    induction l as [|c l IH]; [done|]. simpl. exact IH.
  - simpl. rewrite map_map. reflexivity.
Qed.

End EngineCache.

Section DemoEngineCache.
#[local] Existing Instance Demo.flags.
#[local] Existing Instance Demo.instr_flags.
#[local] Existing Instance Demo.debug_info.
#[local] Existing Instance Demo.symtab.
#[local] Existing Instance Demo.type_bridge.
#[local] Existing Instance Demo.generic_target.
#[local] Existing Instance Demo.ili.
#[local] Existing Instance Demo.helpers.
#[local] Existing Instance Demo.stmt_env.



End DemoEngineCache.

(** ** C7: labels, branches and dead labels in the printed text *)

Section PrintedLabels.
Context {IFl : InstrFlags} {IL : ILI} {ST : SymTab} {TB : TypeBridge}
        {PE : PrinterExt}.

Lemma plain_name n :
  control_names_plain -> n ∈ control_names ->
  BINOP n || BITOP n = false /\ CONVERT n = false.
Proof.
  unfold control_names_plain. rewrite Forall_forall. intros H Hn.
  specialize (H n Hn). by apply orb_false_iff in H.
Qed.

(** A label other than the entry label. *)
Lemma write_label prev next instrs w label rest :
  control_names_plain ->
  i_name instrs = I_NONE ->
  i_operands instrs = label :: rest ->
  val_sptr label <> 0 ->
  tst (i_flags instrs) CANCEL_CALL_DBG_VALUE = false ->
  exists rt tail w',
    write_instruction prev next instrs w
    = Some ((if label_needs_branch prev then branch_to_label (val_sptr label)
             else [])
            ++ [write_operand label EmptyString 0]
            ++ (match next with
                | None => return_after_label rt
                | Some _ => []
                end) ++ tail, w')
    /\ forceLabel w' = false.
Proof.
  intros Hplain Hn Ho Hs Hc.
  destruct (plain_name I_NONE Hplain) as [Hb Hcv];
    [unfold control_names; repeat (first [by left | right])|].
  unfold write_instruction. rewrite Hn, Hc, Hb, Hcv, Ho.
  unfold dont_force_a_dummy_label. rewrite Hn, !instr_eqb_refl.
  cbn [forceLabel]. cbv iota beta.
  apply Z.eqb_neq in Hs. rewrite Hs, andb_false_r.
  cbv iota beta.
  unfold label_needs_branch, branch_to_label, return_after_label.
  destruct next as [n|]; cbn [return_ll_type dead_counter forceLabel].
  - exists (return_ll_type w). eexists _, _.
    split; [cbn [app llvm_instr_names]; rewrite <- !app_assoc; reflexivity|].
    reflexivity.
  - eexists _, _, _.
    split; [cbn [app llvm_instr_names]; rewrite <- !app_assoc; cbn [app];
            reflexivity|].
    reflexivity.
Qed.

(** Whatever is written for an instruction starts with the dead label
    that is due. *)
Lemma write_instruction_dead prev next instrs w out w' :
  write_instruction prev next instrs w = Some (out, w') ->
  exists rest,
    out = (if negb (dont_force_a_dummy_label instrs next) && forceLabel w
           then [print_dead_label (dead_counter w)] else []) ++ rest.
Proof.
  intros E. unfold write_instruction in E.
  destruct (dont_force_a_dummy_label instrs next); cbn [negb andb forceLabel] in *.
  - cbv iota beta in E. repeat case_match; simplify_eq; eexists; reflexivity.
  - destruct (forceLabel w); cbv iota beta in E;
      repeat case_match; simplify_eq; eexists; reflexivity.
Qed.

(** After a switch, a return, an indirect branch and a branch that is
    written, a dead label is due. *)
Lemma write_terminator_forces prev next instrs w out w' :
  control_names_plain ->
  write_instruction prev next instrs w = Some (out, w') ->
  tst (i_flags instrs) CANCEL_CALL_DBG_VALUE = false ->
  i_name instrs = I_SW \/ i_name instrs = I_RET \/ i_name instrs = I_INDBR
  \/ (i_name instrs = I_BR /\ branch_is_written prev = true) ->
  forceLabel w' = true.
Proof.
  intros Hplain E Hc Hn. unfold write_instruction in E. rewrite Hc in E.
  destruct Hn as [Hn|[Hn|[Hn|[Hn Hw]]]]; rewrite Hn in E.
  - destruct (plain_name I_SW Hplain) as [Hb Hcv];
      [unfold control_names; repeat (first [by left | right])|].
    rewrite Hb, Hcv in E.
    repeat case_match; simplify_eq; reflexivity.
  - destruct (plain_name I_RET Hplain) as [Hb Hcv];
      [unfold control_names; repeat (first [by left | right])|].
    rewrite Hb, Hcv in E.
    repeat case_match; simplify_eq; reflexivity.
  - destruct (plain_name I_INDBR Hplain) as [Hb Hcv];
      [unfold control_names; repeat (first [by left | right])|].
    rewrite Hb, Hcv in E.
    repeat case_match; simplify_eq; reflexivity.
  - destruct (plain_name I_BR Hplain) as [Hb Hcv];
      [unfold control_names; repeat (first [by left | right])|].
    rewrite Hb, Hcv in E.
    unfold branch_is_written in Hw. rewrite Hw in E.
    repeat case_match; simplify_eq; reflexivity.
Qed.


End PrintedLabels.

Section DemoPrintedLabels.
#[local] Existing Instance Demo.instr_flags.
#[local] Existing Instance Demo.symtab.
#[local] Existing Instance Demo.type_bridge.
#[local] Existing Instance Demo.ili.
#[local] Existing Instance Demo.printer_ext.



End DemoPrintedLabels.

(** ** C9: the return at the end of the routine *)

Section DefaultReturn.
Context {Fl : Flags} {IFl : InstrFlags} {DI : DebugInfo} {IL : ILI}
        {ST : SymTab} {TB : TypeBridge} {TG : Target} {HP : Helpers}
        {SE : StmtEnv}.

(** The return statement, once its operand is lowered. *)
Lemma make_stmt_ret_ok chain ilix s ops s1 :
  gen_ret_op chain ilix
    (if extend_abi_return_info then make_lltype_from_dtype DT_INT
     else llvm_return_ll_type s) (set_last_stmt_is_branch true s)
    = Some (ops, s1) ->
  operands_wf ops ->
  exists ret s',
    make_stmt_ret chain ilix s = Some (tt, s')
    /\ Instructions s' = Instructions s1 ++ [ret]
    /\ i_name ret = I_RET
    /\ i_operands ret = ops
    /\ last_stmt_is_branch s' = last_stmt_is_branch s1.
Proof.
  intros Hops Hwf. unfold make_stmt_ret.
  unfold mbind at 1, M_bind at 1, get at 1.
  unfold mbind at 1, M_bind at 1, modify at 1.
  rewrite (bind_Some _ _ _ _ _ Hops).
  destruct (gen_instr_none I_RET None ops s1) as (ci & Hci & Hn & Ht & Ho & _).
  rewrite (bind_Some _ _ _ _ _ Hci).
  destruct (ad_instr_ok ilix ci (set_next_iid (S (next_iid s1)) s1)) as [u Had].
  { by rewrite Ho. }
  rewrite Had. eexists _, _. split; [reflexivity|]. simpl.
  split; [reflexivity|]. unfold added.
  destruct (new_ebb _); simpl; by rewrite Hn, Ho.
Qed.

Lemma make_stmt_RET_eq chain arg_fuel fuel ilix deletable n :
  make_stmt chain arg_fuel fuel STMT_RET ilix deletable n
  = (make_stmt_head;; make_stmt_ret chain ilix).
Proof. by destruct fuel. Qed.

Lemma made_return_count_concur opc l :
  made_return (count_concur opc l) = made_return l.
Proof.
  unfold count_concur.
  by destruct concur_enabled, (opc_is_BCONCUR opc), (opc_is_ECONCUR opc).
Qed.

(** The statements that reach the last case of [schedule_ilt]. *)
Lemma schedule_ilt_other chain arg_fuel fuel bih bihnext first_of_block
    last_of_block ilt l sa sb :
  let ilix := ILT_ILIP ilt in
  let opc := ILI_OPC ilix in
  BIH_EN bih && first_of_block = false ->
  (if flg_debug || XBIT 120 0x1000 then lldbg_emit_line (ILT_LINENO ilt)
   else mret tt) sa = Some (tt, sb) ->
  concur_enabled && negb (concurBih (count_concur opc l) =? 0) = false ->
  is_other_statement ilt = true ->
  schedule_ilt chain arg_fuel fuel bih bihnext first_of_block last_of_block
    ilt l sa
  = (if BIH_LAST bih && negb (made_return l)
     then stmt chain arg_fuel fuel STMT_RET ilix false 0;;
          mret (count_concur opc l)
     else mret (count_concur opc l)) sb.
Proof.
  intros ilix opc Hen Hdbg Hcc Hother.
  unfold is_other_statement in Hother. fold ilix in Hother. fold opc in Hother.
  repeat (apply andb_true_iff in Hother as [Hother ?]).
  repeat match goal with
         | H : negb _ = true |- _ => apply negb_true_iff in H
         end.
  unfold schedule_ilt. rewrite Hen.
  rewrite (bind_Some _ _ _ _ _ Hdbg). fold ilix. fold opc.
  rewrite Hcc, Hother.
  repeat match goal with
         | H : _ = false |- _ => rewrite H
         end.
  by rewrite made_return_count_concur.
Qed.

(** C9 (amended).  A statement of the last block that reaches the last
    case of the scheduler (it is no branch, store, call, fence, return
    of a value, free or label) is made a return statement when no
    return statement has been made for the routine before: once its
    operand is lowered, the instruction list ends in a [ret] with that
    operand.  When a return statement has been made before, the
    statement adds nothing.  The operand that the engine gives for an
    exit node when no return symbol is set is void for a void routine
    and undefined otherwise. *)
Theorem default_return_in_last_block chain arg_fuel fuel bih bihnext
    first_of_block last_of_block ilt l sa sb :
  let ilix := ILT_ILIP ilt in
  let opc := ILI_OPC ilix in
  BIH_EN bih && first_of_block = false ->
  (if flg_debug || XBIT 120 0x1000 then lldbg_emit_line (ILT_LINENO ilt)
   else mret tt) sa = Some (tt, sb) ->
  concur_enabled && negb (concurBih (count_concur opc l) =? 0) = false ->
  is_other_statement ilt = true ->
  BIH_LAST bih = true ->
  (made_return l = false ->
   forall sc ops sd,
     make_stmt_head sb = Some (tt, sc) ->
     gen_ret_op chain ilix
       (if extend_abi_return_info then make_lltype_from_dtype DT_INT
        else llvm_return_ll_type sc) (set_last_stmt_is_branch true sc)
       = Some (ops, sd) ->
     operands_wf ops ->
     exists ret se,
       schedule_ilt chain arg_fuel fuel bih bihnext first_of_block
         last_of_block ilt l sa = Some (count_concur opc l, se)
       /\ Instructions se = Instructions sd ++ [ret]
       /\ i_name ret = I_RET
       /\ i_operands ret = ops)
  /\ (made_return l = true ->
      schedule_ilt chain arg_fuel fuel bih bihnext first_of_block
        last_of_block ilt l sa = Some (count_concur opc l, sb))
  /\ (forall s,
        sret_sptr s = 0 ->
        gen_return_operand s
        = Some (match data_type (llvm_return_ll_type s) with
                | LL_VOID => set_op_ll_type (Some (llvm_return_ll_type s))
                               make_operand
                | _ => make_undef_op (Some (llvm_return_ll_type s))
                end, s)).
Proof.
  intros ilix opc Hen Hdbg Hcc Hother Hlast.
  pose proof (schedule_ilt_other chain arg_fuel fuel bih bihnext first_of_block
                last_of_block ilt l sa sb Hen Hdbg Hcc Hother) as Heq.
  fold ilix in Heq. fold opc in Heq. rewrite Hlast in Heq.
  split; [|split].
  - intros Hmr sc ops sd Hhead Hops Hwf.
    rewrite Hmr in Heq. cbn [negb andb] in Heq.
    destruct (make_stmt_ret_ok chain ilix sc ops sd Hops Hwf)
      as (ret & se & Hrun & Hi & Hn & Ho & _).
    exists ret, se. split; [|done].
    assert (Hst : stmt chain arg_fuel fuel STMT_RET ilix false 0 sb = Some (tt, se)).
    { unfold stmt. rewrite make_stmt_RET_eq.
      by rewrite (bind_Some _ _ _ _ _ Hhead). }
    rewrite Heq. by rewrite (bind_Some _ _ _ _ _ Hst).
  - intros Hmr. rewrite Hmr in Heq. exact Heq.
  - intros s Hs. unfold gen_return_operand.
    unfold mbind, M_bind, get. rewrite Hs.
    by destruct (data_type (llvm_return_ll_type s)).
Qed.

End DefaultReturn.

Section DemoDefaultReturn.
#[local] Existing Instance Demo.flags.
#[local] Existing Instance Demo.instr_flags.
#[local] Existing Instance Demo.debug_info.
#[local] Existing Instance Demo.symtab.
#[local] Existing Instance Demo.type_bridge.
#[local] Existing Instance Demo.generic_target.
#[local] Existing Instance Demo.ili.
#[local] Existing Instance Demo.helpers.
#[local] Existing Instance Demo.stmt_env.
#[local] Existing Instance Demo.printer_ext.

(** The exit statement in a last block, when no return has been made:
    it becomes the return. *)
Lemma default_return_in_last_block_witness :
  exists ret se,
    schedule_ilt Demo.engine_chain 4 1 (Demo.last_block [Demo.exit_ilt]) None
      true true Demo.exit_ilt Demo.no_locals Demo.init
      = Some (Demo.no_locals, se)
    /\ Instructions se = [ret]
    /\ i_name ret = I_RET.
Proof.
  destruct (default_return_in_last_block Demo.engine_chain 4 1
              (Demo.last_block [Demo.exit_ilt]) None true true Demo.exit_ilt
              Demo.no_locals Demo.init Demo.init) as [H _];
    try reflexivity.
  edestruct (H eq_refl Demo.init) as (ret & se & Hrun & Hi & Hn & _).
  - reflexivity.
  - vm_compute. reflexivity.
  - repeat constructor; intros; discriminate.
  - exists ret, se. split; [exact Hrun|]. split; [exact Hi|exact Hn].
Defined.

(** A routine of two blocks: the first returns the value of the ILI 4,
    the last one, at the label 50, has the exit statement only.  The
    last block has no return statement and the scheduler makes none for
    it: the instruction list is the entry label, the return of the
    first block and the label 50, and ends in that label. *)
Lemma no_default_return_after_an_earlier_return :
  option_map (fun r => map i_name (Instructions (snd r)))
    (schedule_body Demo.engine_chain 4 4 Demo.engine
       [Demo.plain_block false [Demo.return_ilt];
        Demo.last_block [Demo.exit_ilt]] Demo.init)
  = Some [I_NONE; I_RET; I_NONE].
Proof. vm_compute. reflexivity. Qed.

End DemoDefaultReturn.

(** ** C1: the fused multiply-add rewrite *)

(** *** Instructions found by their address *)

Lemma find_instr_Some id l i :
  find_instr id l = Some i -> i ∈ l /\ iid i = id.
Proof.
  unfold find_instr. intros E. apply find_some in E as [Hin Heq].
  split; [by apply list_elem_of_In|]. by apply Nat.eqb_eq.
Qed.

Lemma find_instr_elem id l i :
  NoDup (iid <$> l) -> i ∈ l -> iid i = id -> find_instr id l = Some i.
Proof.
  induction l as [|a l IH]; intros Hnd Hin Hid; [by apply elem_of_nil in Hin|].
  rewrite fmap_cons in Hnd. apply NoDup_cons in Hnd as [Hna Hnd].
  unfold find_instr. simpl. destruct (Nat.eqb (iid a) id) eqn:E.
  - apply Nat.eqb_eq in E. apply elem_of_cons in Hin as [->|Hin]; [done|].
    exfalso. apply Hna. rewrite E, <- Hid. by apply list_elem_of_fmap_2.
  - apply elem_of_cons in Hin as [->|Hin].
    + apply Nat.eqb_neq in E. done.
    + by apply IH.
Qed.

Lemma update_instr_iids id f l :
  (forall i, iid (f i) = iid i) ->
  iid <$> update_instr id f l = iid <$> l.
Proof.
  intros Hf. unfold update_instr. induction l as [|a l IH]; [done|].
  rewrite map_cons, !fmap_cons. f_equal; [|exact IH].
  destruct (Nat.eqb (iid a) id); [apply Hf|done].
Qed.

Lemma find_instr_update id id' f l :
  (forall i, iid (f i) = iid i) ->
  find_instr id (update_instr id' f l)
  = if Nat.eqb id id' then f <$> find_instr id l else find_instr id l.
Proof.
  intros Hf. unfold find_instr, update_instr.
  induction l as [|a l IH]; simpl; [by destruct (Nat.eqb id id')|].
  destruct (Nat.eqb (iid a) id') eqn:Ea.
  - rewrite Hf. destruct (Nat.eqb (iid a) id) eqn:Eb.
    + apply Nat.eqb_eq in Ea, Eb. subst. by rewrite Nat.eqb_refl.
    + exact IH.
  - destruct (Nat.eqb (iid a) id) eqn:Eb.
    + apply Nat.eqb_eq in Eb. subst. by rewrite Ea.
    + exact IH.
Qed.

Lemma find_instr_app id l r i :
  find_instr id l = Some i -> find_instr id (l ++ r) = Some i.
Proof.
  unfold find_instr. induction l as [|a l IH]; simpl; [done|].
  by destruct (Nat.eqb (iid a) id).
Qed.

Lemma find_instr_app_fresh id l c :
  (forall i, i ∈ l -> iid i <> id) -> iid c = id ->
  find_instr id (l ++ [c]) = Some c.
Proof.
  intros Hl Hc. unfold find_instr. induction l as [|a l IH]; simpl.
  - by rewrite Hc, Nat.eqb_refl.
  - assert (iid a <> id) as Ha by (apply Hl; by left).
    apply Nat.eqb_neq in Ha. rewrite Ha. apply IH. intros i Hi. apply Hl. by right.
Qed.

Lemma last_update_instr id f l :
  last (update_instr id f l) = (fun i => if Nat.eqb (iid i) id then f i else i) <$> last l.
Proof. unfold update_instr. by rewrite <- fmap_last. Qed.

(** The new instructions after [last] are the ones added since. *)
Lemma instrs_after_snoc l lst c :
  last l = Some lst ->
  (forall i, i ∈ c -> iid i <> iid lst) ->
  NoDup (iid <$> l) ->
  instrs_after (iid lst) (l ++ c) = Some (l, c).
Proof.
  intros Hl Hc Hnd.
  assert (Hc' : instrs_after (iid lst) c = None).
  { clear Hl Hnd. induction c as [|a c IH]; [done|]. simpl.
    rewrite IH by (intros i Hi; apply Hc; by right).
    assert (iid a <> iid lst) as Ha by (apply Hc; by left).
    apply Nat.eqb_neq in Ha. by rewrite Ha. }
  revert Hl Hnd. induction l as [|a l IH]; intros Hl Hnd; [done|].
  destruct l as [|b l].
  - simpl in Hl. injection Hl as ->. simpl. rewrite Hc'.
    by rewrite Nat.eqb_refl.
  - change (last (a :: b :: l)) with (last (b :: l)) in Hl.
    rewrite fmap_cons in Hnd. apply NoDup_cons in Hnd as [_ Hnd].
    specialize (IH Hl Hnd).
    change ((a :: b :: l) ++ c) with (a :: ((b :: l) ++ c)).
    simpl instrs_after. simpl in IH. by rewrite IH.
Qed.

Section FusedMultiplyAdd.
Context {Fl : Flags} {IFl : InstrFlags} {DI : DebugInfo} {IL : ILI}
        {ST : SymTab} {TB : TypeBridge} {TG : Target} {HP : Helpers}.
Variable gen_llvm_expr : Z -> option LL_Type -> M OPERAND.

Lemma keep_alive_ok operands s :
  exists u, keep_alive operands s = Some (tt, set_use_count u s).
Proof.
  revert s. induction operands as [|op ops IH]; intros s.
  - exists (use_count s). by destruct s.
  - simpl. destruct (op_tmps op) as [t|].
    + destruct (IH (add_use_count t 100 s)) as [u E].
      exists u. unfold mbind, M_bind, modify. by rewrite E.
    + destruct (IH s) as [u E]. exists u. unfold mbind, M_bind, mret, M_ret.
      by rewrite E.
Qed.

Lemma get_intrinsic_ok name ty s :
  declarable s name ty ->
  exists decl, get_intrinsic name ty s
    = Some (mkOPERAND OT_CALL None (Some (make_ptr_lltype ty)) 0 0 (0, 0)
              (Some name) 0,
            set_declared_intrinsics decl s).
Proof.
  unfold declarable, get_intrinsic. munfold.
  destruct (hashmap_lookup (declared_intrinsics s) name) as [old|]; [intros ->|intros _].
  - exists (declared_intrinsics s). by destruct s.
  - destruct (String.prefix "asm " name).
    + exists (declared_intrinsics s). by destruct s.
    + by eexists.
Qed.

Lemma update_instr_ext id f g l :
  (forall i, f i = g i) -> update_instr id f l = update_instr id g l.
Proof.
  intros E. unfold update_instr. apply map_ext. intros i. by rewrite E.
Qed.

(** A call of an intrinsic: the new last instruction defines a new
    temporary. *)
Lemma gen_call_llvm_intrinsic_ok fname params rty s :
  operands_wf params ->
  declarable s ("@llvm." ++ fname)
    (make_function_type_from_args rty params false) ->
  exists s1 call,
    gen_call_llvm_intrinsic fname params rty I_PICALL s
    = Some (make_tmp_op (Some rty) (Some (next_tmps s)), s1)
    /\ Instructions s1 = Instructions s ++ [call]
    /\ idef s1 !! next_tmps s = Some (next_iid s)
    /\ iid call = next_iid s
    /\ forall add, overwrite_fields call add
         = fused (intrinsic_call_flags s) rty
             (intrinsic_callee ("@llvm." ++ fname) rty params :: params) add.
Proof.
  intros Hwf Hdecl. unfold gen_call_llvm_intrinsic, gen_call_to_builtin.
  unfold make_tmps at 1. unfold mbind at 1, M_bind at 1.
  destruct (make_instr_ok I_PICALL (set_next_tmps (S (next_tmps s)) s))
    as (ci & Hmk & Hn & Ho & Hf & Hid & Ht & Hty).
  rewrite (bind_Some _ _ _ _ _ Hmk).
  unfold modify at 1. unfold mbind at 1, M_bind at 1.
  unfold get_intrinsic_call_ops.
  match goal with |- (exists _ _, (?gi ≫= _) ?st = _ /\ _) =>
    assert (exists decl, gi st
      = Some (intrinsic_callee ("@llvm." ++ fname) rty params :: params,
              set_declared_intrinsics decl st)) as [decl Hgi]
  end.
  { match goal with |- (exists _, _ ?st = _) =>
      destruct (get_intrinsic_ok ("@llvm." ++ fname)
                  (make_function_type_from_args rty params false) st)
        as [decl Hgi]; [exact Hdecl|] end.
    exists decl. by rewrite (bind_Some _ _ _ _ _ Hgi). }
  rewrite (bind_Some _ _ _ _ _ Hgi).
  match goal with |- (exists _ _, (ad_instr 0 ?i ≫= _) ?st = _ /\ _) =>
    destruct (ad_instr_ok 0 i st) as [u Had]; [simpl; constructor; [done|exact Hwf]|]
  end.
  rewrite (bind_Some _ _ _ _ _ Had).
  eexists _, _. split; [reflexivity|]. simpl.
  split; [reflexivity|]. split; [by rewrite lookup_insert_eq, Hid|].
  split.
  { unfold added. simpl. destruct (new_ebb s); simpl; exact Hid. }
  intros add. unfold make_instr in Hmk. injection Hmk as <-.
  unfold overwrite_fields, fused, added, intrinsic_call_flags.
  simpl. by destruct (new_ebb s).
Qed.

(** The call is made and the add overwritten with it: the list is the
    one before, with the fields of the call in the object of the add. *)
Lemma fma_replace_ok insn lst lst' name args llTy s add :
  target <> TARGET_LLVM_X8664 ->
  instrs_allocated s ->
  last (Instructions s) = Some lst' -> iid lst' = iid lst ->
  find_instr insn (Instructions s) = Some add ->
  operands_wf args ->
  declarable s ("@llvm." ++ name)
    (make_function_type_from_args llTy args false) ->
  exists s',
    fma_replace insn lst name args llTy s = Some (tt, s')
    /\ Instructions s'
       = update_instr insn
           (fused (intrinsic_call_flags s) llTy
              (intrinsic_callee ("@llvm." ++ name) llTy args :: args))
           (Instructions s)
    /\ killCSE s' = false.
Proof.
  intros Htg [Hnd Hlt] Hlast Hlid Hfind Hwf Hdecl. unfold fma_replace.
  destruct (gen_call_llvm_intrinsic_ok name args llTy s Hwf Hdecl)
    as (s1 & call & Hcall & HI1 & Hidef1 & Hcid & Hover).
  rewrite (bind_Some _ _ _ _ _ Hcall).
  assert (Hret : forall op s0,
    match target with
    | TARGET_LLVM_X8664 => bump_use_count op 1;; gen_extract_vector op 0
    | _ => mret op
    end s0 = Some (op, s0)).
  { intros op s0. by destruct target. }
  rewrite (bind_Some _ _ _ _ _ (Hret _ _)).
  assert (Hbump : bump_use_count (make_tmp_op (Some llTy) (Some (next_tmps s))) 1 s1
                  = Some (tt, add_use_count (next_tmps s) 1 s1)) by reflexivity.
  rewrite (bind_Some _ _ _ _ _ Hbump).
  assert (Hdef : idef_of (make_tmp_op (Some llTy) (Some (next_tmps s)))
                   (add_use_count (next_tmps s) 1 s1)
                 = Some (call, add_use_count (next_tmps s) 1 s1)).
  { unfold idef_of. munfold. rewrite Hidef1. simpl. rewrite HI1.
    rewrite (find_instr_app_fresh (next_iid s) (Instructions s) call); [done| |done].
    intros i Hi. specialize (Hlt i Hi). lia. }
  rewrite (bind_Some _ _ _ _ _ Hdef).
  assert (Hafter : instrs_after (iid lst) (Instructions s ++ [call])
                   = Some (Instructions s, [call])).
  { rewrite <- Hlid. apply instrs_after_snoc; [done| |done].
    intros i Hi. apply list_elem_of_singleton in Hi as ->. rewrite Hcid.
    assert (lst' ∈ Instructions s) as Hin.
    { apply last_Some in Hlast as [l' ->]. apply elem_of_app. right. by left. }
    specialize (Hlt _ Hin). lia. }
  destruct (keep_alive_ok (i_operands call)
              (set_Instructions
                 (update_instr insn (overwrite_fields call) (Instructions s))
                 (add_use_count (next_tmps s) 1 s1))) as [u Hkeep].
  assert (Hov : overwrite_fma_add insn (iid call) (iid lst)
                  (add_use_count (next_tmps s) 1 s1)
                = Some (tt, set_use_count u
                    (set_Instructions
                       (update_instr insn (overwrite_fields call) (Instructions s))
                       (add_use_count (next_tmps s) 1 s1)))).
  { unfold overwrite_fma_add.
    unfold mbind, M_bind, get, of_option, modify, mret, M_ret.
    cbn [Instructions add_use_count set_use_count]. rewrite HI1, Hafter.
    cbn [find_instr find iid]. rewrite Nat.eqb_refl. cbn [negb].
    rewrite Hfind. exact Hkeep. }
  rewrite (bind_Some _ _ _ _ _ Hov).
  eexists. split; [reflexivity|]. simpl. split; [|done].
  apply update_instr_ext. exact Hover.
Qed.

(** *** The candidate *)

Lemma is_mul_not_neg opc :
  opc_is_FMUL opc || opc_is_DMUL opc = true -> opc_is_NEG opc = false.
Proof. by destruct opc. Qed.

(** The candidate is one of the two operands of a floating add or
    subtract; without the intrinsics of the target it is a multiply under
    an add. *)
Lemma fused_multiply_add_candidate_cases ilix :
  fused_multiply_add_candidate ilix <> 0 ->
  (fused_multiply_add_candidate ilix = ILI_OPND ilix 1
   \/ fused_multiply_add_candidate ilix = ILI_OPND ilix 2)
  /\ exists root, mac_root_of (ILI_OPC ilix) = Some root
       /\ (target_has_mac = false ->
           (root = root_FADD \/ root = root_DADD)
           /\ opc_is_NEG (ILI_OPC (fused_multiply_add_candidate ilix)) = false).
Proof.
  unfold fused_multiply_add_candidate.
  destruct (mac_root_of (ILI_OPC ilix)) as [[]|]; [| | | |done];
    destruct target_has_mac; try done;
    rewrite ?andb_true_l, ?andb_false_l;
    repeat match goal with
    | |- context [if ?c then _ else _] => destruct c eqn:?
    end; try done; intros _;
    (split; [auto|]); eexists; (split; [reflexivity|]); intros ?; try done;
    (split; [auto|]); apply is_mul_not_neg;
    repeat match goal with H : _ = true |- _ => rewrite H end;
    by rewrite ?orb_true_r.
Qed.

Lemma get_mac_name_inv ilix matches l r n swap fneg :
  get_mac_name ilix matches l r = Some (n, swap, fneg) ->
  swap = (matches =? r)
  /\ fneg = opc_is_NEG (ILI_OPC (if matches =? r then r else l)).
Proof.
  unfold get_mac_name. intros E.
  destruct (mac_root_of (ILI_OPC ilix)) as [root|]; [|discriminate E].
  simpl in E.
  match type of E with (?m ≫= _) = _ => destruct m; [|discriminate E] end.
  simpl in E. by injection E as _ <- <-.
Qed.

(** *** The arguments of the call *)

Lemma idef_of_def_of op s i :
  def_of s op = Some i -> idef_of op s = Some (i, s).
Proof.
  unfold def_of, idef_of. intros E.
  unfold mbind at 1, M_bind at 1, get, of_option. by rewrite E.
Qed.

Lemma idef_of_None op s : def_of s op = None -> idef_of op s = None.
Proof.
  unfold def_of, idef_of. intros E.
  unfold mbind at 1, M_bind at 1, get, of_option. by rewrite E.
Qed.

(** The operand under the negation, as the rewrite reads it. *)
Lemma multiply_operand_neg s matches l mul :
  opc_is_NEG (ILI_OPC matches) = true ->
  multiply_operand s matches l = Some mul ->
  (inner ← second_operand_of_def l; of_option (head inner)) s = Some (mul, s).
Proof.
  unfold multiply_operand. intros -> E.
  destruct (def_of s l) as [negi|] eqn:Hd; [|discriminate E]. simpl in E.
  unfold second_operand_of_def.
  unfold mbind at 1, M_bind at 1. unfold mbind at 1, M_bind at 1.
  rewrite (idef_of_def_of _ _ _ Hd).
  destruct (i_operands negi) as [|z inner]; [discriminate E|].
  unfold mret, M_ret, of_option. simpl in E. by rewrite E.
Qed.

Section Site.
Variables (ilix : Z) (s : cg_state) (x y l c mul a b : OPERAND)
          (rest : list OPERAND) (tl : TMPS) (muli : INSTR_LIST).
Let lhs_ili := ILI_OPND ilix 1.
Let rhs_ili := ILI_OPND ilix 2.
Let matches := fused_multiply_add_candidate ilix.
Hypothesis Hne : lhs_ili <> rhs_ili.
Hypothesis Hcand : matches <> 0.
Hypothesis Hl : (l, c) = if matches =? lhs_ili then (x, y) else (y, x).
Hypothesis Hmul : multiply_operand s matches l = Some mul.
Hypothesis Htl : op_tmps l = Some tl.
Hypothesis Hdef : def_of s mul = Some muli.
Hypothesis Hops : i_operands muli = a :: b :: rest.

Lemma matched_side :
  (matches =? rhs_ili) = negb (matches =? lhs_ili).
Proof.
  destruct (fused_multiply_add_candidate_cases ilix Hcand) as [[E|E] _];
    fold matches lhs_ili rhs_ili in E; rewrite E.
  - rewrite Z.eqb_refl. simpl. by apply Z.eqb_neq.
  - rewrite Z.eqb_refl. symmetry. apply negb_true_iff, Z.eqb_neq. congruence.
Qed.

(** The multiply is given the addend as its third operand and the
    matched operand counts one use less. *)
Lemma fma_arguments_ok isSinglePrec llTy :
  target_has_mac = false ->
  fma_arguments gen_llvm_expr matches (ILI_OPC ilix) x y lhs_ili rhs_ili
    isSinglePrec llTy s
  = Some ((if isSinglePrec then "fma.f32" else "fma.f64", [a; b; c], llTy)%string,
          add_use_count tl (-1)
            (set_Instructions
               (update_instr (iid muli) (set_i_operands [a; b; c])
                  (Instructions s)) s)).
Proof.
  intros Hmac.
  destruct (fused_multiply_add_candidate_cases ilix Hcand)
    as [_ (root & Hroot & Hgen)]. destruct (Hgen Hmac) as [Hadd Hneg].
  fold matches in Hneg.
  assert (Hml : mul = l).
  { unfold multiply_operand in Hmul. rewrite Hneg in Hmul. congruence. }
  subst mul.
  assert (Hcanon :
    fused_multiply_add_canonical_form gen_llvm_expr matches (ILI_OPC ilix)
      x y lhs_ili rhs_ili s
    = Some (([l], [c], (if matches =? rhs_ili then rhs_ili else lhs_ili),
             (if matches =? rhs_ili then lhs_ili else rhs_ili)), s)).
  { unfold fused_multiply_add_canonical_form. rewrite Hroot.
    assert (Hlopc : opc_is_NEG (ILI_OPC (if matches =? rhs_ili then rhs_ili else lhs_ili)) = false).
    { destruct (fused_multiply_add_candidate_cases ilix Hcand) as [[E|E] _];
        fold matches lhs_ili rhs_ili in E.
      - rewrite matched_side, E, Z.eqb_refl. simpl. by rewrite <- E.
      - rewrite E, Z.eqb_refl. by rewrite <- E. }
    rewrite matched_side in *.
    destruct (matches =? lhs_ili); injection Hl as -> ->; simpl in *;
      destruct Hadd as [->| ->]; munfold; by rewrite Hlopc. }
  unfold fma_arguments. rewrite (bind_Some _ _ _ _ _ Hcanon).
  assert (Hhd : of_option (head [l]) s = Some (l, s)) by reflexivity.
  rewrite (bind_Some _ _ _ _ _ Hhd).
  rewrite (bind_Some _ _ _ _ _ (idef_of_def_of _ _ _ Hdef)). rewrite Hops.
  unfold extend_multiply, bump_use_count. rewrite Htl. reflexivity.
Qed.

(** The same with the intrinsics of the POWER target. *)
Lemma mac_arguments_ok isSinglePrec llTy name :
  target = TARGET_LLVM_POWER ->
  fma_intrinsic_name ilix matches = Some name ->
  mac_arguments ilix matches x y lhs_ili rhs_ili isSinglePrec llTy s
  = Some ((name, [a; b; c], llTy),
          add_use_count tl (-1)
            (set_Instructions
               (update_instr (iid muli) (set_i_operands [a; b; c])
                  (Instructions s)) s)).
Proof.
  intros Htg Hname. unfold fma_intrinsic_name in Hname. rewrite Htg in Hname.
  fold lhs_ili rhs_ili in Hname.
  destruct (get_mac_name ilix matches lhs_ili rhs_ili) as [[[n swap] fneg]|] eqn:Hmac;
    [|discriminate Hname].
  simpl in Hname. injection Hname as ->.
  destruct (get_mac_name_inv _ _ _ _ _ _ _ Hmac) as [-> ->].
  assert (Hopc : ILI_OPC (if matches =? rhs_ili then rhs_ili else lhs_ili)
                 = ILI_OPC matches).
  { destruct (fused_multiply_add_candidate_cases ilix Hcand) as [[E|E] _];
      fold matches lhs_ili rhs_ili in E.
    - rewrite matched_side, E, Z.eqb_refl. simpl. by rewrite <- E.
    - rewrite E, Z.eqb_refl. by rewrite <- E. }
  rewrite Hopc in Hmac.
  unfold mac_arguments.
  assert (Hget : of_option (get_mac_name ilix matches lhs_ili rhs_ili) s
                 = Some ((name, matches =? rhs_ili, opc_is_NEG (ILI_OPC matches)), s)).
  { unfold of_option. by rewrite Hmac. }
  rewrite (bind_Some _ _ _ _ _ Hget).
  assert (Hlr : (if matches =? rhs_ili then (y, x) else (x, y)) = (l, c)).
  { rewrite matched_side. by destruct (matches =? lhs_ili). }
  rewrite Hlr.
  assert (Hm : (if opc_is_NEG (ILI_OPC matches)
                then inner ← second_operand_of_def l; of_option (head inner)
                else mret l) s = Some (mul, s)).
  { destruct (opc_is_NEG (ILI_OPC matches)) eqn:Hneg.
    - by apply (multiply_operand_neg s matches l mul).
    - unfold multiply_operand in Hmul. rewrite Hneg in Hmul. by injection Hmul as ->. }
  rewrite (bind_Some _ _ _ _ _ Hm).
  rewrite (bind_Some _ _ _ _ _ (idef_of_def_of _ _ _ Hdef)). rewrite Hops.
  unfold extend_multiply, bump_use_count. rewrite Htl, Htg. reflexivity.
Qed.

End Site.

(** *** The rewrite of one add *)

Lemma fma_prepare_ok s :
  exists s0, clear_csed_list (set_killCSE true s) = Some (tt, s0)
    /\ same_code s s0.
Proof.
  unfold clear_csed_list, modify. eexists. split; [reflexivity|].
  unfold same_code. simpl. generalize (csedList s). intros l.
  induction l as [|e l IH]; [done|]. simpl. exact IH.
Qed.

Lemma def_of_same_code s s0 op :
  same_code s s0 -> def_of s0 op = def_of s op.
Proof. intros (HI & _ & Hd & _). unfold def_of. by rewrite HI, Hd. Qed.

Lemma instrs_allocated_update s s2 id f :
  (forall i, iid (f i) = iid i) ->
  Instructions s2 = update_instr id f (Instructions s) ->
  next_iid s2 = next_iid s ->
  instrs_allocated s -> instrs_allocated s2.
Proof.
  intros Hf HI Hn [Hnd Hlt]. unfold instrs_allocated.
  rewrite HI, Hn, update_instr_iids by done. split; [done|].
  intros i Hi. unfold update_instr in Hi.
  apply list_elem_of_fmap in Hi as (i0 & -> & Hi0).
  specialize (Hlt i0 Hi0). destruct (Nat.eqb (iid i0) id); [by rewrite Hf|done].
Qed.

(** The guards of [maybe_generate_fma]: the use counts of the matched
    operand and of the product under a negation. *)
Lemma fma_guards_pass s matches l mul tl tm :
  multiply_operand s matches l = Some mul ->
  op_tmps l = Some tl -> usect s tl <= 1 ->
  op_tmps mul = Some tm -> usect s tm <= 1 ->
  fma_mult_has_mult_uses l s = Some (false, s)
  /\ (if opc_is_NEG (ILI_OPC matches)
      then inner ← second_operand_of_def l;
           m ← of_option (head inner);
           fma_mult_has_mult_uses m
      else mret false) s = Some (false, s).
Proof.
  intros Hmul Htl Hul Htm Hum.
  assert (Hu : forall op t, op_tmps op = Some t -> usect s t <= 1 ->
                 fma_mult_has_mult_uses op s = Some (false, s)).
  { intros op t Ht Hle. unfold fma_mult_has_mult_uses. munfold. rewrite Ht.
    assert ((1 <? usect s t) = false) as -> by (apply Z.ltb_ge; lia). done. }
  split; [by apply (Hu l tl)|].
  destruct (opc_is_NEG (ILI_OPC matches)) eqn:Hneg; [|done].
  pose proof (multiply_operand_neg s matches l mul Hneg Hmul) as E.
  unfold mbind at 1, M_bind at 1.
  unfold mbind at 1, M_bind at 1 in E.
  destruct (second_operand_of_def l s) as [[inner s1]|]; [|discriminate E].
  rewrite (bind_Some _ _ _ _ _ E). by apply (Hu mul tm).
Qed.

Lemma fma_guards_stop s matches l mul :
  multiply_operand s matches l = Some mul ->
  (forall t, op_tmps mul = Some t -> 1 < usect s t) ->
  fma_mult_has_mult_uses l s = Some (true, s)
  \/ fma_mult_has_mult_uses l s = Some (false, s)
     /\ (if opc_is_NEG (ILI_OPC matches)
         then inner ← second_operand_of_def l;
              m ← of_option (head inner);
              fma_mult_has_mult_uses m
         else mret false) s = Some (true, s).
Proof.
  intros Hmul Hmany.
  assert (Hu : forall op, (forall t, op_tmps op = Some t -> 1 < usect s t) ->
                 fma_mult_has_mult_uses op s = Some (true, s)).
  { intros op Ht. unfold fma_mult_has_mult_uses. munfold.
    destruct (op_tmps op) as [t|]; [|done].
    assert ((1 <? usect s t) = true) as -> by (apply Z.ltb_lt; by apply Ht). done. }
  destruct (opc_is_NEG (ILI_OPC matches)) eqn:Hneg.
  - assert (fma_mult_has_mult_uses l s = Some (true, s)
            \/ fma_mult_has_mult_uses l s = Some (false, s)) as [E|E].
    { unfold fma_mult_has_mult_uses. munfold.
      destruct (op_tmps l); [destruct (1 <? usect s _)|]; auto. }
    + by left.
    + right. split; [done|].
      pose proof (multiply_operand_neg s matches l mul Hneg Hmul) as E'.
      unfold mbind at 1, M_bind at 1.
      unfold mbind at 1, M_bind at 1 in E'.
      destruct (second_operand_of_def l s) as [[inner s1]|]; [|discriminate E'].
      rewrite (bind_Some _ _ _ _ _ E'). by apply Hu.
  - left. unfold multiply_operand in Hmul. rewrite Hneg in Hmul.
    injection Hmul as ->. by apply Hu.
Qed.


Lemma multiply_operand_same_code s s0 matches l :
  same_code s s0 -> multiply_operand s0 matches l = multiply_operand s matches l.
Proof.
  intros Hs. unfold multiply_operand. by rewrite (def_of_same_code s s0).
Qed.

Ltac mstep H := rewrite (bind_Some _ _ _ _ _ H); cbv beta iota.


End FusedMultiplyAdd.

Section DemoFusedMultiplyAdd.
#[local] Existing Instance Demo.flags.
#[local] Existing Instance Demo.instr_flags.
#[local] Existing Instance Demo.debug_info.
#[local] Existing Instance Demo.symtab.
#[local] Existing Instance Demo.type_bridge.
#[local] Existing Instance Demo.generic_target.
#[local] Existing Instance Demo.ili.
#[local] Existing Instance Demo.helpers.



End DemoFusedMultiplyAdd.

(** * Further properties of the instruction list *)

Section InstructionList.
Context {Fl : Flags} {IFl : InstrFlags} {DI : DebugInfo}.

Lemma ot_eqb_eq a b : ot_eqb a b = true <-> a = b.
Proof. destruct a, b; simpl; split; intros E; try done. Qed.

Lemma ot_eqb_sym a b : ot_eqb a b = ot_eqb b a.
Proof. by destruct a, b. Qed.

(** X1.  [same_op] is symmetric, and an operand is the same as itself
    exactly when it is a temporary, a variable or a constant value:
    operands of another kind are never the same, not even one and
    itself. *)
Theorem same_op_symmetric_on_comparable_kinds :
  (forall op1 op2, same_op op1 op2 = same_op op2 op1)
  /\ (forall op, same_op op op = comparable_kind (ot_type op))
  /\ (forall op1 op2, same_op op1 op2 = true ->
        ot_type op1 = ot_type op2 /\ comparable_kind (ot_type op1) = true).
Proof.
  split; [|split].
  - intros op1 op2. unfold same_op. rewrite (ot_eqb_sym (ot_type op2)).
    destruct (ot_eqb (ot_type op1) (ot_type op2)) eqn:E; [|done].
    apply ot_eqb_eq in E. rewrite <- E. simpl.
    destruct (ot_type op1); try done.
    + apply Z.eqb_sym.
    + apply bool_decide_ext. split; congruence.
    + by rewrite (Z.eqb_sym (fst (val_conval op1))),
                 (Z.eqb_sym (snd (val_conval op1))).
  - intros op. unfold same_op.
    assert (ot_eqb (ot_type op) (ot_type op) = true) as -> by by apply ot_eqb_eq.
    simpl. destruct (ot_type op); simpl; try done.
    + apply Z.eqb_refl.
    + by apply bool_decide_eq_true_2.
    + by rewrite !Z.eqb_refl.
  - intros op1 op2. unfold same_op.
    destruct (ot_eqb (ot_type op1) (ot_type op2)) eqn:E; [|done].
    apply ot_eqb_eq in E. simpl. intros Hs. split; [done|].
    by destruct (ot_type op1).
Qed.

Lemma count_operand_uses_usect operands : forall s,
  operands_wf operands ->
  exists s', count_operand_uses operands s = Some (tt, s')
    /\ (forall t, usect s' t = usect s t + tmp_uses operands t)
    /\ Instructions s' = Instructions s /\ new_ebb s' = new_ebb s
    /\ next_tmps s' = next_tmps s /\ next_iid s' = next_iid s
    /\ idef s' = idef s.
Proof.
  induction operands as [|op ops IH]; intros s Hwf.
  - exists s. split; [done|]. split; [intros t; simpl; lia|done].
  - apply Forall_cons in Hwf as [Hop Hops]. simpl count_operand_uses.
    destruct (ot_eqb (ot_type op) OT_TMP) eqn:E.
    + apply ot_eqb_eq in E as Hot. destruct (Hop Hot) as [t0 Ht0]. rewrite Ht0.
      destruct (IH (add_use_count t0 1 s) Hops) as (s' & Hrun & Hu & HI & Hrest).
      exists s'. split.
      { unfold mbind, M_bind, modify. exact Hrun. }
      split; [|by rewrite HI].
      intros t. rewrite Hu, usect_add_use_count. simpl tmp_uses.
      rewrite E, Ht0. simpl.
      destruct (decide (t0 = t)) as [->|Hne].
      * rewrite bool_decide_eq_true_2 by done. lia.
      * rewrite bool_decide_eq_false_2 by congruence. lia.
    + destruct (IH s Hops) as (s' & Hrun & Hu & Hrest).
      exists s'. split.
      { unfold mbind, M_bind, mret, M_ret. exact Hrun. }
      split; [|done]. intros t. rewrite Hu. simpl tmp_uses. rewrite E. simpl. lia.
Qed.

Lemma count_operand_uses_crash operands : forall s,
  ~ operands_wf operands -> count_operand_uses operands s = None.
Proof.
  induction operands as [|op ops IH]; intros s Hwf.
  - exfalso. apply Hwf. constructor.
  - simpl. destruct (ot_eqb (ot_type op) OT_TMP) eqn:E.
    + destruct (op_tmps op) as [t|] eqn:Ht.
      * unfold mbind, M_bind, modify. apply IH. intros Hops. apply Hwf.
        constructor; [by eexists|done].
      * done.
    + unfold mbind, M_bind, mret, M_ret. apply IH. intros Hops. apply Hwf.
      constructor; [|done]. intros Hot. apply ot_eqb_eq in Hot. congruence.
Qed.

Lemma ad_instr_usect ilix instr s :
  operands_wf (i_operands instr) ->
  exists s',
    ad_instr ilix instr s = Some (tt, s')
    /\ Instructions s' = Instructions s ++ [added ilix instr s]
    /\ (forall t, usect s' t = usect s t + tmp_uses (i_operands instr) t)
    /\ new_ebb s' = false
    /\ next_tmps s' = next_tmps s /\ next_iid s' = next_iid s
    /\ idef s' = idef s.
Proof.
  intros Hwf. unfold ad_instr.
  destruct (count_operand_uses_usect (i_operands (set_i_ilix ilix instr)) s Hwf)
    as (s1 & Hrun & Hu & HI & He & Hnt & Hni & Hd).
  rewrite (bind_Some _ _ _ _ _ Hrun).
  eexists. split; [reflexivity|]. simpl. rewrite HI, He.
  split; [by unfold added; destruct (new_ebb s)|]. split; [|done].
  intros t. unfold usect in *. simpl. apply Hu.
Qed.

(** X2.  [ad_instr] links the instruction as the new last one, gives it
    its ILI and the start-of-block mark when one is due, and counts one
    more use of a temporary for every operand that refers to it; it
    fails exactly when an operand of the temporary kind has no
    temporary. *)
Theorem ad_instr_counts_uses ilix instr s :
  (operands_wf (i_operands instr) ->
   exists s',
     ad_instr ilix instr s = Some (tt, s')
     /\ Instructions s' = Instructions s ++ [added ilix instr s]
     /\ (forall t, usect s' t = usect s t + tmp_uses (i_operands instr) t)
     /\ new_ebb s' = false)
  /\ (~ operands_wf (i_operands instr) -> ad_instr ilix instr s = None).
Proof.
  split.
  - intros Hwf.
    destruct (ad_instr_usect ilix instr s Hwf) as (s' & Hrun & HI & Hu & He & _).
    by exists s'.
  - intros Hwf. unfold ad_instr.
    unfold mbind at 1, M_bind at 1.
    by rewrite (count_operand_uses_crash (i_operands (set_i_ilix ilix instr)) s).
Qed.

Lemma drop_operand_uses_usect operands : forall s,
  operands_wf operands ->
  exists s', drop_operand_uses operands s = Some (tt, s')
    /\ (forall t, usect s' t = usect s t - tmp_uses operands t)
    /\ Instructions s' = Instructions s.
Proof.
  induction operands as [|op ops IH]; intros s Hwf.
  - exists s. split; [done|]. split; [intros t; simpl; lia|done].
  - apply Forall_cons in Hwf as [Hop Hops]. simpl drop_operand_uses.
    destruct (ot_eqb (ot_type op) OT_TMP) eqn:E.
    + apply ot_eqb_eq in E as Hot. destruct (Hop Hot) as [t0 Ht0]. rewrite Ht0.
      destruct (IH (add_use_count t0 (-1) s) Hops) as (s' & Hrun & Hu & HI).
      exists s'. split.
      { unfold mbind, M_bind, modify. exact Hrun. }
      split; [|by rewrite HI].
      intros t. rewrite Hu, usect_add_use_count. simpl tmp_uses.
      rewrite E, Ht0. simpl.
      destruct (decide (t0 = t)) as [->|Hne].
      * rewrite bool_decide_eq_true_2 by done. lia.
      * rewrite bool_decide_eq_false_2 by congruence. lia.
    + destruct (IH s Hops) as (s' & Hrun & Hu & Hrest).
      exists s'. split.
      { unfold mbind, M_bind, mret, M_ret. exact Hrun. }
      split; [|done]. intros t. rewrite Hu. simpl tmp_uses. rewrite E. simpl. lia.
Qed.

(** X3.  [remove_instr] undoes [ad_instr]: removing the instruction
    that was just added, a new object, gives the list and every use
    count back; with [update_usect_only] the list keeps the
    instruction and only the use counts go back. *)
Theorem remove_instr_undoes_ad_instr ilix instr s :
  operands_wf (i_operands instr) ->
  (forall i, i ∈ Instructions s -> iid i <> iid instr) ->
  (exists s',
     (ad_instr ilix instr;; remove_instr instr false) s = Some (tt, s')
     /\ Instructions s' = Instructions s
     /\ forall t, usect s' t = usect s t)
  /\ (exists s',
        (ad_instr ilix instr;; remove_instr instr true) s = Some (tt, s')
        /\ Instructions s' = Instructions s ++ [added ilix instr s]
        /\ forall t, usect s' t = usect s t).
Proof.
  intros Hwf Hfresh.
  destruct (ad_instr_usect ilix instr s Hwf) as (s1 & Hadd & HI1 & Hu1 & _).
  split.
  - unfold remove_instr. rewrite (bind_Some _ _ _ _ _ Hadd). simpl negb.
    cbv iota.
    destruct (drop_operand_uses_usect (i_operands instr)
                (set_Instructions
                   (filter (fun i => iid i <> iid instr) (Instructions s1)) s1) Hwf)
      as (s2 & Hrun & Hu2 & HI2).
    exists s2. split.
    { unfold mbind at 1, M_bind at 1, modify at 1. exact Hrun. }
    split.
    + rewrite HI2. simpl. rewrite HI1, filter_app.
      rewrite (filter_all (fun i => iid i <> iid instr) (Instructions s))
        by (apply Forall_forall; exact Hfresh).
      rewrite filter_cons_False, filter_nil, app_nil_r; [done|].
      intros Hne. apply Hne. unfold added. by destruct (new_ebb s).
    + intros t. rewrite Hu2. unfold usect at 1. simpl.
      fold (usect s1 t). rewrite Hu1. lia.
  - unfold remove_instr. rewrite (bind_Some _ _ _ _ _ Hadd). simpl negb.
    cbv iota.
    destruct (drop_operand_uses_usect (i_operands instr) s1 Hwf)
      as (s2 & Hrun & Hu2 & HI2).
    exists s2. split.
    { unfold mbind at 1, M_bind at 1, mret, M_ret. exact Hrun. }
    split; [by rewrite HI2|]. intros t. rewrite Hu2, Hu1. lia.
Qed.

Lemma gen_instr_fields name tmps ty ops s :
  exists s' instr, gen_instr name tmps ty ops s = Some (instr, s')
    /\ i_name instr = name /\ i_tmps instr = tmps /\ i_ll_type instr = ty
    /\ i_operands instr = ops /\ i_flags instr = 0 /\ iid instr = next_iid s
    /\ Instructions s' = Instructions s /\ next_tmps s' = next_tmps s
    /\ new_ebb s' = new_ebb s.
Proof.
  unfold gen_instr, make_instr. munfold.
  destruct tmps as [t|]; simpl; eexists _, _; (split; [reflexivity|]); done.
Qed.

Lemma find_csed_instr_sound rev_instrs name ops i :
  find_csed_instr rev_instrs name ops = Some i ->
  i ∈ rev_instrs /\ i_name i = name /\ same_operands (i_operands i) ops = true.
Proof.
  induction rev_instrs as [|a prev IH]; [done|]. simpl.
  destruct (instr_eqb (i_name a) name && same_operands (i_operands a) ops) eqn:E.
  - intros [= <-]. apply andb_true_iff in E as [En Eo].
    split; [by left|]. split; [by apply instr_eqb_eq|done].
  - intros Hf.
    assert (Hrec : find_csed_instr prev name ops = Some i).
    { destruct (i_name a); try done;
        repeat match type of Hf with
        | (if ?c then _ else _) = _ => destruct c; [done|]
        end; done. }
    destruct (IH Hrec) as (Hin & Hn & Ho). split; [by right|done].
Qed.

(** X4.  The operand that [ad_csed_instr] returns always stands for an
    instruction of the resulting list that has the name asked for and
    the operands asked for (the same list, or pairwise the same
    operands): either an instruction that was there, and then nothing
    is added, or the new last instruction, which defines a new
    temporary.  When the last instruction is a call, an invoke or a
    switch of another name the search ends there and the instruction is
    always made anew. *)
Theorem ad_csed_instr_names_a_matching_instruction
    name ilix ty ops flags do_cse s :
  operands_wf ops ->
  (exists s' i,
     ad_csed_instr name ilix ty ops flags do_cse s
       = Some (make_tmp_op (i_ll_type i) (i_tmps i), s')
     /\ i ∈ Instructions s'
     /\ i_name i = name
     /\ ((s' = s /\ same_operands (i_operands i) ops = true)
         \/ (Instructions s' = Instructions s ++ [i]
             /\ i_operands i = ops /\ i_tmps i = Some (next_tmps s)
             /\ next_tmps s' = S (next_tmps s))))
  /\ (forall l lst,
        Instructions s = l ++ [lst] ->
        stops_cse (i_name lst) = true -> i_name lst <> name ->
        exists s' i,
          ad_csed_instr name ilix ty ops flags do_cse s
            = Some (make_tmp_op ty (Some (next_tmps s)), s')
          /\ Instructions s' = Instructions s ++ [i]
          /\ instr_shape i = (name, Some (next_tmps s), ops)).
Proof.
  intros Hwf.
  assert (Hnew : (if do_cse && ENABLE_CSE_OPT s && negb (new_ebb s)
                  then find_csed_instr (rev (Instructions s)) name ops
                  else None) = None ->
    exists s' i,
      ad_csed_instr name ilix ty ops flags do_cse s
        = Some (make_tmp_op ty (Some (next_tmps s)), s')
      /\ Instructions s' = Instructions s ++ [i]
      /\ instr_shape i = (name, Some (next_tmps s), ops)
      /\ i_ll_type i = ty
      /\ next_tmps s' = S (next_tmps s)).
  { intros Hnone. unfold ad_csed_instr.
    unfold mbind at 1, M_bind at 1, get at 1. rewrite Hnone.
    unfold mbind at 1, M_bind at 1, make_tmps at 1.
    destruct (gen_instr_fields name (op_tmps (make_tmp_op ty (Some (next_tmps s))))
                ty ops (set_next_tmps (S (next_tmps s)) s))
      as (s1 & instr & Hgen & Hn & Ht & Hty & Ho & _ & _ & HI1 & Hnt1 & _).
    rewrite (bind_Some _ _ _ _ _ Hgen).
    destruct (ad_instr_usect ilix (set_i_flags flags instr) s1)
      as (s2 & Hadd & HI2 & _ & _ & Hnt2 & _); [simpl; by rewrite Ho|].
    rewrite (bind_Some _ _ _ _ _ Hadd).
    exists s2, (added ilix (set_i_flags flags instr) s1).
    split; [reflexivity|]. rewrite HI2, HI1. split; [done|].
    rewrite added_shape. unfold instr_shape. simpl. rewrite Hn, Ht, Ho.
    split; [done|]. split; [by unfold added; destruct (new_ebb s1)|].
    by rewrite Hnt2, Hnt1. }
  split.
  - destruct (if do_cse && ENABLE_CSE_OPT s && negb (new_ebb s)
              then find_csed_instr (rev (Instructions s)) name ops
              else None) as [i|] eqn:Hfind.
    + exists s, i. unfold ad_csed_instr.
      unfold mbind at 1, M_bind at 1, get at 1. rewrite Hfind.
      split; [reflexivity|].
      destruct (do_cse && ENABLE_CSE_OPT s && negb (new_ebb s)); [|done].
      apply find_csed_instr_sound in Hfind as (Hin & Hn & Ho).
      rewrite elem_of_rev_iff in Hin. split; [done|]. split; [done|]. by left.
    + destruct (Hnew eq_refl) as (s' & i & Hrun & HI & Hsh & Hty & Hnt).
      unfold instr_shape in Hsh. injection Hsh as Hn Ht Ho.
      exists s', i. rewrite Hty, Ht. split; [exact Hrun|].
      split; [rewrite HI; apply elem_of_app; right; by left|].
      split; [done|]. right. done.
  - intros l lst HI Hstop Hname.
    destruct Hnew as (s' & i & Hrun & HI' & Hsh & _).
    + destruct (do_cse && ENABLE_CSE_OPT s && negb (new_ebb s)); [|done].
      rewrite HI, rev_app_distr. simpl.
      assert (instr_eqb (i_name lst) name = false) as ->.
      { destruct (instr_eqb (i_name lst) name) eqn:E; [|done].
        by apply instr_eqb_eq in E. }
      simpl. by destruct (i_name lst).
    + by exists s', i.
Qed.

End InstructionList.

Section DemoInstructionList.
#[local] Existing Instance Demo.flags.
#[local] Existing Instance Demo.instr_flags.
#[local] Existing Instance Demo.debug_info.

(** Two references to the variable 1 are the same operand; two labels
    are not. *)
Lemma same_op_symmetric_on_comparable_kinds_witness :
  (ot_type (Demo.var_op 1 None) = ot_type (Demo.var_op 1 (Some Demo.i32_ty))
   /\ comparable_kind (ot_type (Demo.var_op 1 None)) = true)
  /\ same_op (make_label_op 5) (make_label_op 5) = false.
Proof.
  destruct same_op_symmetric_on_comparable_kinds as (_ & Hrefl & Hkind).
  split.
  - apply (Hkind (Demo.var_op 1 None) (Demo.var_op 1 (Some Demo.i32_ty))).
    reflexivity.
  - rewrite Hrefl. reflexivity.
Defined.

(** The multiply-add list: adding a second add of the product counts a
    second use of the temporary 0. *)
Lemma ad_instr_counts_uses_witness :
  exists s',
    ad_instr 5 (mkINSTR 3 0 I_FADD 0 0 (Some 2%nat) (Some Demo.float_ty)
                  [make_tmp_op (Some Demo.float_ty) (Some 0%nat);
                   make_tmp_op (Some Demo.float_ty) (Some 0%nat)] 0 None)
      (Demo.fma_site_state 1) = Some (tt, s')
    /\ usect s' 0%nat = 3.
Proof.
  destruct (ad_instr_counts_uses 5
              (mkINSTR 3 0 I_FADD 0 0 (Some 2%nat) (Some Demo.float_ty)
                 [make_tmp_op (Some Demo.float_ty) (Some 0%nat);
                  make_tmp_op (Some Demo.float_ty) (Some 0%nat)] 0 None)
              (Demo.fma_site_state 1)) as [H _].
  destruct H as (s' & Hrun & _ & Hu & _).
  - repeat (apply Forall_cons; split; [intros _; by eexists|]). apply Forall_nil_2.
  - exists s'. split; [exact Hrun|]. rewrite Hu. reflexivity.
Defined.

Lemma remove_instr_undoes_ad_instr_witness :
  exists s',
    (ad_instr 5 (mkINSTR 3 0 I_FADD 0 0 (Some 2%nat) (Some Demo.float_ty)
                   [make_tmp_op (Some Demo.float_ty) (Some 0%nat);
                    make_tmp_op (Some Demo.float_ty) (Some 0%nat)] 0 None);;
     remove_instr (mkINSTR 3 0 I_FADD 0 0 (Some 2%nat) (Some Demo.float_ty)
                     [make_tmp_op (Some Demo.float_ty) (Some 0%nat);
                      make_tmp_op (Some Demo.float_ty) (Some 0%nat)] 0 None)
       false) (Demo.fma_site_state 1) = Some (tt, s')
    /\ Instructions s' = Demo.fma_site_instrs
    /\ usect s' 0%nat = 1.
Proof.
  destruct (remove_instr_undoes_ad_instr 5
              (mkINSTR 3 0 I_FADD 0 0 (Some 2%nat) (Some Demo.float_ty)
                 [make_tmp_op (Some Demo.float_ty) (Some 0%nat);
                  make_tmp_op (Some Demo.float_ty) (Some 0%nat)] 0 None)
              (Demo.fma_site_state 1)) as [(s' & Hrun & HI & Hu) _].
  - repeat (apply Forall_cons; split; [intros _; by eexists|]). apply Forall_nil_2.
  - apply Forall_forall.
    change (Instructions (Demo.fma_site_state 1)) with Demo.fma_site_instrs.
    unfold Demo.fma_site_instrs.
    repeat (apply Forall_cons; split; [vm_compute; lia|]). apply Forall_nil_2.
  - exists s'. split; [exact Hrun|]. split; [exact HI|]. rewrite Hu. reflexivity.
Defined.

(** With the multiply of the variables 1 and 2 in the list, asking for
    that multiply again gives the temporary 0 and leaves the state as it
    is. *)
Lemma ad_csed_instr_names_a_matching_instruction_witness :
  exists s' i,
    ad_csed_instr I_FMUL 4 (Some Demo.float_ty)
      [Demo.var_op 1 (Some Demo.float_ty); Demo.var_op 2 (Some Demo.float_ty)]
      0 true (Demo.fma_site_state 1)
    = Some (make_tmp_op (i_ll_type i) (i_tmps i), s')
    /\ i ∈ Instructions s'
    /\ i_name i = I_FMUL
    /\ i_tmps i = Some 0%nat
    /\ s' = Demo.fma_site_state 1.
Proof.
  destruct (ad_csed_instr_names_a_matching_instruction I_FMUL 4
              (Some Demo.float_ty)
              [Demo.var_op 1 (Some Demo.float_ty);
               Demo.var_op 2 (Some Demo.float_ty)] 0 true
              (Demo.fma_site_state 1)) as [(s' & i & Hrun & Hin & Hn & _) _].
  - repeat (apply Forall_cons; split; [intros Hot; discriminate Hot|]).
    apply Forall_nil_2.
  - exists s', i. split; [exact Hrun|]. split; [exact Hin|]. split; [exact Hn|].
    vm_compute in Hrun. injection Hrun as Ht Hty Hs.
    split; [first [exact Ht | exact (eq_sym Ht)]|].
    first [exact Hs | exact (eq_sym Hs)].
Defined.

End DemoInstructionList.

(** * Intrinsic declarations and calls *)

Lemma LL_BaseDataType_eqb_eq a b : LL_BaseDataType_eqb a b = true <-> a = b.
Proof. destruct a, b; simpl; split; intros E; try done. Qed.

Lemma LL_Type_eqb_refl : forall t, LL_Type_eqb t t = true.
Proof.
  fix IH 1. intros [d s l n]. simpl.
  assert (LL_BaseDataType_eqb d d = true) as -> by by apply LL_BaseDataType_eqb_eq.
  rewrite String.eqb_refl, Z.eqb_refl. simpl.
  induction l as [|x l IHl]; [done|]. by rewrite (IH x), IHl.
Qed.

Lemma LL_Type_eqb_true : forall a b, LL_Type_eqb a b = true -> a = b.
Proof.
  fix IH 1. intros [d1 s1 l1 n1] [d2 s2 l2 n2]. simpl. intros E.
  apply andb_true_iff in E as [E El].
  apply andb_true_iff in E as [E En]. apply andb_true_iff in E as [Ed Es].
  apply LL_BaseDataType_eqb_eq in Ed. apply String.eqb_eq in Es.
  apply Z.eqb_eq in En. subst. f_equal.
  revert l2 El. induction l1 as [|x l1 IHl]; intros [|y l2] El; try done.
  apply andb_true_iff in El as [Ex El]. f_equal; [by apply IH|by apply IHl].
Qed.

Section Intrinsics.
Context {Fl : Flags} {IFl : InstrFlags} {DI : DebugInfo} {IL : ILI}
        {ST : SymTab} {TB : TypeBridge} {TG : Target} {HP : Helpers}.

(** X5.  [get_intrinsic] declares an intrinsic once.  A name that is
    declared with the type asked for is not declared again; a name
    that is declared with another type is a fatal error; a name that
    starts with "asm " is never declared; any other new name is
    declared with the type, and asking for it again gives the same
    callee operand and declares nothing more. *)
Theorem get_intrinsic_declares_once name ty s :
  let callee := mkOPERAND OT_CALL None (Some (make_ptr_lltype ty)) 0 0 (0, 0)
                  (Some name) 0 in
  (forall old, hashmap_lookup (declared_intrinsics s) name = Some old ->
     (old = ty -> get_intrinsic name ty s = Some (callee, s))
     /\ (old <> ty -> get_intrinsic name ty s = None))
  /\ (hashmap_lookup (declared_intrinsics s) name = None ->
      (String.prefix "asm " name = true ->
       get_intrinsic name ty s = Some (callee, s))
      /\ (String.prefix "asm " name = false ->
          let s1 := set_declared_intrinsics ((name, ty) :: declared_intrinsics s) s in
          get_intrinsic name ty s = Some (callee, s1)
          /\ get_intrinsic name ty s1 = Some (callee, s1))).
Proof.
  intros callee. split.
  - intros old Hold. unfold get_intrinsic. munfold. rewrite Hold. split.
    + intros ->. by rewrite LL_Type_eqb_refl.
    + intros Hne. destruct (LL_Type_eqb old ty) eqn:E; [|done].
      by apply LL_Type_eqb_true in E.
  - intros Hnone. unfold get_intrinsic. munfold. rewrite Hnone. split.
    + by intros ->.
    + intros ->. split; [done|]. rewrite String.eqb_refl.
      by rewrite LL_Type_eqb_refl.
Qed.

(** X6.  A call of an LLVM intrinsic that [gen_call_llvm_intrinsic]
    makes itself: the name of the callee is the name given after
    "@llvm.", the instruction is the new last one, it is marked as a
    call of an intrinsic, it defines a new temporary, which the result
    operand names, and every argument that refers to a temporary
    counts one more use of it. *)
Theorem gen_call_llvm_intrinsic_adds_the_call fname params rty i_name s :
  operands_wf params ->
  declarable s ("@llvm." ++ fname)
    (make_function_type_from_args rty params false) ->
  exists s1 call,
    gen_call_llvm_intrinsic fname params rty i_name s
    = Some (make_tmp_op (Some rty) (Some (next_tmps s)), s1)
    /\ Instructions s1 = Instructions s ++ [call]
    /\ instr_shape call
       = (i_name, Some (next_tmps s),
          intrinsic_callee ("@llvm." ++ fname) rty params :: params)
    /\ i_flags call = intrinsic_call_flags s
    /\ iid call = next_iid s
    /\ idef s1 !! next_tmps s = Some (next_iid s)
    /\ next_tmps s1 = S (next_tmps s) /\ next_iid s1 = S (next_iid s)
    /\ forall t, usect s1 t = usect s t + tmp_uses params t.
Proof.
  intros Hwf Hdecl. unfold gen_call_llvm_intrinsic, gen_call_to_builtin.
  unfold make_tmps at 1. unfold mbind at 1, M_bind at 1.
  destruct (make_instr_ok i_name (set_next_tmps (S (next_tmps s)) s))
    as (ci & Hmk & Hn & Ho & Hf & Hid & Ht & Hty).
  rewrite (bind_Some _ _ _ _ _ Hmk).
  unfold modify at 1. unfold mbind at 1, M_bind at 1.
  unfold get_intrinsic_call_ops.
  match goal with |- (exists _ _, (?gi ≫= _) ?st = _ /\ _) =>
    assert (exists decl, gi st
      = Some (intrinsic_callee ("@llvm." ++ fname) rty params :: params,
              set_declared_intrinsics decl st)) as [decl Hgi]
  end.
  { match goal with |- (exists _, _ ?st = _) =>
      destruct (get_intrinsic_ok ("@llvm." ++ fname)
                  (make_function_type_from_args rty params false) st)
        as [decl Hgi]; [exact Hdecl|] end.
    exists decl. by rewrite (bind_Some _ _ _ _ _ Hgi). }
  rewrite (bind_Some _ _ _ _ _ Hgi).
  match goal with |- (exists _ _, (ad_instr 0 ?i ≫= _) ?st = _ /\ _) =>
    destruct (ad_instr_usect 0 i st) as (s1 & Had & HI1 & Hu1 & He1 & Hnt1 & Hni1 & Hd1);
      [simpl; constructor; [done|exact Hwf]|]
  end.
  rewrite (bind_Some _ _ _ _ _ Had).
  eexists _, _. split; [reflexivity|]. rewrite HI1. simpl.
  split; [reflexivity|]. rewrite added_shape. unfold instr_shape. simpl.
  rewrite Hn. split; [done|].
  split.
  { unfold added, intrinsic_call_flags. simpl. rewrite Hf.
    by destruct (new_ebb s). }
  split.
  { unfold added. simpl. by destruct (new_ebb s). }
  rewrite Hd1, Hnt1, Hni1. simpl.
  split; [by rewrite lookup_insert_eq, Hid|]. split; [done|]. split; [done|].
  intros t. rewrite Hu1. simpl. unfold usect. simpl. lia.
Qed.

End Intrinsics.

Section DemoIntrinsics.
#[local] Existing Instance Demo.flags.
#[local] Existing Instance Demo.instr_flags.
#[local] Existing Instance Demo.debug_info.
#[local] Existing Instance Demo.symtab.
#[local] Existing Instance Demo.type_bridge.
#[local] Existing Instance Demo.generic_target.
#[local] Existing Instance Demo.ili.
#[local] Existing Instance Demo.helpers.

(** The first declaration of [@llvm.fma.f32] and a second request for
    it; a request with another type is fatal. *)
Lemma get_intrinsic_declares_once_witness :
  (exists op s1,
     get_intrinsic "@llvm.fma.f32" Demo.float_ty Demo.init = Some (op, s1)
     /\ get_intrinsic "@llvm.fma.f32" Demo.float_ty s1 = Some (op, s1))
  /\ get_intrinsic "@llvm.fma.f32" Demo.i32_ty
       (set_declared_intrinsics [("@llvm.fma.f32"%string, Demo.float_ty)] Demo.init)
     = None.
Proof.
  split.
  - destruct (get_intrinsic_declares_once "@llvm.fma.f32" Demo.float_ty Demo.init)
      as [_ H].
    destruct (H eq_refl) as [_ H2]. destruct (H2 eq_refl) as [H3 H4].
    eexists _, _. split; [exact H3|exact H4].
  - destruct (get_intrinsic_declares_once "@llvm.fma.f32" Demo.i32_ty
                (set_declared_intrinsics
                   [("@llvm.fma.f32"%string, Demo.float_ty)] Demo.init))
      as [H _].
    destruct (H Demo.float_ty eq_refl) as [_ H2]. apply H2. discriminate.
Defined.

(** A call of [@llvm.sqrt.f32] on the temporary 0 of the multiply-add
    list: the temporary counts a second use. *)
Lemma gen_call_llvm_intrinsic_adds_the_call_witness :
  exists s1 call,
    gen_call_llvm_intrinsic "sqrt.f32"
      [make_tmp_op (Some Demo.float_ty) (Some 0%nat)] Demo.float_ty I_CALL
      (Demo.fma_site_state 1)
    = Some (make_tmp_op (Some Demo.float_ty) (Some 2%nat), s1)
    /\ Instructions s1 = Demo.fma_site_instrs ++ [call]
    /\ i_name call = I_CALL
    /\ usect s1 0%nat = 2.
Proof.
  destruct (gen_call_llvm_intrinsic_adds_the_call "sqrt.f32"
              [make_tmp_op (Some Demo.float_ty) (Some 0%nat)] Demo.float_ty
              I_CALL (Demo.fma_site_state 1))
    as (s1 & call & Hrun & HI & Hsh & _ & _ & _ & _ & _ & Hu).
  - repeat (apply Forall_cons; split; [intros _; by eexists|]). apply Forall_nil_2.
  - vm_compute. exact I.
  - exists s1, call. split; [exact Hrun|]. split; [exact HI|].
    unfold instr_shape in Hsh. injection Hsh as Hn _ _. split; [exact Hn|].
    rewrite Hu. reflexivity.
Defined.

End DemoIntrinsics.

(** * The map of temporaries and the CSE list *)

(** X7.  The map of temporaries.  [getTempMap] reads the entry of an ILI
    and changes nothing.  After [setTempMap] for an ILI within the map
    the entry of that ILI is the temporary of the operand (none when
    the operand has none) and every other entry is what it was; for an
    ILI outside the map [setTempMap] does nothing and [getTempMap]
    gives no temporary.  A map that was just made holds no temporary,
    and once the map is freed nothing can be set. *)
Theorem tempmap_get_after_set ilix op j s :
  getTempMap j s = Some (temp_at s j, s)
  /\ (exists s',
        setTempMap ilix op s = Some (tt, s')
        /\ tempsMap_size s' = tempsMap_size s
        /\ temp_at s' j
           = if (0 <=? ilix) && (ilix <? tempsMap_size s) && (j =? ilix)
             then op_tmps op else temp_at s j)
  /\ (ilix < 0 \/ tempsMap_size s <= ilix ->
      setTempMap ilix op s = Some (tt, s) /\ temp_at s ilix = None)
  /\ (forall size s1, consTempMap size s = Some (tt, s1) -> temp_at s1 j = None)
  /\ (forall s1, gcTempMap s = Some (tt, s1) ->
        setTempMap ilix op s1 = Some (tt, s1) /\ temp_at s1 j = None).
Proof.
  split; [reflexivity|]. split; [|split; [|split]].
  - unfold setTempMap, modify. eexists. split; [reflexivity|].
    unfold temp_at.
    destruct ((0 <=? ilix) && (ilix <? tempsMap_size s)) eqn:Hin; simpl; [|done].
    split; [done|].
    destruct (Z.eqb_spec j ilix) as [->|Hne].
    + rewrite Hin. destruct (op_tmps op).
      * by rewrite lookup_insert_eq.
      * by rewrite lookup_delete_eq.
    + destruct ((0 <=? j) && (j <? tempsMap_size s)); [|done].
      destruct (op_tmps op).
      * by rewrite lookup_insert_ne.
      * by rewrite lookup_delete_ne.
  - intros Hout.
    assert ((0 <=? ilix) && (ilix <? tempsMap_size s) = false) as Hf.
    { apply andb_false_iff. destruct Hout; [left; apply Z.leb_gt; lia|right; apply Z.ltb_ge; lia]. }
    unfold setTempMap, modify, temp_at. by rewrite Hf.
  - intros size s1 [= <-]. unfold temp_at. simpl.
    by destruct ((0 <=? j) && (j <? size)).
  - intros s1 [= <-]. unfold setTempMap, modify, temp_at. simpl.
    assert ((0 <=? ilix) && (ilix <? 0) = false) as ->
      by (destruct (Z.leb_spec 0 ilix); simpl; [apply Z.ltb_ge; lia|done]).
    split; [done|]. by destruct ((0 <=? j) && (j <? 0)).
Qed.

(** In a map of ten entries, the entry 3 after it is set to the
    temporary 7; the entry 12 cannot be set. *)
Lemma tempmap_get_after_set_witness :
  setTempMap 12 (make_tmp_op None (Some 7%nat)) (set_tempsMap_size 10 Demo.init)
  = Some (tt, set_tempsMap_size 10 Demo.init)
  /\ temp_at (set_tempsMap_size 10 Demo.init) 12 = None.
Proof.
  destruct (tempmap_get_after_set 12 (make_tmp_op None (Some 7%nat)) 12
              (set_tempsMap_size 10 Demo.init)) as (_ & _ & H & _).
  apply H. right. simpl. lia.
Defined.

Lemma csed_lookup_store_ne l ilix op j :
  j <> ilix -> csed_lookup (csed_store l ilix op) j = csed_lookup l j.
Proof.
  intros Hne. induction l as [|c l IH]; [done|]. simpl.
  destruct (ilix =? csed_ilix c) eqn:E; simpl.
  - apply Z.eqb_eq in E. rewrite <- E.
    assert ((j =? ilix) = false) as -> by by apply Z.eqb_neq. done.
  - by rewrite IH.
Qed.

Lemma csed_store_ilix l ilix op :
  map csed_ilix (csed_store l ilix op) = map csed_ilix l.
Proof.
  induction l as [|c l IH]; [done|]. simpl.
  destruct (ilix =? csed_ilix c); simpl; [done|by rewrite IH].
Qed.

Lemma csed_lookup_cleared ili l j :
  csed_lookup (map (fun csed => if ili =? csed_ilix csed
                                then mkCSED (csed_ilix csed) None else csed) l) j
  = if j =? ili then (fun e => mkCSED (csed_ilix e) None) <$> csed_lookup l j
    else csed_lookup l j.
Proof.
  induction l as [|c l IH]; [by destruct (j =? ili)|].
  simpl. destruct (Z.eqb_spec ili (csed_ilix c)) as [->|Hne]; simpl.
  - destruct (j =? csed_ilix c); [done|]. exact IH.
  - destruct (Z.eqb_spec j (csed_ilix c)) as [->|Hne2].
    + assert ((csed_ilix c =? ili) = false) as -> by (apply Z.eqb_neq; congruence).
      done.
    + exact IH.
Qed.

Section CseEntries.
Context {IL : ILI}.

(** X8.  The operand of an entry of the CSE list.  When the ILI (or its
    alternative, when it has one) has an entry, the operand that
    [set_csed_operand] stores through the pointer of [get_csed_operand]
    is read back through it: a new operand for the same temporary and
    type when the operand has a temporary, the operand itself
    otherwise; no other entry changes and no entry is added or removed.
    When the ILI has no entry [get_csed_operand] gives no pointer. *)
Theorem csed_operand_round_trip ilix operand s :
  (forall e, csed_lookup (csedList s) (prefer_alt ilix) = Some e ->
     exists s',
       (p ← get_csed_operand ilix;
        match p with
        | Some p => set_csed_operand p operand;; csed_deref p
        | None => mret None
        end) s = Some (Some (recorded operand), s')
       /\ (forall j, j <> prefer_alt ilix ->
             csed_lookup (csedList s') j = csed_lookup (csedList s) j)
       /\ map csed_ilix (csedList s') = map csed_ilix (csedList s))
  /\ (csed_lookup (csedList s) (prefer_alt ilix) = None ->
      get_csed_operand ilix s = Some (None, s))
  /\ op_tmps (recorded operand) = op_tmps operand
  /\ op_ll_type (recorded operand) = op_ll_type operand
  /\ (op_tmps operand = None -> recorded operand = operand).
Proof.
  split; [|split; [|split; [|split]]].
  - intros e He.
    rewrite (bind_Some _ _ _ _ _ (get_csed_operand_Some _ _ _ He)).
    rewrite (bind_Some _ _ _ _ _ (set_csed_operand_ok _ _ _)).
    destruct (csed_lookup_store _ _ (Some (recorded operand)) _ He) as [Hl _].
    eexists. split.
    { unfold csed_deref, mbind, M_bind, get. simpl. rewrite Hl. reflexivity. }
    simpl. split.
    + intros j Hj. by apply csed_lookup_store_ne.
    + apply csed_store_ilix.
  - intros Hnone. unfold get_csed_operand, mbind, M_bind, get. by rewrite Hnone.
  - unfold recorded. by destruct (op_tmps operand) eqn:E.
  - unfold recorded. by destruct (op_tmps operand) eqn:E.
  - unfold recorded. by intros ->.
Qed.

Lemma remove_from_csed_entries_cse ili l :
  is_cseili_opcode (ILI_OPC ili) = true -> l <> [] ->
  remove_from_csed_entries ili l = (l, true, false).
Proof. intros Hc Hl. destruct l; [done|]. simpl. by rewrite Hc. Qed.

Lemma remove_from_csed_entries_plain ili l :
  is_cseili_opcode (ILI_OPC ili) = false ->
  exists hit,
    remove_from_csed_entries ili l
    = (map (fun csed => if ili =? csed_ilix csed
                        then mkCSED (csed_ilix csed) None else csed) l,
       false, hit)
    /\ (hit = true <-> is_Some (csed_lookup l ili)).
Proof.
  intros Hc. induction l as [|c l IH].
  - exists false. split; [done|]. split; [done|]. by intros [? ?].
  - destruct IH as (hit & IH & Hhit). simpl. rewrite Hc, IH.
    destruct (ili =? csed_ilix c).
    + exists true. split; [done|]. split; [by eexists|done].
    + by exists hit.
Qed.

(** X9.  [remove_from_csed_list].  For an ILI whose opcode is a CSE
    opcode the function returns from its first loop at the first entry
    of the list: when the list is not empty nothing is changed, and the
    operands of the ILI are not visited.  For any other ILI without
    link operands, every entry of that ILI loses its operand, the
    evaluation count of the ILI is set to zero when it has an entry,
    and the other entries are what they were. *)
Theorem remove_from_csed_list_clears_the_entry fuel ili s :
  (is_cseili_opcode (ILI_OPC ili) = true -> csedList s <> [] ->
   remove_from_csed_list (S fuel) ili s = Some (tt, s))
  /\ (is_cseili_opcode (ILI_OPC ili) = false -> link_operands ili = [] ->
      exists s',
        remove_from_csed_list (S fuel) ili s = Some (tt, s')
        /\ (forall e, csed_lookup (csedList s) ili = Some e ->
              csed_lookup (csedList s') ili = Some (mkCSED ili None)
              /\ ili_count s' ili = 0)
        /\ (csed_lookup (csedList s) ili = None -> s' = s)
        /\ (forall j, j <> ili ->
              csed_lookup (csedList s') j = csed_lookup (csedList s) j
              /\ ili_count s' j = ili_count s j)
        /\ map csed_ilix (csedList s') = map csed_ilix (csedList s)).
Proof.
  split.
  - intros Hc Hl. cbn [remove_from_csed_list].
    unfold mbind at 1, M_bind at 1, get at 1.
    rewrite (remove_from_csed_entries_cse ili (csedList s) Hc Hl).
    unfold mbind, M_bind, modify, mret, M_ret. by destruct s.
  - intros Hc Hlinks. cbn [remove_from_csed_list].
    unfold mbind at 1, M_bind at 1, get at 1.
    destruct (remove_from_csed_entries_plain ili (csedList s) Hc)
      as (hit & Hrem & Hhit).
    rewrite Hrem, Hlinks. eexists. split; [reflexivity|]. simpl.
    pose proof (csed_lookup_cleared ili (csedList s)) as Hlook.
    split; [|split; [|split]].
    + intros e He. rewrite Hlook, Z.eqb_refl, He. simpl.
      assert (csed_ilix e = ili) as ->.
      { clear -He. induction (csedList s) as [|c l IH]; [done|]. simpl in He.
        destruct (Z.eqb_spec ili (csed_ilix c)) as [->|Hne]; [by injection He as <-|].
        by apply IH. }
      split; [done|].
      assert (hit = true) as -> by (apply Hhit; by eexists).
      unfold ili_count. simpl. by rewrite lookup_insert_eq.
    + intros Hnone.
      assert (hit = false) as ->.
      { destruct hit; [|done]. destruct Hhit as [Hh _].
        destruct (Hh eq_refl) as [e He]. congruence. }
      assert (Hsame : map (fun csed => if ili =? csed_ilix csed
                                       then mkCSED (csed_ilix csed) None else csed)
                        (csedList s) = csedList s).
      { clear -Hnone. induction (csedList s) as [|c l IH]; [done|]. simpl in *.
        destruct (ili =? csed_ilix c); [done|]. by rewrite IH. }
      rewrite Hsame. by destruct s.
    + intros j Hj. rewrite Hlook.
      assert ((j =? ili) = false) as -> by by apply Z.eqb_neq.
      split; [done|]. unfold ili_count. destruct hit; simpl; [|done].
      by rewrite lookup_insert_ne.
    + rewrite map_map. apply map_ext. intros c. by destruct (ili =? csed_ilix c).
Qed.

End CseEntries.

Section DemoCseEntries.
#[local] Existing Instance Demo.ili.

(** The entry of the ILI 4 in the cached state: an operand stored
    through the pointer is read back. *)
Lemma csed_operand_round_trip_witness :
  exists s',
    (p ← get_csed_operand 4;
     match p with
     | Some p => set_csed_operand p (Demo.var_op 1 (Some Demo.float_ty));;
                 csed_deref p
     | None => mret None
     end) (Demo.cached_state 4)
    = Some (Some (Demo.var_op 1 (Some Demo.float_ty)), s').
Proof.
  destruct (csed_operand_round_trip 4 (Demo.var_op 1 (Some Demo.float_ty))
              (Demo.cached_state 4)) as [H _].
  destruct (H (mkCSED 4 (Some Demo.cached_operand)) eq_refl) as (s' & Hrun & _).
  exists s'. exact Hrun.
Defined.

(** The leaf 1 of the small table is no CSE opcode and has no link
    operand: removing it from the list of the cached state for 1
    clears its entry. *)
Lemma remove_from_csed_list_clears_the_entry_witness :
  exists s',
    remove_from_csed_list 1 1 (Demo.cached_state 1) = Some (tt, s')
    /\ csed_lookup (csedList s') 1 = Some (mkCSED 1 None)
    /\ ili_count s' 1 = 0.
Proof.
  destruct (remove_from_csed_list_clears_the_entry 0 1 (Demo.cached_state 1))
    as [_ H].
  destruct H as (s' & Hrun & Hentry & _); [reflexivity|reflexivity|].
  destruct (Hentry (mkCSED 1 (Some Demo.cached_operand)) eq_refl) as [H1 H2].
  by exists s'.
Defined.

End DemoCseEntries.

(** ** Building the list *)

Lemma csed_lookup_None l j :
  csed_lookup l j = None <-> j ∉ map csed_ilix l.
Proof.
  induction l as [|c l IH]; simpl.
  - split; [intros _; apply not_elem_of_nil|done].
  - destruct (Z.eqb_spec j (csed_ilix c)) as [->|Hne].
    + split; [done|]. intros H. exfalso. apply H. by left.
    + rewrite IH. rewrite not_elem_of_cons. tauto.
Qed.

Lemma csed_lookup_app_None l1 l2 j :
  csed_lookup (l1 ++ l2) j = None <->
  csed_lookup l1 j = None /\ csed_lookup l2 j = None.
Proof.
  rewrite !csed_lookup_None, map_app, not_elem_of_app. tauto.
Qed.

Lemma csed_extends_refl s : csed_extends s s.
Proof.
  exists []. split; [by destruct s|]. split; [constructor|].
  split; [constructor|]. intros e He. by apply elem_of_nil in He.
Qed.

Lemma csed_extends_trans s1 s2 s3 :
  csed_extends s1 s2 -> csed_extends s2 s3 -> csed_extends s1 s3.
Proof.
  intros (n1 & -> & Ho1 & Hnd1 & Hf1) (n2 & -> & Ho2 & Hnd2 & Hf2).
  simpl in *. exists (n2 ++ n1). split; [by rewrite app_assoc|].
  split; [by apply Forall_app|]. split.
  - rewrite map_app. apply NoDup_app. split; [done|]. split; [|done].
    intros j Hj Hj1. apply list_elem_of_fmap in Hj as (e & -> & He).
    specialize (Hf2 e He). apply csed_lookup_app_None in Hf2 as [Hf2 _].
    by apply csed_lookup_None in Hf2.
  - intros e He. apply elem_of_app in He as [He|He].
    + specialize (Hf2 e He). by apply csed_lookup_app_None in Hf2 as [_ Hf2].
    + by apply Hf1.
Qed.

Lemma csed_extends_lookup s s' j e :
  csed_extends s s' -> csed_lookup (csedList s) j = Some e ->
  csed_lookup (csedList s') j = Some e.
Proof.
  intros (new & -> & _ & _ & Hf) He. simpl.
  induction new as [|c new IH]; [done|]. simpl.
  destruct (Z.eqb_spec j (csed_ilix c)) as [->|Hne].
  - rewrite (Hf c) in He; [done|by left].
  - apply IH. intros e0 He0. apply Hf. by right.
Qed.

Lemma csed_extends_NoDup s s' :
  csed_extends s s' ->
  NoDup (map csed_ilix (csedList s)) -> NoDup (map csed_ilix (csedList s')).
Proof.
  intros (new & -> & _ & Hnd & Hf) Hs. simpl. rewrite map_app.
  apply NoDup_app. split; [done|]. split; [|done].
  intros j Hj. apply list_elem_of_fmap in Hj as (e & -> & He).
  apply csed_lookup_None. by apply Hf.
Qed.

Section BuildList.
Context {IL : ILI}.
Variable rank : Z -> nat.
Hypothesis Hrank : ili_ranked rank.

Lemma mapM_build_ok (f : Z -> M unit) (l : list Z) :
  (forall o s, o ∈ l -> exists s', f o s = Some (tt, s') /\ csed_extends s s') ->
  forall s, exists s', mapM_ f l s = Some (tt, s') /\ csed_extends s s'.
Proof.
  induction l as [|o l IH]; intros Hf s.
  - exists s. split; [done|apply csed_extends_refl].
  - destruct (Hf o s) as (s1 & Hrun & He1); [by left|].
    destruct (IH (fun o' s0 Ho' => Hf o' s0 (list_elem_of_further _ _ _ Ho')) s1)
      as (s2 & Hrun2 & He2).
    exists s2. split; [|by apply (csed_extends_trans s s1 s2)].
    simpl. by rewrite (bind_Some _ _ _ _ _ Hrun).
Qed.

Lemma build_csed_list_ok fuel : forall ilix s,
  (rank ilix < fuel)%nat ->
  exists s', build_csed_list fuel ilix s = Some (tt, s') /\ csed_extends s s'.
Proof.
  induction fuel as [|fuel IH]; intros ilix s Hlt; [lia|].
  destruct (Hrank ilix) as (_ & Hlinks & Hcse).
  assert (Hchildren : forall s0, exists s',
    mapM_ (build_csed_list fuel) (link_operands ilix) s0 = Some (tt, s')
    /\ csed_extends s0 s').
  { apply mapM_build_ok. intros o s0 Ho. apply IH.
    specialize (Hlinks o Ho). lia. }
  cbn [build_csed_list].
  destruct (is_cseili_opcode (ILI_OPC ilix)) eqn:Hc.
  - specialize (Hcse eq_refl).
    set (c := prefer_alt (prefer_alt (ILI_OPND ilix 1))).
    assert (Hrc : (rank c < fuel)%nat).
    { unfold c. destruct (Hrank (prefer_alt (ILI_OPND ilix 1))) as (H1 & _).
      destruct (Hrank (ILI_OPND ilix 1)) as (H2 & _). lia. }
    unfold add_to_cselist_with. fold c.
    unfold mbind at 1, M_bind at 1. unfold mbind at 1, M_bind at 1, get at 1.
    destruct (csed_lookup (csedList s) c) as [e|] eqn:He.
    + exists s. split; [reflexivity|apply csed_extends_refl].
    + unfold mbind at 1, M_bind at 1, modify at 1.
      destruct (IH c (set_csedList (mkCSED c None :: csedList s) s) Hrc)
        as (s1 & Hrun1 & He1).
      rewrite (bind_Some _ _ _ _ _ Hrun1).
      unfold mret at 1, M_ret at 1. simpl negb. cbv iota.
      destruct (Hchildren s1) as (s2 & Hrun2 & He2).
      exists s2. split; [exact Hrun2|].
      apply (csed_extends_trans s
               (set_csedList (mkCSED c None :: csedList s) s) s2);
        [|by apply (csed_extends_trans _ s1 s2)].
      exists [mkCSED c None]. split; [done|]. split; [by repeat constructor|].
      split.
      { simpl. apply NoDup_singleton. }
      intros e0 He0. apply list_elem_of_singleton in He0 as ->. exact He.
  - unfold mbind at 1, M_bind at 1, mret at 1, M_ret at 1. simpl negb. cbv iota.
    apply Hchildren.
Qed.

(** X10.  [add_to_cselist] on a table of ILI that a measure orders
    (link operands and the node under a CSE opcode before what uses
    them), with fuel above the measure of the ILI: the walk ends.  It
    answers 1 and changes nothing when the ILI (or its alternative) has
    an entry; otherwise it answers 0 and the ILI has an entry
    afterwards.  In both cases the list afterwards is the list before
    with new entries in front, each without an operand and for an ILI
    that had none: every entry that was there is still found with its
    operand, and a list without two entries for one ILI stays so. *)
Theorem add_to_cselist_extends_the_list fuel ilix s :
  (rank (prefer_alt ilix) < fuel)%nat ->
  exists r s',
    add_to_cselist fuel ilix s = Some (r, s')
    /\ r = match csed_lookup (csedList s) (prefer_alt ilix) with
           | Some _ => 1
           | None => 0
           end
    /\ (r = 1 -> s' = s)
    /\ is_Some (csed_lookup (csedList s') (prefer_alt ilix))
    /\ csed_extends s s'
    /\ (forall j e, csed_lookup (csedList s) j = Some e ->
          csed_lookup (csedList s') j = Some e)
    /\ (NoDup (map csed_ilix (csedList s)) ->
        NoDup (map csed_ilix (csedList s'))).
Proof.
  intros Hlt. unfold add_to_cselist, add_to_cselist_with.
  unfold mbind at 1, M_bind at 1, get at 1.
  destruct (csed_lookup (csedList s) (prefer_alt ilix)) as [e|] eqn:He.
  - exists 1, s. split; [reflexivity|]. split; [done|]. split; [done|].
    split; [by eexists|]. split; [apply csed_extends_refl|]. done.
  - unfold mbind at 1, M_bind at 1, modify at 1.
    destruct (build_csed_list_ok fuel (prefer_alt ilix)
                (set_csedList (mkCSED (prefer_alt ilix) None :: csedList s) s) Hlt)
      as (s1 & Hrun & He1).
    rewrite (bind_Some _ _ _ _ _ Hrun).
    exists 0, s1. split; [reflexivity|]. split; [done|]. split; [done|].
    assert (Hfirst : csed_extends s
              (set_csedList (mkCSED (prefer_alt ilix) None :: csedList s) s)).
    { exists [mkCSED (prefer_alt ilix) None]. split; [done|].
      split; [by repeat constructor|]. split; [simpl; apply NoDup_singleton|].
      intros e0 He0. apply list_elem_of_singleton in He0 as ->. exact He. }
    assert (Hext : csed_extends s s1) by by apply (csed_extends_trans s _ s1 Hfirst).
    split.
    { exists (mkCSED (prefer_alt ilix) None).
      apply (csed_extends_lookup _ s1 _ _ He1). simpl. by rewrite Z.eqb_refl. }
    split; [exact Hext|]. split.
    + intros j e. by apply csed_extends_lookup.
    + by apply csed_extends_NoDup.
Qed.

End BuildList.

Section DemoBuildList.
#[local] Existing Instance Demo.ili.

Lemma demo_ili_table_cases (i : Z) :
  i ∈ [0; 4; 5; 6; 7; 10; 13; 14; 15; 17; 18; 19; 20; 24; 25; 30; 31]
  \/ Demo.ili_table i = (IL_OTHER i, []).
Proof.
  destruct i as [|p|p]; [left; by left| |by right].
  do 6 (try destruct p as [p|p|]); try (by right);
    left; unfold elem_of; repeat (first [by left | right]).
Qed.

Lemma demo_ili_ranked : ili_ranked Demo.rank.
Proof.
  intros ilix. split; [done|].
  destruct (demo_ili_table_cases ilix) as [Hin|Hother].
  - repeat (apply elem_of_cons in Hin as [->|Hin];
            [split; [intros o Ho; vm_compute in Ho;
                     repeat (apply elem_of_cons in Ho as [->|Ho]; [vm_compute; lia|]);
                     by apply elem_of_nil in Ho
                    |vm_compute; intros; first [lia | discriminate]]|]).
    by apply elem_of_nil in Hin.
  - unfold link_operands. simpl. rewrite Hother. simpl.
    split; [intros o Ho; by apply elem_of_nil in Ho|done].
Qed.

(** The reference 6 to the multiply 4: both get an entry, and asking
    again answers 1. *)
Lemma add_to_cselist_extends_the_list_witness :
  exists r s',
    add_to_cselist 3 6 Demo.init = Some (r, s')
    /\ r = 0
    /\ is_Some (csed_lookup (csedList s') 6)
    /\ NoDup (map csed_ilix (csedList s')).
Proof.
  destruct (add_to_cselist_extends_the_list Demo.rank demo_ili_ranked 3 6 Demo.init)
    as (r & s' & Hrun & Hr & _ & Hin & _ & _ & Hnd).
  - vm_compute. lia.
  - exists r, s'. split; [exact Hrun|]. split; [exact Hr|]. split; [exact Hin|].
    apply Hnd. constructor.
Defined.

End DemoBuildList.
